(** * CoralSwap SDK: quote math, routing, retry, polling, error mapping

    A shallow embedding of the pricing, routing and transaction-lifecycle
    core of the CoralSwap TypeScript SDK, with the properties of its
    specification stated and proved over the embedded functions.

    Conventions of the embedding:
    - a JavaScript [bigint] is a [Z]; [/] on bigints truncates toward zero
      ([Z.quot]), [%] is [Z.rem], and a zero divisor raises a [RangeError];
    - a JavaScript string is a [string] of 8-bit characters; case mapping
      ([toLowerCase], [toUpperCase]) is modelled on the ASCII letters;
    - a function that may [throw] returns an [outcome]: [Return v] or
      [Throw e];
    - an asynchronous collaborator (an RPC probe, a wrapped operation) is a
      function from the index of the call to what that call produces, and
      the code that drives it threads the number of calls made so far. *)

From Stdlib Require Import ZArith QArith Qminmax Qpower Lia Bool List.
From Stdlib Require Import Sorted Ascii String DecimalString DecimalPos.
From stdpp Require Import base option list gmap strings.
From Equations Require Import Equations.

Import ListNotations.

Set Default Proof Using "Type".

(* ===================================================================== *)
(** * Part I: the embedding                                               *)
(* ===================================================================== *)

(** ** Exceptions and results *)

Inductive outcome (E A : Type) : Type :=
| Return (a : A)
| Throw (e : E).

Arguments Return {E A} a.
Arguments Throw {E A} e.

(** Sequencing of computations that may throw: the first exception
    raised is the one propagated (stdpp's [x ← m; k] notation). *)
#[global] Instance outcome_ret {E} : MRet (outcome E) := fun _ a => Return a.
#[global] Instance outcome_bind {E} : MBind (outcome E) := fun _ _ k m =>
  match m with
  | Return a => k a
  | Throw e => Throw e
  end.

#[global] Instance outcome_fmap {E} : FMap (outcome E) := fun _ _ f m =>
  match m with
  | Return a => Return (f a)
  | Throw e => Throw e
  end.

(** The exceptions the quote and routing code raises: [new Error(msg)],
    the engine's [RangeError] and [TypeError], and the SDK's
    [ValidationError]. *)
Inductive JsError : Type :=
| Error (msg : string)
| RangeError (msg : string)
| TypeError (msg : string)
| ValidationError (msg : string).

(** [a / b] on bigints. *)
Definition bigint_div (a b : Z) : outcome JsError Z :=
  if (b =? 0)%Z then Throw (RangeError "Division by zero")
  else Return (Z.quot a b).

(** [a % b] on bigints. *)
Definition bigint_rem (a b : Z) : outcome JsError Z :=
  if (b =? 0)%Z then Throw (RangeError "Division by zero")
  else Return (Z.rem a b).

(** ** JavaScript strings and thrown values *)

Module Js.

(** [haystack.includes(needle)]. *)
Fixpoint includes (haystack needle : string) : bool :=
  String.prefix needle haystack
  || match haystack with
     | EmptyString => false
     | String _ rest => includes rest needle
     end.

Definition lowerChar (c : ascii) : ascii :=
  let n := nat_of_ascii c in
  if (65 <=? n)%nat && (n <=? 90)%nat then ascii_of_nat (n + 32) else c.

Definition upperChar (c : ascii) : ascii :=
  let n := nat_of_ascii c in
  if (97 <=? n)%nat && (n <=? 122)%nat then ascii_of_nat (n - 32) else c.

Fixpoint mapChars (f : ascii -> ascii) (s : string) : string :=
  match s with
  | EmptyString => EmptyString
  | String c rest => String (f c) (mapChars f rest)
  end.

(** [s.toLowerCase()] and [s.toUpperCase()], on ASCII letters. *)
Definition toLowerCase : string -> string := mapChars lowerChar.
Definition toUpperCase : string -> string := mapChars upperChar.

(** *** Regular-expression matching

    The regular expressions of the error classifier are sequences of a
    literal, runs of characters of one class, and a captured run of
    digits, the classes of neighbouring runs being disjoint; taking each
    run as long as it goes is then what the backtracking matcher finds.
    [\s] is modelled on the ASCII white space, and the [i] flag on the
    ASCII letters. *)

Definition isDigit (c : ascii) : bool :=
  let n := nat_of_ascii c in (48 <=? n)%nat && (n <=? 57)%nat.

Definition isLetter (c : ascii) : bool :=
  let n := nat_of_ascii (lowerChar c) in (97 <=? n)%nat && (n <=? 122)%nat.

Definition isSpace (c : ascii) : bool :=
  let n := nat_of_ascii c in
  ((9 <=? n)%nat && (n <=? 13)%nat) || (n =? 32)%nat.

(** The rest of [s] after the literal [lit], letters compared without
    case. *)
Fixpoint afterLiteral (lit s : string) : option string :=
  match lit with
  | EmptyString => Some s
  | String a lit' =>
      match s with
      | EmptyString => None
      | String b s' =>
          if Ascii.eqb (lowerChar a) (lowerChar b) then afterLiteral lit' s'
          else None
      end
  end.

(** [s] without its longest prefix of characters of the class, and that
    prefix. *)
Fixpoint skipWhile (class : ascii -> bool) (s : string) : string :=
  match s with
  | EmptyString => EmptyString
  | String c s' => if class c then skipWhile class s' else s
  end.

Fixpoint takeWhile (class : ascii -> bool) (s : string) : string :=
  match s with
  | EmptyString => EmptyString
  | String c s' => if class c then String c (takeWhile class s') else ""
  end.

(** [string.match(re)] for a pattern tried at every position, leftmost
    first. *)
Fixpoint search {A : Type} (pattern : string -> option A) (s : string)
  : option A :=
  match pattern s with
  | Some a => Some a
  | None =>
      match s with
      | EmptyString => None
      | String _ s' => search pattern s'
      end
  end.

(** [parseInt(digits, 10)] and [BigInt(digits)] of a run of decimal
    digits (exactly, whatever its length). *)
Definition parseDigits (digits : string) : Z :=
  let fix go (acc : Z) (s : string) : Z :=
    match s with
    | EmptyString => acc
    | String c s' => go (acc * 10 + Z.of_nat (nat_of_ascii c - 48))%Z s'
    end in
  go 0%Z digits.

(** A captured [(\d+)] at the head of [s]. *)
Definition digitsAt (s : string) : option Z :=
  let digits := takeWhile isDigit s in
  if String.eqb digits "" then None else Some (parseDigits digits).

(** A value caught by [catch (err: any)], as far as the retry code
    inspects it: [null]/[undefined], or a value with an optional
    [message], an optional [code], an optional [response.status], and the
    text [String(err)] gives. *)
Inductive Thrown : Type :=
| Nullish
| Value (message : option string) (code : option string)
        (status : option Z) (text : string).

(** [err?.message], [err?.code], [err?.response?.status]. *)
Definition messageOf (err : Thrown) : option string :=
  match err with
  | Nullish => None
  | Value message _ _ _ => message
  end.

Definition codeOf (err : Thrown) : option string :=
  match err with
  | Nullish => None
  | Value _ code _ _ => code
  end.

Definition statusOf (err : Thrown) : option Z :=
  match err with
  | Nullish => None
  | Value _ _ status _ => status
  end.

(** [x || fallback] on an optional string: the empty string is falsy. *)
Definition orElse (x : option string) (fallback : string) : string :=
  match x with
  | Some s => if String.eqb s "" then fallback else s
  | None => fallback
  end.

(** Every character of [s] is of the class. *)
Fixpoint every (class : ascii -> bool) (s : string) : bool :=
  match s with
  | EmptyString => true
  | String c s' => class c && every class s'
  end.

(** [parseDigits], one digit at a time. *)
Fixpoint digitsValue (acc : Z) (s : string) : Z :=
  match s with
  | EmptyString => acc
  | String c s' => digitsValue (acc * 10 + Z.of_nat (nat_of_ascii c - 48)) s'
  end.

End Js.

(** ** src/types: requests, quotes and the pool oracle *)

Module Types.

Inductive TradeType : Type := EXACT_IN | EXACT_OUT.

Record SwapRequest : Type := {
  req_tokenIn : string;
  req_tokenOut : string;
  req_amount : Z;
  req_tradeType : TradeType;
  req_path : option (list string);
  req_slippageBps : option Z;
  req_deadline : option Z
}.

Record SwapQuote : Type := {
  tokenIn : string;
  tokenOut : string;
  amountIn : Z;
  amountOut : Z;
  amountOutMin : Z;
  priceImpactBps : Z;
  feeBps : Z;
  feeAmount : Z;
  path : list string;
  deadline : Z
}.

(** What a pair contract client answers; each read is an RPC that may
    fail. *)
Record PairClient : Type := {
  getTokens : outcome JsError (string * string);
  getReserves : outcome JsError (Z * Z);
  getDynamicFee : outcome JsError Z
}.

(** The part of [CoralSwapClient] the quote and routing code consults.
    The oracle is read as a snapshot: during one call its answers do not
    change. *)
Record Client : Type := {
  getAllPairs : outcome JsError (list string);
  pair : string -> PairClient;
  getPairAddress : string -> string -> outcome JsError (option string);
  defaultSlippageBps : option Z;
  getDeadline : Z
}.

(** [DEFAULTS.slippageBps] and [PRECISION.BPS_DENOMINATOR] of
    src/config.ts. *)
Definition DEFAULTS_slippageBps : Z := 50.
Definition BPS_DENOMINATOR : Z := 10000.

End Types.

Import Types.

(** ** The AMM quote engine: class SwapModule (src/modules/swap.ts to its
    callers; its text is the second part of src/contracts/pair.ts, lines
    350-527, where the class is whole: [getQuote] is its only method that
    quotes, and it has no [getMultiHopQuote]) *)

Module Swap.

Local Open Scope Z_scope.

(** [SwapModule.getAmountOut]. [feeBps] is a JavaScript number holding an
    integer ([BigInt] rejects any other). *)
Definition getAmountOut (amountIn reserveIn reserveOut feeBps : Z)
  : outcome JsError Z :=
  if amountIn <=? 0 then Throw (Error "Insufficient input amount")
  else if (reserveIn <=? 0) || (reserveOut <=? 0)
  then Throw (Error "Insufficient liquidity")
  else
    let feeFactor := 10000 - feeBps in
    let amountInWithFee := amountIn * feeFactor in
    let numerator := amountInWithFee * reserveOut in
    let denominator := reserveIn * 10000 + amountInWithFee in
    bigint_div numerator denominator.

(** [SwapModule.getAmountIn]. *)
Definition getAmountIn (amountOut reserveIn reserveOut feeBps : Z)
  : outcome JsError Z :=
  if amountOut <=? 0 then Throw (Error "Insufficient output amount")
  else if (reserveIn <=? 0) || (reserveOut <=? 0)
  then Throw (Error "Insufficient liquidity")
  else if amountOut >=? reserveOut
  then Throw (Error "Insufficient reserve for output")
  else
    let feeFactor := 10000 - feeBps in
    let numerator := reserveIn * amountOut * 10000 in
    let denominator := (reserveOut - amountOut) * feeFactor in
    q ← bigint_div numerator denominator;
    Return (q + 1).

(** [SwapModule.calculatePriceImpact]. *)
Definition calculatePriceImpact (amountIn amountOut reserveIn reserveOut : Z)
  : Z :=
  if (reserveIn =? 0) || (reserveOut =? 0) then 10000
  else
    let idealOut := Z.quot (amountIn * reserveOut) reserveIn in
    if idealOut =? 0 then 10000
    else Z.quot ((idealOut - amountOut) * 10000) idealOut.

(** A JavaScript truthiness test on [string | null]: [!pairAddress]. *)
Definition falsy_address (a : option string) : bool :=
  match a with
  | None => true
  | Some s => String.eqb s ""
  end.

(** [SwapModule.getQuote]. *)
Definition getQuote (client : Client) (request : SwapRequest)
  : outcome JsError SwapQuote :=
  pairAddress ← getPairAddress client (req_tokenIn request)
                                      (req_tokenOut request);
  if falsy_address pairAddress
  then Throw (Error ("No pair found for " ++ req_tokenIn request ++ " / "
                     ++ req_tokenOut request)%string)
  else
    let pair := pair client (default ""%string pairAddress) in
    reserves ← getReserves pair;
    dynamicFee ← getDynamicFee pair;
    let '(reserve0, reserve1) := reserves in
    tokens ← getTokens pair;
    let isToken0In := String.eqb (fst tokens) (req_tokenIn request) in
    let reserveIn := if isToken0In then reserve0 else reserve1 in
    let reserveOut := if isToken0In then reserve1 else reserve0 in
    amounts ← match req_tradeType request with
              | EXACT_IN =>
                  out ← getAmountOut (req_amount request) reserveIn
                                     reserveOut dynamicFee;
                  Return (req_amount request, out)
              | EXACT_OUT =>
                  inp ← getAmountIn (req_amount request) reserveIn
                                    reserveOut dynamicFee;
                  Return (inp, req_amount request)
              end;
    let '(amountIn, amountOut) := amounts in
    let slippageBps :=
      default (default DEFAULTS_slippageBps (defaultSlippageBps client))
              (req_slippageBps request) in
    let amountOutMin :=
      amountOut - Z.quot (amountOut * slippageBps) BPS_DENOMINATOR in
    let priceImpactBps :=
      calculatePriceImpact amountIn amountOut reserveIn reserveOut in
    let feeAmount := Z.quot (amountIn * dynamicFee) BPS_DENOMINATOR in
    Return {| tokenIn := req_tokenIn request;
              tokenOut := req_tokenOut request;
              amountIn := amountIn;
              amountOut := amountOut;
              amountOutMin := amountOutMin;
              priceImpactBps := priceImpactBps;
              feeBps := dynamicFee;
              feeAmount := feeAmount;
              path := [req_tokenIn request; req_tokenOut request];
              deadline := default (getDeadline client)
                                  (req_deadline request) |}.

(** The round trip of the specification: the input [getAmountIn] quotes
    for [amountOut], fed back to [getAmountOut], buys at least
    [amountOut]. *)
Definition roundtrip_holds (amountOut reserveIn reserveOut feeBps : Z)
  : Prop :=
  exists amountIn output,
    getAmountIn amountOut reserveIn reserveOut feeBps = Return amountIn /\
    getAmountOut amountIn reserveIn reserveOut feeBps = Return output /\
    output >= amountOut.

End Swap.


(** ** src/modules/router.ts: path finding and route selection
    (class RouterModule) *)

Module Router.

(** [interface OptimalPath]. *)
Record OptimalPath : Type := {
  path : list string;
  quote : SwapQuote
}.

(** An element of the work queue of [findAllPaths]:
    [{ current: string; path: string[] }]. *)
Module Queue.

Record Entry : Type := {
  current : string;
  path : list string
}.

End Queue.

(** [graph[current] || []]. The token graph is a [Record<string,
    string[]>] keyed by token identifiers (contract addresses, never the
    name of a property every JavaScript object inherits). *)
Definition neighbors (graph : gmap string (list string)) (current : string)
  : list string :=
  default [] (graph !! current).

(** *** [buildTokenGraph] *)

(** [if (!graph[token]) graph[token] = []]. *)
Definition ensureKey (graph : gmap string (list string)) (token : string)
  : gmap string (list string) :=
  match graph !! token with
  | None => <[token := []]> graph
  | Some _ => graph
  end.

(** [if (!graph[a].includes(b)) graph[a].push(b)]. *)
Definition pushNeighbor (graph : gmap string (list string)) (a b : string)
  : gmap string (list string) :=
  if decide (b ∈ neighbors graph a) then graph
  else <[a := neighbors graph a ++ [b]]> graph.

(** The body of the loop over the token pairs; a pair that could not be
    read ([null]) is skipped. *)
Definition addTokens (graph : gmap string (list string))
  (tokens : option (string * string)) : gmap string (list string) :=
  match tokens with
  | None => graph
  | Some (token0, token1) =>
      let graph := ensureKey graph token0 in
      let graph := ensureKey graph token1 in
      let graph := pushNeighbor graph token0 token1 in
      pushNeighbor graph token1 token0
  end.

Definition graphOfTokenPairs (tokenPairs : list (option (string * string)))
  : gmap string (list string) :=
  foldl addTokens ∅ tokenPairs.

Definition buildTokenGraph (client : Client) (pairAddresses : list string)
  : gmap string (list string) :=
  let tokenPairs :=
    (fun addr =>
       match getTokens (pair client addr) with
       | Return tokens => Some tokens
       | Throw _ => None
       end) <$> pairAddresses in
  graphOfTokenPairs tokenPairs.

(** *** [findAllPaths] *)

(** The entries one iteration pushes: one per neighbour not yet on the
    partial path, in the order of the adjacency list. *)
Definition children (graph : gmap string (list string)) (e : Queue.Entry)
  : list Queue.Entry :=
  (fun neighbor =>
     {| Queue.current := neighbor;
        Queue.path := Queue.path e ++ [neighbor] |})
  <$> filter (fun neighbor => neighbor ∉ Queue.path e)
             (neighbors graph (Queue.current e)).

(** Termination measure of the queue loop: an entry weighs one more than
    everything it can still push, down to the hop limit. *)
Fixpoint weight (graph : gmap string (list string)) (depth : nat)
  (e : Queue.Entry) : nat :=
  match depth with
  | 0 => 1
  | S depth' => S (sum_list_with (weight graph depth') (children graph e))
  end.

Definition queue_weight (graph : gmap string (list string)) (maxHops : nat)
  (queue : list Queue.Entry) : nat :=
  sum_list_with
    (fun e => weight graph (S maxHops - length (Queue.path e)) e) queue.

Lemma weight_pos graph depth e : 0 < weight graph depth e.
Proof. destruct depth; simpl; lia. Qed.

Lemma queue_weight_app graph maxHops q1 q2 :
  queue_weight graph maxHops (q1 ++ q2) =
  queue_weight graph maxHops q1 + queue_weight graph maxHops q2.
Proof. apply sum_list_with_app. Qed.

Lemma queue_weight_children graph maxHops e :
  length (Queue.path e) <= maxHops ->
  S (queue_weight graph maxHops (children graph e)) =
  weight graph (S maxHops - length (Queue.path e)) e.
Proof.
  intros H.
  replace (S maxHops - length (Queue.path e))
    with (S (maxHops - length (Queue.path e))) by lia.
  simpl. f_equal. unfold queue_weight, children.
  induction (filter _ _) as [|n l IH]; [done|].
  rewrite !fmap_cons. cbn [sum_list_with Queue.path].
  rewrite IH, length_app. simpl. do 2 f_equal. lia.
Qed.

(** The [while (queue.length > 0)] loop: [queue.shift()], then accept,
    prune or expand. *)
Equations? findAllPaths_loop (end_ : string)
  (graph : gmap string (list string)) (maxHops : nat)
  (queue : list Queue.Entry) (paths : list (list string))
  : list (list string)
  by wf (queue_weight graph maxHops queue) lt :=
  findAllPaths_loop end_ graph maxHops [] paths := paths;
  findAllPaths_loop end_ graph maxHops (e :: queue) paths
    with decide (Queue.current e = end_) => {
    | left _ with decide (1 < length (Queue.path e)) => {
      | left _ :=
          findAllPaths_loop end_ graph maxHops queue
                            (paths ++ [Queue.path e]);
      | right _ := findAllPaths_loop end_ graph maxHops queue paths };
    | right _ with decide (maxHops < length (Queue.path e)) => {
      | left _ := findAllPaths_loop end_ graph maxHops queue paths;
      | right _ :=
          findAllPaths_loop end_ graph maxHops (queue ++ children graph e)
                            paths } }.
Proof.
  1-3: cbn; fold (queue_weight graph maxHops queue);
       pose proof (weight_pos graph (S maxHops - length (Queue.path e)) e);
       lia.
  rewrite queue_weight_app. cbn. fold (queue_weight graph maxHops queue).
  rewrite <- (queue_weight_children graph maxHops e) by lia. lia.
Qed.

(** [RouterModule.findAllPaths]. *)
Definition findAllPaths (start end_ : string)
  (graph : gmap string (list string)) (maxHops : nat) : list (list string) :=
  findAllPaths_loop end_ graph maxHops
    [ {| Queue.current := start; Queue.path := [start] |} ] [].

(** What the specification asks of the result: the simple paths from
    [start] to [end_] along the adjacency lists, of one to [maxHops]
    hops. *)
Definition adjacent (graph : gmap string (list string)) (a b : string)
  : Prop :=
  b ∈ neighbors graph a.

Fixpoint is_walk (graph : gmap string (list string)) (p : list string)
  : Prop :=
  match p with
  | a :: rest =>
      match rest with
      | b :: _ => adjacent graph a b /\ is_walk graph rest
      | [] => True
      end
  | [] => True
  end.

Definition simple_path (graph : gmap string (list string))
  (start end_ : string) (maxHops : nat) (p : list string) : Prop :=
  head p = Some start /\ last p = Some end_ /\ NoDup p /\
  is_walk graph p /\ 2 <= length p <= S maxHops.

(** The paths the loop will still accept from a queue entry. *)
Inductive completes (end_ : string) (graph : gmap string (list string))
  (maxHops : nat) : Queue.Entry -> list string -> Prop :=
| completes_here e :
    Queue.current e = end_ -> 1 < length (Queue.path e) ->
    completes end_ graph maxHops e (Queue.path e)
| completes_later e neighbor p :
    Queue.current e <> end_ -> length (Queue.path e) <= maxHops ->
    neighbor ∈ neighbors graph (Queue.current e) ->
    neighbor ∉ Queue.path e ->
    completes end_ graph maxHops
      {| Queue.current := neighbor;
         Queue.path := Queue.path e ++ [neighbor] |} p ->
    completes end_ graph maxHops e p.

(** The partial paths in the queue and the accepted paths never extend
    one another (which is why, when no adjacency list repeats a token,
    every path is accepted once). *)
Definition antichain (items : list (list string)) : Prop :=
  NoDup items /\
  forall x y, x ∈ items -> y ∈ items -> x `prefix_of` y -> x = y.

(** *** [findOptimalPath] *)

(** The body of the [try]: the quote of one candidate path. A path of
    two tokens is quoted by [getQuote]. For any other path the code calls
    [swapModule.getMultiHopQuote], a method [SwapModule] does not have:
    calling [undefined] raises a [TypeError], inside the [try]. *)
Definition quotePath (client : Client) (amount : Z) (tradeType : TradeType)
  (path : list string) : outcome JsError SwapQuote :=
  match path with
  | [path0; path1] =>
      Swap.getQuote client
        {| req_tokenIn := path0;
           req_tokenOut := path1;
           req_amount := amount;
           req_tradeType := tradeType;
           req_path := Some path;
           req_slippageBps := None;
           req_deadline := None |}
  | _ => Throw (TypeError "swapModule.getMultiHopQuote is not a function")
  end.

(** One iteration of [for (const path of paths)]: a path whose quote
    throws is skipped; a quote replaces the best so far when there is none
    yet or when its [amountOut] is strictly greater. *)
Definition selectStep (client : Client) (amount : Z) (tradeType : TradeType)
  (bestPath : option OptimalPath) (path : list string)
  : option OptimalPath :=
  match quotePath client amount tradeType path with
  | Return quote =>
      match bestPath with
      | None => Some {| path := path; quote := quote |}
      | Some best =>
          if (amountOut quote >? amountOut (Router.quote best))%Z
          then Some {| path := path; quote := quote |}
          else bestPath
      end
  | Throw _ => bestPath
  end.

(** [RouterModule.findOptimalPath]. *)
Definition findOptimalPath (client : Client) (tokenIn tokenOut : string)
  (amount : Z) (tradeType : TradeType)
  : outcome JsError (option OptimalPath) :=
  match tradeType with
  | EXACT_OUT =>
      Throw (ValidationError
               "Only EXACT_IN is currently supported for pathfinding")
  | EXACT_IN =>
      allPairs ← getAllPairs client;
      let tokenGraph := buildTokenGraph client allPairs in
      let paths := findAllPaths tokenIn tokenOut tokenGraph 3 in
      match paths with
      | [] => Return None
      | _ => Return (foldl (selectStep client amount tradeType) None paths)
      end
  end.

(** What the selector's loop maintains over the candidate paths seen so
    far: no result exactly when every candidate's quote failed; otherwise
    a candidate, with its own quote, whose [amountOut] no other quoted
    candidate exceeds. *)
Definition is_best (quoteOf : list string -> outcome JsError SwapQuote)
  (candidates : list (list string)) (result : option OptimalPath) : Prop :=
  match result with
  | None => forall p, p ∈ candidates -> exists err, quoteOf p = Throw err
  | Some best =>
      path best ∈ candidates /\
      quoteOf (path best) = Return (quote best) /\
      forall p q, p ∈ candidates -> quoteOf p = Return q ->
        (amountOut q <= amountOut (quote best))%Z
  end.

(** *** Breadth-first order *)

(** The queue always holds partial paths of one length followed by
    partial paths one token longer, and every path accepted so far is no
    longer than the former. *)
Definition layered (n : nat) (queue : list Queue.Entry)
  (paths : list (list string)) : Prop :=
  StronglySorted (fun p q => length p <= length q) paths /\
  Forall (fun p => length p <= n) paths /\
  exists front back,
    queue = front ++ back /\
    Forall (fun e => length (Queue.path e) = n) front /\
    Forall (fun e => length (Queue.path e) = S n) back.

End Router.

(** ** src/utils/math.ts: exact fractions and their decimal rendering *)

Module Math.

Local Open Scope Z_scope.

Inductive Rounding : Type := ROUND_DOWN | ROUND_HALF_UP | ROUND_UP.

(** [class Fraction]. *)
Record Fraction : Type := {
  numerator : Z;
  denominator : Z
}.

(** [bigint.toString()] (and [String(n)] of an integral number). *)
Definition toString (z : Z) : string :=
  NilZero.string_of_int (Z.to_int z).

(** [str.length]. *)
Definition len (s : string) : Z := Z.of_nat (String.length s).

(** [str.slice(start, end)]; a negative index counts from the end, and
    both are clamped to the string. *)
Definition slice (s : string) (start end_ : Z) : string :=
  let clamp i := if i <? 0 then Z.max (len s + i) 0 else Z.min i (len s) in
  let from := clamp start in
  let to := clamp end_ in
  substring (Z.to_nat from) (Z.to_nat (to - from)) s.

(** [str.slice(start)]. *)
Definition sliceFrom (s : string) (start : Z) : string :=
  slice s start (len s).

(** ['0'.repeat(count)], at the non-negative counts the code passes. *)
Fixpoint zeros (count : nat) : string :=
  match count with
  | O => ""
  | S count' => String "0" (zeros count')
  end.

(** [Fraction.divideWithRounding]. *)
Definition divideWithRounding (numerator denominator : Z)
  (rounding : Rounding) : outcome JsError Z :=
  quotient ← bigint_div numerator denominator;
  remainder ← bigint_rem numerator denominator;
  if remainder =? 0 then Return quotient
  else
    let numAbs := if numerator <? 0 then - numerator else numerator in
    let denAbs := if denominator <? 0 then - denominator else denominator in
    let remAbs := if remainder <? 0 then - remainder else remainder in
    let increment :=
      match rounding with
      | ROUND_DOWN => 0
      | ROUND_UP => if remAbs >? 0 then 1 else 0
      | ROUND_HALF_UP => if remAbs * 2 >=? denAbs then 1 else 0
      end in
    let isPositive := Bool.eqb (numerator >=? 0) (denominator >=? 0) in
    magnitude ← bigint_div numAbs denAbs;
    if isPositive then Return (magnitude + increment)
    else Return (- (magnitude + increment)).

(** [while (n < d) { n *= 10n; shift++; }]. The loop is entered with
    [n] the absolute value of a numerator that is not zero; the test
    [0 < n] only makes the definition total. *)
Equations? scaleUp (n d shift : Z) : Z * Z by wf (Z.to_nat (d - n)) lt :=
  scaleUp n d shift with decide (0 < n /\ n < d) => {
    | left _ := scaleUp (n * 10) d (shift + 1);
    | right _ := (n, shift) }.
Proof. lia. Qed.

(** [Fraction.toSignificant]; [significantDigits] is an integral
    number. *)
Definition toSignificant (f : Fraction) (significantDigits : Z)
  (rounding : Rounding) : outcome JsError string :=
  if significantDigits <? 0
  then Throw (Error (toString significantDigits
                     ++ " is not a valid significant digits."))
  else if numerator f =? 0 then Return "0"%string
  else
    let isNegative :=
      negb (Bool.eqb (numerator f <? 0) (denominator f <? 0)) in
    let sign := if isNegative then "-"%string else ""%string in
    let n := if numerator f <? 0 then - numerator f else numerator f in
    let d := if denominator f <? 0 then - denominator f else denominator f in
    if n <? d then
      (* Case 1: result < 1 *)
      let '(n, shift) := scaleUp n d 0 in
      let power := significantDigits - 1 in
      let n := if power >? 0 then n * 10 ^ power else n in
      quotient ← divideWithRounding n d rounding;
      let str := toString quotient in
      let overflow := len str >? significantDigits in
      let shift := if overflow then shift - 1 else shift in
      let str := if overflow then slice str 0 significantDigits else str in
      if shift >? 0 then
        Return (sign ++ "0." ++ zeros (Z.to_nat (shift - 1)) ++ str)%string
      else
        let totalDecimalPlaces := shift + significantDigits - 1 in
        let decimalPos := len str - totalDecimalPlaces in
        if decimalPos <=? 0 then
          Return (sign ++ "0." ++ zeros (Z.to_nat (- decimalPos))
                  ++ str)%string
        else if decimalPos >=? len str then
          Return (sign ++ str
                  ++ zeros (Z.to_nat (decimalPos - len str)))%string
        else
          Return (sign ++ slice str 0 decimalPos ++ "."
                  ++ sliceFrom str decimalPos)%string
    else
      (* Case 2: result >= 1 *)
      let nStr := toString n in
      let dStr := toString d in
      let intDigits := len nStr - len dStr in
      let scale := 10 ^ Z.max 0 intDigits in
      let intDigits :=
        if n <? d * scale then intDigits
        else if n >=? d * scale * 10 then intDigits + 1
        else intDigits + 1 in
      if intDigits <? significantDigits then
        let power := significantDigits - intDigits in
        let n := n * 10 ^ power in
        quotient ← divideWithRounding n d rounding;
        let str := toString quotient in
        let decimalPos := len str - power in
        let str :=
          if len str >? significantDigits
          then slice str 0 significantDigits else str in
        if decimalPos >=? len str then Return (sign ++ str)%string
        else Return (sign ++ slice str 0 decimalPos ++ "."
                     ++ sliceFrom str decimalPos)%string
      else
        let power := intDigits - significantDigits in
        let scale := 10 ^ power in
        let scaledD := d * scale in
        quotient ← divideWithRounding n scaledD rounding;
        let str := toString quotient in
        Return (sign ++ str ++ zeros (Z.to_nat power))%string.

(** *** Arithmetic, [toFixed] and [Percent] *)

(** [new Fraction(n)]: what [add], [sub], [multiply] and [divide] make
    of an argument that is a bigint, not a fraction. *)
Definition ofBigint (n : Z) : Fraction :=
  {| numerator := n; denominator := 1 |}.

(** The getter [Fraction.quotient]. *)
Definition quotient (f : Fraction) : outcome JsError Z :=
  bigint_div (numerator f) (denominator f).

(** The getter [Fraction.remainder]. *)
Definition remainder (f : Fraction) : outcome JsError Fraction :=
  r ← bigint_rem (numerator f) (denominator f);
  Return {| numerator := r; denominator := denominator f |}.

(** [Fraction.invert]. *)
Definition invert (f : Fraction) : Fraction :=
  {| numerator := denominator f; denominator := numerator f |}.

(** [Fraction.add]. *)
Definition add (f other : Fraction) : Fraction :=
  if denominator f =? denominator other then
    {| numerator := numerator f + numerator other;
       denominator := denominator f |}
  else
    {| numerator := numerator f * denominator other
                    + numerator other * denominator f;
       denominator := denominator f * denominator other |}.

(** [Fraction.sub]. *)
Definition sub (f other : Fraction) : Fraction :=
  if denominator f =? denominator other then
    {| numerator := numerator f - numerator other;
       denominator := denominator f |}
  else
    {| numerator := numerator f * denominator other
                    - numerator other * denominator f;
       denominator := denominator f * denominator other |}.

(** [Fraction.multiply]. *)
Definition multiply (f other : Fraction) : Fraction :=
  {| numerator := numerator f * numerator other;
     denominator := denominator f * denominator other |}.

(** [Fraction.divide]. *)
Definition divide (f other : Fraction) : Fraction :=
  {| numerator := numerator f * denominator other;
     denominator := denominator f * numerator other |}.

(** The rational number a fraction stands for. *)
Definition value (f : Fraction) : Q :=
  (inject_Z (numerator f) / inject_Z (denominator f))%Q.

(** [while (str.length <= decimalPlaces) { str = '0' + str; }]. *)
Equations? padZeros (str : string) (decimalPlaces : Z) : string
  by wf (Z.to_nat (decimalPlaces + 1 - len str)) lt :=
  padZeros str decimalPlaces with decide (len str <= decimalPlaces) => {
    | left _ := padZeros (String "0" str) decimalPlaces;
    | right _ := str }.
Proof. unfold len in *. cbn [String.length]. lia. Qed.

(** [Fraction.toFixed]; [decimalPlaces] is an integral number, and the
    [_format] argument is not read. *)
Definition toFixed (f : Fraction) (decimalPlaces : Z) (rounding : Rounding)
  : outcome JsError string :=
  if decimalPlaces <? 0
  then Throw (Error (toString decimalPlaces
                     ++ " is not a valid decimal places."))
  else
    let scale := 10 ^ decimalPlaces in
    let n_scaled := numerator f * scale in
    quotient ← divideWithRounding n_scaled (denominator f) rounding;
    let str := toString quotient in
    let isNegative := String.prefix "-" str in
    let str := if isNegative then sliceFrom str 1 else str in
    let str := padZeros str decimalPlaces in
    let decimalPos := len str - decimalPlaces in
    let intPart := slice str 0 decimalPos in
    let fracPart := sliceFrom str decimalPos in
    let result :=
      if decimalPlaces >? 0 then (intPart ++ "." ++ fracPart)%string
      else intPart in
    Return (if isNegative then ("-" ++ result)%string else result).

(** [class Percent extends Fraction]: both renderings are those of the
    fraction times [ONE_HUNDRED]. *)
Module Percent.

Definition ONE_HUNDRED : Fraction := ofBigint 100.

Definition toSignificant (f : Fraction) (significantDigits : Z)
  (rounding : Rounding) : outcome JsError string :=
  toSignificant (multiply f ONE_HUNDRED) significantDigits rounding.

Definition toFixed (f : Fraction) (decimalPlaces : Z) (rounding : Rounding)
  : outcome JsError string :=
  toFixed (multiply f ONE_HUNDRED) decimalPlaces rounding.

End Percent.

End Math.

(** ** src/utils/retry.ts: [withRetry], doubling the delay, with jitter

    Delays are JavaScript numbers of milliseconds, modelled as exact
    rationals. The wrapped operation is the sequence of what its calls
    produce; [Math.random] is the sequence of its draws. A run records the
    number of calls, the delay computed before each retry ahead of the
    jitter, and the delay awaited. *)

Module Retry.

(** [interface RetryOptions]. *)
Record RetryOptions : Type := {
  maxRetries : Z;
  retryDelayMs : Q;
  maxRetryDelayMs : Q
}.

Record Run (T : Type) : Type := {
  outcome_of : outcome Js.Thrown T;
  calls : nat;
  backoffs : list Q;
  delays : list Q
}.

Arguments outcome_of {T} _.
Arguments calls {T} _.
Arguments backoffs {T} _.
Arguments delays {T} _.

(** The test in the [catch] block: status 429 or 503, code ECONNABORTED
    or ETIMEDOUT, or a message that includes "timeout". *)
Definition isRetryable (err : Js.Thrown) : bool :=
  bool_decide (Js.statusOf err = Some 429%Z)
  || bool_decide (Js.statusOf err = Some 503%Z)
  || bool_decide (Js.codeOf err = Some "ECONNABORTED"%string)
  || bool_decide (Js.codeOf err = Some "ETIMEDOUT"%string)
  || match Js.messageOf err with
     | Some message => Js.includes message "timeout"
     | None => false
     end.

(** The base of [Math.pow(2, attempt)]. *)
Definition backoffMultiplier : Q := 2.

(** [Math.min(maxRetryDelayMs, retryDelayMs * Math.pow(2, attempt))]. *)
Definition backoffAt (options : RetryOptions) (attempt : Z) : Q :=
  Qmin (maxRetryDelayMs options)
       (retryDelayMs options * backoffMultiplier ^ attempt)%Q.

(** [Math.max(0, backoff + backoff * 0.15 * (Math.random() * 2 - 1))]
    for the draw [r], as a formula over exact rationals: the rounding of
    the double arithmetic is not modelled, so of its value only what
    [Math.max] gives is stated. *)
Definition jittered (backoff r : Q) : Q :=
  Qmax 0 (backoff + backoff * (15 # 100) * (r * 2 - 1))%Q.

(** The [for (let attempt = 0; attempt <= maxRetries; attempt++)] loop,
    with [remaining] iterations to go. *)
Fixpoint retryFrom {T : Type} (fn : nat -> outcome Js.Thrown T)
  (random : nat -> Q) (options : RetryOptions)
  (remaining : nat) (attempt : Z) (called : nat) (lastError : Js.Thrown)
  (computed awaited : list Q) : Run T :=
  match remaining with
  | O =>
      {| outcome_of := Throw lastError; calls := called;
         backoffs := computed; delays := awaited |}
  | S remaining' =>
      match fn called with
      | Return value =>
          {| outcome_of := Return value; calls := S called;
             backoffs := computed; delays := awaited |}
      | Throw err =>
          if negb (isRetryable err) || (attempt =? maxRetries options)%Z
          then
            {| outcome_of := Throw err; calls := S called;
               backoffs := computed; delays := awaited |}
          else
            let backoff := backoffAt options attempt in
            let delay := jittered backoff (random (length awaited)) in
            retryFrom fn random options remaining' (attempt + 1)%Z
                      (S called) err
                      (computed ++ [backoff]) (awaited ++ [delay])
      end
  end.

(** [withRetry] of src/utils/retry.ts. *)
Definition withRetry {T : Type} (fn : nat -> outcome Js.Thrown T)
  (random : nat -> Q) (options : RetryOptions) : Run T :=
  retryFrom fn random options (Z.to_nat (maxRetries options + 1)) 0 0
            Js.Nullish [] [].

End Retry.

(** ** src/utils/ledger.ts (second part): [isRetryable] and [withRetry]
    with a configurable multiplier and no jitter *)

Module LedgerRetry.

(** [interface RetryOptions]; the code also reads the deprecated names
    when the current ones are absent. *)
Record RetryOptions : Type := {
  maxRetries : Z;
  baseDelayMs : option Q;
  maxDelayMs : option Q;
  backoffMultiplier : option Q;
  retryDelayMs : option Q;
  maxRetryDelayMs : option Q
}.

(** [isRetryable]. *)
Definition isRetryable (err : Js.Thrown) : bool :=
  match err with
  | Js.Nullish => false
  | Js.Value message code status text =>
      let message := Js.toLowerCase (Js.orElse message text) in
      let code := Js.toUpperCase (Js.orElse code "") in
      bool_decide (status = Some 429%Z)
      || bool_decide (status = Some 503%Z)
      || String.eqb code "ECONNABORTED"
      || String.eqb code "ETIMEDOUT"
      || String.eqb code "ECONNRESET"
      || String.eqb code "ECONNREFUSED"
      || String.eqb code "ENOTFOUND"
      || Js.includes message "timeout"
      || Js.includes message "socket hang up"
      || Js.includes message "too many requests"
      || Js.includes message "service unavailable"
      || Js.includes message "enotfound"
      || Js.includes message "econnrefused"
      || Js.includes message "econnreset"
      || Js.includes message "etimedout"
  end.

(** [options.baseDelayMs ?? options.retryDelayMs ?? 1000], and the like. *)
Definition baseDelay (options : RetryOptions) : Q :=
  default (default 1000%Q (retryDelayMs options)) (baseDelayMs options).

Definition maxDelay (options : RetryOptions) : Q :=
  default (default 10000%Q (maxRetryDelayMs options)) (maxDelayMs options).

Definition multiplier (options : RetryOptions) : Q :=
  default 2%Q (backoffMultiplier options).

(** [Math.min(maxDelay, baseDelay * Math.pow(multiplier, attempt))]. *)
Definition backoffAt (options : RetryOptions) (attempt : Z) : Q :=
  Qmin (maxDelay options)
       (baseDelay options * multiplier options ^ attempt)%Q.

Fixpoint retryFrom {T : Type} (fn : nat -> outcome Js.Thrown T)
  (options : RetryOptions)
  (remaining : nat) (attempt : Z) (called : nat) (lastError : Js.Thrown)
  (awaited : list Q) : Retry.Run T :=
  match remaining with
  | O =>
      {| Retry.outcome_of := Throw lastError; Retry.calls := called;
         Retry.backoffs := awaited; Retry.delays := awaited |}
  | S remaining' =>
      match fn called with
      | Return value =>
          {| Retry.outcome_of := Return value; Retry.calls := S called;
             Retry.backoffs := awaited; Retry.delays := awaited |}
      | Throw err =>
          if negb (isRetryable err) || (attempt =? maxRetries options)%Z
          then
            {| Retry.outcome_of := Throw err; Retry.calls := S called;
               Retry.backoffs := awaited; Retry.delays := awaited |}
          else
            let backoff := backoffAt options attempt in
            let delay := backoff in
            retryFrom fn options remaining' (attempt + 1)%Z (S called) err
                      (awaited ++ [delay])
      end
  end.

(** [withRetry] of src/utils/ledger.ts. *)
Definition withRetry {T : Type} (fn : nat -> outcome Js.Thrown T)
  (options : RetryOptions) : Retry.Run T :=
  retryFrom fn options (Z.to_nat (maxRetries options + 1)) 0 0
            Js.Nullish [].

End LedgerRetry.

(** ** Failing operations for running the retry code *)

Module RetryTest.

(** Connection failures as Node reports them: reset, refused, host not
    found. *)
Definition connectionReset : Js.Thrown :=
  Js.Value (Some "socket hang up"%string) (Some "ECONNRESET"%string) None
           "Error: socket hang up".

Definition connectionRefused : Js.Thrown :=
  Js.Value (Some "connect ECONNREFUSED 127.0.0.1:8000"%string)
           (Some "ECONNREFUSED"%string) None
           "Error: connect ECONNREFUSED 127.0.0.1:8000".

Definition hostNotFound : Js.Thrown :=
  Js.Value (Some "getaddrinfo ENOTFOUND soroban-testnet.stellar.org"%string)
           (Some "ENOTFOUND"%string) None
           "Error: getaddrinfo ENOTFOUND soroban-testnet.stellar.org".

(** An error the retry code classifies as transient by its message, and
    the operation that fails with it on every call. *)
Definition timeoutError : Js.Thrown :=
  Js.Value (Some "Request timeout"%string) None None
           "Error: Request timeout".


End RetryTest.

(** ** Confirmation polling: class TransactionPoller (src/utils/polling.ts
    to its callers; its text is the second part of src/utils/retry.ts)

    Durations are JavaScript numbers of milliseconds, modelled as exact
    rationals. The server is the sequence of answers its [getTransaction]
    gives, by call; a run records how many probes were issued and the
    delays awaited between them. *)

Module Polling.

Inductive PollingStrategy : Type := LINEAR | EXPONENTIAL.

(** [interface PollingOptions]: every field is optional. *)
Record PollingOptions : Type := {
  strategy : option PollingStrategy;
  interval : option Q;
  maxAttempts : option Z;
  backoffFactor : option Q;
  maxInterval : option Q
}.

(** What one call of [server.getTransaction(txHash)] produces: a status
    object, or a rejection (an RPC or transport error). *)
Inductive Probe : Type :=
| Resolved (status : string) (ledger : option Z)
| Rejected (message : string).

(** [interface CoralSwapError], without its free-form [details]. *)
Record CoralSwapError : Type := {
  code : string;
  message : string
}.

(** [Result<{ txHash; ledger }>]. *)
Inductive PollResult : Type :=
| Confirmed (txHash : string) (ledger : Z)
| Failed (error : CoralSwapError) (txHash : string).

Record PollRun : Type := {
  result : PollResult;
  probes : nat;
  waits : list Q
}.

(** Time spent in the awaited delays. *)
Definition elapsed (run : PollRun) : Q :=
  foldl Qplus 0%Q (waits run).

Definition TX_FAILED : CoralSwapError :=
  {| code := "TX_FAILED"; message := "Transaction failed on-chain" |}.

Definition TX_TIMEOUT (maxAttempts : Z) : CoralSwapError :=
  {| code := "TX_TIMEOUT";
     message := "Transaction confirmation timed out after "
                ++ Math.toString maxAttempts ++ " attempts" |}.

(** The [for (let attempt = 1; attempt <= maxAttempts; attempt++)] loop,
    with [remaining] iterations to go after [calls] probes. *)
Fixpoint pollFrom (server : nat -> Probe) (txHash : string)
  (strategy : PollingStrategy) (maxAttempts : Z)
  (backoffFactor maxInterval : Q)
  (remaining : nat) (attempt : Z) (calls : nat) (currentInterval : Q)
  (waited : list Q) : PollRun :=
  match remaining with
  | O =>
      {| result := Failed (TX_TIMEOUT maxAttempts) txHash;
         probes := calls; waits := waited |}
  | S remaining' =>
      let status := server calls in
      let calls := S calls in
      let pending (_ : unit) :=
        if (attempt <? maxAttempts)%Z then
          let waited := waited ++ [currentInterval] in
          let currentInterval :=
            match strategy with
            | EXPONENTIAL =>
                Qmin (currentInterval * backoffFactor) maxInterval
            | LINEAR => currentInterval
            end in
          pollFrom server txHash strategy maxAttempts backoffFactor
                   maxInterval remaining' (attempt + 1) calls
                   currentInterval waited
        else
          pollFrom server txHash strategy maxAttempts backoffFactor
                   maxInterval remaining' (attempt + 1) calls
                   currentInterval waited in
      match status with
      | Resolved status ledger =>
          if String.eqb status "SUCCESS" then
            {| result := Confirmed txHash (default 0%Z ledger);
               probes := calls; waits := waited |}
          else if String.eqb status "FAILED" then
            {| result := Failed TX_FAILED txHash;
               probes := calls; waits := waited |}
          else pending tt
      | Rejected _ => pending tt
      end
  end.

(** [TransactionPoller.poll]. *)
Definition poll (server : nat -> Probe) (txHash : string)
  (options : PollingOptions) : PollRun :=
  let strategy := default LINEAR (strategy options) in
  let initialInterval := default 1000%Q (interval options) in
  let maxAttempts := default 30%Z (maxAttempts options) in
  let backoffFactor := default 2%Q (backoffFactor options) in
  let maxInterval := default 10000%Q (maxInterval options) in
  pollFrom server txHash strategy maxAttempts backoffFactor maxInterval
           (Z.to_nat maxAttempts) 1 0 initialInterval [].

(** A probe that ends the polling, and the result it ends with. *)
Definition terminal (txHash : string) (p : Probe) : option PollResult :=
  match p with
  | Resolved status ledger =>
      if String.eqb status "SUCCESS"
      then Some (Confirmed txHash (default 0%Z ledger))
      else if String.eqb status "FAILED"
      then Some (Failed TX_FAILED txHash)
      else None
  | Rejected _ => None
  end.

(** The server of the test: [misses] times a status that is neither
    success nor failure, then success. *)
Definition notFoundThenSuccess (misses : nat) (ledger : Z) (call : nat)
  : Probe :=
  if (call <? misses)%nat then Resolved "NOT_FOUND" None
  else Resolved "SUCCESS" (Some ledger).

(** The update of [currentInterval] after a wait:
    [Math.min(currentInterval * backoffFactor, maxInterval)] under the
    exponential strategy, no change under the linear one. *)
Definition nextInterval (strategy : PollingStrategy)
  (backoffFactor maxInterval currentInterval : Q) : Q :=
  match strategy with
  | EXPONENTIAL => Qmin (currentInterval * backoffFactor) maxInterval
  | LINEAR => currentInterval
  end.

(** The interval awaited after the probe of index [i]. *)
Definition intervalAt (strategy : PollingStrategy)
  (backoffFactor maxInterval initialInterval : Q) (i : nat) : Q :=
  Nat.iter i (nextInterval strategy backoffFactor maxInterval)
           initialInterval.

End Polling.

(** ** Contract error codes: class ErrorParser (src/errors/parser.ts, the
    variant whose router codes are the 200s, as [mapContractError]
    expects) *)

Module ErrorParser.

Local Open Scope Z_scope.

Definition PAIR_ERROR_MAP : gmap Z string :=
  list_to_map
    [(100, "Pair already initialized"%string);
     (101, "Zero address provided"%string);
     (102, "Identical tokens provided"%string);
     (103, "Insufficient liquidity minted"%string);
     (104, "Insufficient liquidity burned"%string);
     (105, "Insufficient output amount"%string);
     (106, "Insufficient liquidity in pool"%string);
     (107, "Invalid amount"%string);
     (108, "K invariant violated"%string);
     (109, "Insufficient input amount"%string);
     (110, "Contract is locked (reentrancy guard)"%string);
     (111, "Transaction expired (deadline exceeded)"%string);
     (112, "Constraint not met"%string);
     (113, "Invalid fee configuration"%string)].

Definition ROUTER_ERROR_MAP : gmap Z string :=
  list_to_map
    [(200, "Router already initialized"%string);
     (201, "Invalid swap path"%string);
     (202, "Insufficient output amount"%string);
     (203, "Excessive input amount"%string);
     (204, "Expired deadline"%string);
     (205, "Insufficient liquidity"%string);
     (206, "Pair not found"%string);
     (207, "Identical tokens"%string)].

Definition FACTORY_ERROR_MAP : gmap Z string :=
  list_to_map
    [(300, "Factory already initialized"%string);
     (301, "Unauthorized caller"%string);
     (302, "Pair already exists"%string);
     (303, "Zero address provided"%string);
     (304, "Invalid fee configuration"%string)].

(** [MAP[code] || null]. *)
Definition entry (map : gmap Z string) (code : Z) : option string :=
  match map !! code with
  | Some description =>
      if String.eqb description "" then None else Some description
  | None => None
  end.

(** [ErrorParser.parseContractError]. *)
Definition parseContractError (code : Z) : option string :=
  if (code >=? 100) && (code <? 120) then entry PAIR_ERROR_MAP code
  else if (code >=? 200) && (code <? 220) then entry ROUTER_ERROR_MAP code
  else if (code >=? 300) && (code <? 320) then entry FACTORY_ERROR_MAP code
  else None.

(** [/Error\(Contract,\s*#?([0-9]+)\)/i] at the head of [s]. *)
Definition contractErrorAt (s : string) : option Z :=
  rest ← Js.afterLiteral "Error(Contract," s;
  let rest := Js.skipWhile Js.isSpace rest in
  let rest := match Js.afterLiteral "#" rest with
              | Some rest' => rest'
              | None => rest
              end in
  code ← Js.digitsAt rest;
  _ ← Js.afterLiteral ")" (Js.skipWhile Js.isDigit rest);
  Some code.

(** [ErrorParser.extractErrorCode] on the text it reads from its
    argument ([error] itself when a string, otherwise
    [error?.message || '']). *)
Definition extractErrorCode (message : string) : option Z :=
  if String.eqb message "" then None
  else Js.search contractErrorAt message.

(** What [extractErrorCode] and [toHumanMessage] are handed
    ([error: any]): a string, or any other value, with the [message]
    property it may have ([null] and [undefined] have none). *)
Inductive Input : Type :=
| Text (s : string)
| Object (message : option string).

(** [typeof error === 'string' ? error : error?.message || '']. *)
Definition messageOf (error : Input) : string :=
  match error with
  | Text s => s
  | Object message => Js.orElse message ""
  end.

(** [ErrorParser.toHumanMessage]. *)
Definition toHumanMessage (error : Input) : string :=
  match extractErrorCode (messageOf error) with
  | Some code =>
      match parseContractError code with
      | Some description =>
          "Contract Error (" ++ Math.toString code ++ "): " ++ description
      | None => "Contract Error (" ++ Math.toString code ++ ")"
      end
  | None =>
      match error with
      | Text s => s
      | Object message => Js.orElse message "Unknown error"
      end
  end.

End ErrorParser.

(** ** src/errors.ts: the typed errors and [mapError] *)

Module Errors.

(** A value handed to [mapError] that is not an SDK error: an [Error]
    with its message, a string, or any other value with the [message]
    property it may have and the text [String(err)] gives. Each may carry
    [details.pairAddress] and [details.pair]. *)
Inductive Untyped : Type :=
| ErrorObject (message : string) (pairAddress pair : option string)
| StringValue (s : string)
| OtherValue (message : option string) (text : string)
             (pairAddress pair : option string).

(** A value of the [details] record of an SDK error. *)
Inductive Detail : Type :=
| DNumber (z : Z)
| DString (s : string)
| DNull
| DOriginal (err : Untyped).

(** [class CoralSwapSDKError] and its subclasses: [name] tells the
    class. *)
Record SdkError : Type := {
  name : string;
  code : string;
  message : string;
  details : option (list (string * Detail))
}.

(** [err: unknown]. *)
Inductive Raw : Type :=
| Typed (err : SdkError)
| Plain (err : Untyped).

(** The constructors of the classes. *)
Definition CoralSwapSDKError (code message : string)
  (details : option (list (string * Detail))) : SdkError :=
  {| name := "CoralSwapSDKError"; code := code; message := message;
     details := details |}.

Definition NetworkError (message : string) : SdkError :=
  {| name := "NetworkError"; code := "NETWORK_ERROR"; message := message;
     details := None |}.

Definition RpcError (message : string) : SdkError :=
  {| name := "RpcError"; code := "RPC_ERROR"; message := message;
     details := None |}.

Definition SimulationError (message : string) : SdkError :=
  {| name := "SimulationError"; code := "SIMULATION_ERROR";
     message := message; details := None |}.

Definition TransactionError (message : string)
  (details : option (list (string * Detail))) : SdkError :=
  {| name := "TransactionError"; code := "TRANSACTION_ERROR";
     message := message; details := details |}.

Definition DeadlineError (deadline : Z) : SdkError :=
  {| name := "DeadlineError"; code := "DEADLINE_EXCEEDED";
     message := "Transaction deadline exceeded (deadline: "
                ++ Math.toString deadline ++ ")";
     details := Some [("deadline"%string, DNumber deadline)] |}.

(** [details?.message as string || fallback]. *)
Definition detailMessage (details : list (string * Detail))
  (fallback : string) : string :=
  match snd <$> find (fun kv => String.eqb (fst kv) "message") details with
  | Some (DString m) => if String.eqb m "" then fallback else m
  | _ => fallback
  end.

Definition SlippageError (expected actual toleranceBps : Z)
  (additionalDetails : list (string * Detail)) : SdkError :=
  {| name := "SlippageError"; code := "SLIPPAGE_EXCEEDED";
     message :=
       detailMessage additionalDetails
         ("Slippage tolerance exceeded. Expected " ++ Math.toString expected
          ++ ", got " ++ Math.toString actual ++ " (tolerance: "
          ++ Math.toString toleranceBps ++ " bps)");
     details :=
       Some ([("expected"%string, DString (Math.toString expected));
              ("actual"%string, DString (Math.toString actual));
              ("toleranceBps"%string, DNumber toleranceBps)]
             ++ additionalDetails) |}.

Definition InsufficientLiquidityError (pairAddress : string)
  (details : list (string * Detail)) : SdkError :=
  {| name := "InsufficientLiquidityError"; code := "INSUFFICIENT_LIQUIDITY";
     message :=
       detailMessage details
         ("Insufficient liquidity for pair " ++ pairAddress);
     details := Some (("pairAddress"%string, DString pairAddress)
                      :: details) |}.

Definition PairNotFoundError (tokenA tokenB : string) : SdkError :=
  {| name := "PairNotFoundError"; code := "PAIR_NOT_FOUND";
     message := "Pair not found for tokens " ++ tokenA ++ " / " ++ tokenB;
     details := Some [("tokenA"%string, DString tokenA);
                      ("tokenB"%string, DString tokenB)] |}.

Definition ValidationError (message : string)
  (details : option (list (string * Detail))) : SdkError :=
  {| name := "ValidationError"; code := "VALIDATION_ERROR";
     message := message; details := details |}.

Definition FlashLoanError (message : string) : SdkError :=
  {| name := "FlashLoanError"; code := "FLASH_LOAN_ERROR";
     message := message; details := None |}.

Definition CircuitBreakerError (pairAddress : string) : SdkError :=
  {| name := "CircuitBreakerError"; code := "CIRCUIT_BREAKER";
     message := "Pool is paused for pair " ++ pairAddress;
     details := Some [("pairAddress"%string, DString pairAddress)] |}.

Definition SignerError : SdkError :=
  {| name := "SignerError"; code := "NO_SIGNER";
     message := "No signing key configured. Provide secretKey in config "
                ++ "or use external signing.";
     details := None |}.

(** [err instanceof Error ? err.message : String(err)]. *)
Definition messageOf (err : Untyped) : string :=
  match err with
  | ErrorObject message _ _ => message
  | StringValue s => s
  | OtherValue _ text _ _ => text
  end.

(** [typeof error === 'string' ? error : error?.message || '']. *)
Definition parserMessageOf (err : Untyped) : string :=
  match err with
  | ErrorObject message _ _ => message
  | StringValue s => s
  | OtherValue message _ _ _ => Js.orElse message ""
  end.

(** [/[CG][A-Z0-9]{47,55}/i] at the head of [s]. *)
Definition addressAt (s : string) : option string :=
  match s with
  | String c rest =>
      if Ascii.eqb (Js.lowerChar c) "c" || Ascii.eqb (Js.lowerChar c) "g"
      then
        let run := Js.takeWhile (fun x => Js.isLetter x || Js.isDigit x)
                                rest in
        if (47 <=? String.length run)%nat
        then Some (String c (substring 0 55 run))
        else None
      else None
  | EmptyString => None
  end.

(** [extractPairAddress]. *)
Definition extractPairAddress (err : Untyped) : string :=
  let '(pairAddress, pair) :=
    match err with
    | ErrorObject _ pairAddress pair => (pairAddress, pair)
    | StringValue _ => (None, None)
    | OtherValue _ _ pairAddress pair => (pairAddress, pair)
    end in
  let fromMessage :=
    default "unknown"%string (Js.search addressAt (messageOf err)) in
  Js.orElse pairAddress (Js.orElse pair fromMessage).

Local Open Scope Z_scope.

(** [mapContractError]. *)
Definition mapContractError (code : Z) (err : Untyped) : option SdkError :=
  let message := ErrorParser.parseContractError code in
  let text := match message with Some m => DString m | None => DNull end in
  let coded := [("contractErrorCode"%string, DNumber code)] in
  let described := coded ++ [("message"%string, text)] in
  if code =? 100 then
    Some (ValidationError (Js.orElse message "Already initialized")
                          (Some coded))
  else if code =? 101 then
    Some (ValidationError (Js.orElse message "Zero address") (Some coded))
  else if code =? 102 then
    Some (ValidationError (Js.orElse message "Identical tokens")
                          (Some coded))
  else if (code =? 103) || (code =? 104) || (code =? 106) then
    Some (InsufficientLiquidityError (extractPairAddress err) described)
  else if code =? 105 then Some (SlippageError 0 0 0 described)
  else if (code =? 107) || (code =? 109) then
    Some (ValidationError (Js.orElse message "Invalid amount") (Some coded))
  else if code =? 108 then
    Some (ValidationError (Js.orElse message "K invariant violated")
                          (Some coded))
  else if code =? 110 then
    Some (TransactionError (Js.orElse message "Contract locked")
                           (Some coded))
  else if code =? 111 then Some (DeadlineError 0)
  else if (code =? 112) || (code =? 113) then
    Some (ValidationError (Js.orElse message "Constraint not met")
                          (Some coded))
  else if code =? 201 then
    Some (ValidationError (Js.orElse message "Invalid swap path")
                          (Some coded))
  else if (code =? 202) || (code =? 203) then
    Some (SlippageError 0 0 0 described)
  else if code =? 204 then Some (DeadlineError 0)
  else if code =? 205 then
    Some (InsufficientLiquidityError (extractPairAddress err) described)
  else if code =? 206 then Some (PairNotFoundError "unknown" "unknown")
  else if code =? 300 then Some (PairNotFoundError "unknown" "unknown")
  else None.

(** A run of [:] and white space: [[:\s]*]. *)
Definition isColonOrSpace (c : ascii) : bool :=
  Ascii.eqb c ":" || Js.isSpace c.

(** [/deadline[:\s]*[a-z]*[:\s]*(\d+)/i] at the head of [s]. *)
Definition deadlineAt (s : string) : option Z :=
  rest ← Js.afterLiteral "deadline" s;
  Js.digitsAt
    (Js.skipWhile isColonOrSpace
       (Js.skipWhile Js.isLetter (Js.skipWhile isColonOrSpace rest))).

(** [/keyword[:\s]*(\d+)/i] at the head of [s]. *)
Definition numberAfter (keyword : string) (s : string) : option Z :=
  rest ← Js.afterLiteral keyword s;
  Js.digitsAt (Js.skipWhile isColonOrSpace rest).

(** [/(?:got|actual)[:\s]*(\d+)/i] at the head of [s]. *)
Definition actualAt (s : string) : option Z :=
  match numberAfter "got" s with
  | Some n => Some n
  | None => numberAfter "actual" s
  end.

(** The substring tests of [mapError], in its order, on the message and
    on the message in lower case. *)
Definition isDeadline (message normalized : string) : bool :=
  Js.includes message "EXPIRED" || Js.includes normalized "deadline".

Definition isSlippage (message normalized : string) : bool :=
  Js.includes normalized "slippage"
  || Js.includes message "INSUFFICIENT_OUTPUT".

Definition isLiquidity (message normalized : string) : bool :=
  Js.includes normalized "liquidity"
  || Js.includes message "INSUFFICIENT_LIQUIDITY".

Definition isCircuitBreaker (message normalized : string) : bool :=
  Js.includes normalized "circuit" || Js.includes normalized "paused".

Definition isNetwork (message normalized : string) : bool :=
  Js.includes message "ECONNRESET" || Js.includes message "ETIMEDOUT"
  || Js.includes message "ENOTFOUND" || Js.includes message "ENETUNREACH".

Definition isRpc (message normalized : string) : bool :=
  Js.includes normalized "rate limit"
  || Js.includes normalized "too many requests"
  || Js.includes message "RPC" || Js.includes message "429".

Definition isSigner (message normalized : string) : bool :=
  Js.includes normalized "signing" || Js.includes normalized "signer"
  || Js.includes message "NO_SIGNER"
  || Js.includes normalized "private key".

Definition isFlashLoan (message normalized : string) : bool :=
  Js.includes normalized "flash loan" || Js.includes normalized "flash_loan"
  || Js.includes normalized "reentrancy"
  || Js.includes normalized "callback".

Definition isValidation (message normalized : string) : bool :=
  (Js.includes normalized "invalid"
   && negb (Js.includes normalized "active"))
  || Js.includes normalized "validation"
  || Js.includes normalized "required"
  || Js.includes normalized "must be".

Definition isPairNotFound (message normalized : string) : bool :=
  Js.includes normalized "pair not found"
  || Js.includes normalized "no pair"
  || Js.includes message "PAIR_NOT_FOUND".

Definition isSimulation (message normalized : string) : bool :=
  Js.includes normalized "simulation"
  || Js.includes message "SIMULATION_FAILED".

Definition isTransaction (message normalized : string) : bool :=
  Js.includes normalized "transaction" || Js.includes message "TX_FAILED"
  || Js.includes normalized "tx failed".

(** The part of [mapError] after the contract error codes. *)
Definition mapByMessage (err : Untyped) : SdkError :=
  let message := messageOf err in
  let normalizedMessage := Js.toLowerCase message in
  if isDeadline message normalizedMessage then
    DeadlineError (default 0 (Js.search deadlineAt message))
  else if isSlippage message normalizedMessage then
    SlippageError
      (default 0 (Js.search (numberAfter "expected") message))
      (default 0 (Js.search actualAt message))
      (default 0 (Js.search (numberAfter "tolerance") message))
      []
  else if isLiquidity message normalizedMessage then
    InsufficientLiquidityError (extractPairAddress err) []
  else if isCircuitBreaker message normalizedMessage then
    CircuitBreakerError (extractPairAddress err)
  else if isNetwork message normalizedMessage then NetworkError message
  else if isRpc message normalizedMessage then RpcError message
  else if isSigner message normalizedMessage then SignerError
  else if isFlashLoan message normalizedMessage then FlashLoanError message
  else if isValidation message normalizedMessage then
    ValidationError message None
  else if isPairNotFound message normalizedMessage then
    PairNotFoundError "unknown" "unknown"
  else if isSimulation message normalizedMessage then
    SimulationError message
  else if isTransaction message normalizedMessage then
    TransactionError message None
  else
    CoralSwapSDKError "UNKNOWN_ERROR" message
      (Some [("originalError"%string, DOriginal err)]).

(** [mapError] (the second definition of src/errors.ts, which consults
    the contract error codes). *)
Definition mapError (err : Raw) : SdkError :=
  match err with
  | Typed err => err
  | Plain err =>
      match ErrorParser.extractErrorCode (parserMessageOf err) with
      | Some errorCode =>
          match mapContractError errorCode err with
          | Some mappedError => mappedError
          | None => mapByMessage err
          end
      | None => mapByMessage err
      end
  end.





End Errors.

(** ** src/utils/addresses.ts: ordering and display of addresses *)

Module Addresses.

Local Open Scope Z_scope.

(** [sortTokens]. [tokenA < tokenB] compares strings by their code
    units, here their characters. *)
Definition sortTokens (tokenA tokenB : string)
  : outcome JsError (string * string) :=
  if String.eqb tokenA tokenB then Throw (Error "Identical tokens")
  else Return (if String.ltb tokenA tokenB then (tokenA, tokenB)
               else (tokenB, tokenA)).

(** [truncateAddress]; [chars] is an integral number (4 when the
    argument is left out). *)
Definition truncateAddress (address : string) (chars : Z) : string :=
  if Math.len address <=? chars * 2 + 3 then address
  else (Math.slice address 0 chars ++ "..."
        ++ Math.sliceFrom address (- chars))%string.

End Addresses.

(** ** src/modules/factory.ts: the cache of pair addresses
    (class FactoryModule)

    The module's state is its [cache], a [Map] from cache keys to pair
    addresses or [null]. The on-chain factory is the sequence of answers
    its [getPair] gives, by call: what it answers for two tokens may
    change from one call to the next. [queries] counts the calls made. *)

Module Factory.

(** [interface GetPairOptions]. *)
Record GetPairOptions : Type := {
  bypassCache : option bool
}.

Record State : Type := {
  cache : gmap string (option string);
  queries : nat
}.

(** The template string [`${t0}:${t1}`]. *)
Definition cacheKey (t0 t1 : string) : string :=
  (t0 ++ ":" ++ t1)%string.

(** [FactoryModule.getPairAddress]. *)
Definition getPairAddress
  (getPair : nat -> string -> string -> outcome JsError (option string))
  (tokenA tokenB : string) (options : GetPairOptions) (st : State)
  : outcome JsError (option string) * State :=
  match Addresses.sortTokens tokenA tokenB with
  | Throw e => (Throw e, st)
  | Return (t0, t1) =>
      let cacheKey := cacheKey t0 t1 in
      if negb (default false (bypassCache options))
         && bool_decide (is_Some (cache st !! cacheKey))
      then (Return (default None (cache st !! cacheKey)), st)
      else
        match getPair (queries st) t0 t1 with
        | Throw e =>
            (Throw e, {| cache := cache st; queries := S (queries st) |})
        | Return pairAddress =>
            (Return pairAddress,
             {| cache := <[cacheKey := pairAddress]> (cache st);
                queries := S (queries st) |})
        end
  end.

(** [FactoryModule.preLoadPairs]: the entries before one whose tokens
    are identical stay in the cache when [sortTokens] throws on it. *)
Fixpoint preLoadPairs (pairs : list (string * string * string)) (st : State)
  : outcome JsError unit * State :=
  match pairs with
  | [] => (Return tt, st)
  | (a, b, addr) :: pairs' =>
      match Addresses.sortTokens a b with
      | Throw e => (Throw e, st)
      | Return (t0, t1) =>
          preLoadPairs pairs'
            {| cache := <[cacheKey t0 t1 := Some addr]> (cache st);
               queries := queries st |}
      end
  end.

(** [FactoryModule.clearCache]. *)
Definition clearCache (st : State) : State :=
  {| cache := ∅; queries := queries st |}.

(** The cache key of two tokens, in whichever order they are given. *)
Definition pairKey (tokenA tokenB : string) : option string :=
  match Addresses.sortTokens tokenA tokenB with
  | Return (t0, t1) => Some (cacheKey t0 t1)
  | Throw _ => None
  end.

End Factory.

(** ** src/modules/flash-loan.ts: the borrowable amount *)

Module FlashLoan.

Local Open Scope Z_scope.

(** [FlashLoanModule.getMaxBorrowable]. *)
Definition getMaxBorrowable (client : Client) (pairAddress token : string)
  : outcome JsError Z :=
  let pair := pair client pairAddress in
  reserves ← getReserves pair;
  let '(reserve0, reserve1) := reserves in
  tokens ← getTokens pair;
  let reserve := if String.eqb (fst tokens) token then reserve0
                 else reserve1 in
  let safetyMargin := Z.quot reserve 100 in
  Return (reserve - safetyMargin).

End FlashLoan.

(** ** tests/router-pathfinding.test.ts: the mocked pool oracle *)

Module RouterTest.

Record MockPair : Type := {
  mp_address : string;
  mp_token0 : string;
  mp_token1 : string;
  mp_reserve0 : Z;
  mp_reserve1 : Z;
  mp_feeBps : Z
}.

(** [mockPair]: every read resolves. *)
Definition mockPair (p : MockPair) : PairClient :=
  {| getTokens := Return (mp_token0 p, mp_token1 p);
     getReserves := Return (mp_reserve0 p, mp_reserve1 p);
     getDynamicFee := Return (mp_feeBps p) |}.

(** A read on [pairMap[addr]] for an address that is not in the map. *)
Definition missingPair : PairClient :=
  {| getTokens := Throw (Error "Cannot read properties of undefined");
     getReserves := Throw (Error "Cannot read properties of undefined");
     getDynamicFee := Throw (Error "Cannot read properties of undefined") |}.

(** [pairMap[addr]]: a later pair of the same address overwrites an
    earlier one. *)
Definition pairMap (pairs : list MockPair) (addr : string) : PairClient :=
  match find (fun p => String.eqb (mp_address p) addr) (reverse pairs) with
  | Some p => mockPair p
  | None => missingPair
  end.

(** [buildMockClient]. *)
Definition buildMockClient (pairs : list MockPair) : Client :=
  {| getAllPairs := Return (mp_address <$> pairs);
     pair := pairMap pairs;
     getPairAddress a b :=
       Return (mp_address <$>
                 find (fun p =>
                         (String.eqb (mp_token0 p) a
                          && String.eqb (mp_token1 p) b)
                         || (String.eqb (mp_token0 p) b
                             && String.eqb (mp_token1 p) a)) pairs);
     defaultSlippageBps := Some 50%Z;
     getDeadline := 9999999999%Z |}.

Definition T_A : string :=
  "CAAAAAAAAAAAAAAAAAAAAAAAAAAAAAAAAAAAAAAAAAAAAAAAAAAAD2KM".
Definition T_B : string :=
  "CAAAAAAAAAAAAAAAAAAAAAAAAAAAAAAAAAAAAAAAAAAAAAAAAAAAFCT4".
Definition T_C : string :=
  "CAAAAAAAAAAAAAAAAAAAAAAAAAAAAAAAAAAAAAAAAAAAAAAAAAAAHK3M".
Definition T_D : string :=
  "CAAAAAAAAAAAAAAAAAAAAAAAAAAAAAAAAAAAAAAAAAAAAAAAAAAAITA4".
Definition T_E : string :=
  "CAAAAAAAAAAAAAAAAAAAAAAAAAAAAAAAAAAAAAAAAAAAAAAAAAAAITA5".

(** The pools of the test cases: address, tokens, reserves, fee. *)
Definition pool (address token0 token1 : string) (reserve : Z) : MockPair :=
  {| mp_address := address; mp_token0 := token0; mp_token1 := token1;
     mp_reserve0 := reserve; mp_reserve1 := reserve; mp_feeBps := 30 |}.

(** Pools A-B and B-C, no A-C pool. *)
Definition pools_two_legs : list MockPair :=
  [pool "P_AB" T_A T_B 1000000; pool "P_BC" T_B T_C 1000000].

(** Pools A-B and C-D: nothing connects A to D. *)
Definition pools_disconnected : list MockPair :=
  [pool "P_AB" T_A T_B 1000000; pool "P_CD" T_C T_D 1000000].

(** Pools A-B, B-C, C-D, D-E: A reaches E in four hops only. *)
Definition pools_four_legs : list MockPair :=
  [pool "P_AB" T_A T_B 1000000; pool "P_BC" T_B T_C 1000000;
   pool "P_CD" T_C T_D 1000000; pool "P_DE" T_D T_E 1000000].

(** A shallow direct pool A-C next to deep pools A-B and B-C. *)
Definition pools_direct_vs_two_hop : list MockPair :=
  [pool "P_AC" T_A T_C 10000; pool "P_AB" T_A T_B 1000000;
   pool "P_BC" T_B T_C 1000000].

(** A direct pool A-B alone. *)
Definition pools_direct_only : list MockPair :=
  [pool "P_AB" T_A T_B 1000000].

(** A very shallow direct pool A-D next to pools A-B, B-C and C-D. *)
Definition pools_direct_vs_three_hop : list MockPair :=
  [pool "P_AD" T_A T_D 1000; pool "P_AB" T_A T_B 100000;
   pool "P_BC" T_B T_C 100000; pool "P_CD" T_C T_D 100000].

(** The token graph [findOptimalPath] builds for a mocked client. *)
Definition tokenGraph (pairs : list MockPair) : gmap string (list string) :=
  Router.buildTokenGraph (buildMockClient pairs) (mp_address <$> pairs).

End RouterTest.

(* ===================================================================== *)
(** * Part II: properties                                                 *)
(* ===================================================================== *)

(** ** The AMM quote engine *)

Section SwapFacts.

Local Open Scope Z_scope.

Lemma bigint_div_pos (a b : Z) :
  0 <= a -> 0 < b -> bigint_div a b = Return (a / b).
Proof.
  intros Ha Hb. unfold bigint_div.
  destruct (Z.eqb_spec b 0) as [->|_]; [lia|].
  by rewrite Z.quot_div_nonneg by lia.
Qed.

(** The successful branch of [getAmountOut], with the floor division it
    performs on non-negative operands. *)
Lemma getAmountOut_value (amountIn reserveIn reserveOut feeBps : Z) :
  0 < amountIn -> 0 < reserveIn -> 0 < reserveOut ->
  0 <= feeBps <= 10000 ->
  Swap.getAmountOut amountIn reserveIn reserveOut feeBps =
  Return (amountIn * (10000 - feeBps) * reserveOut
          / (reserveIn * 10000 + amountIn * (10000 - feeBps))).
Proof.
  intros Ha Hi Ho Hf. unfold Swap.getAmountOut.
  destruct (Z.leb_spec amountIn 0); [lia|].
  destruct (Z.leb_spec reserveIn 0); [lia|].
  destruct (Z.leb_spec reserveOut 0); [lia|]. cbn [orb].
  apply bigint_div_pos; nia.
Qed.

(** C1. For positive [amountIn], [reserveIn], [reserveOut] and a fee of 0
    to 10000 basis points, [getAmountOut] returns an output, and the
    constant product does not decrease:
    [(reserveIn + amountIn) * (reserveOut - output) >= reserveIn * reserveOut].
    Amounts are unbounded integers, so this covers every 128-bit value. *)
Theorem getAmountOut_constant_product
  (amountIn reserveIn reserveOut feeBps : Z) :
  0 < amountIn -> 0 < reserveIn -> 0 < reserveOut ->
  0 <= feeBps <= 10000 ->
  exists output,
    Swap.getAmountOut amountIn reserveIn reserveOut feeBps = Return output /\
    (reserveIn + amountIn) * (reserveOut - output) >= reserveIn * reserveOut.
Proof.
  intros Ha Hi Ho Hf.
  eexists. split; [by apply getAmountOut_value|].
  set (f := 10000 - feeBps).
  set (D := reserveIn * 10000 + amountIn * f).
  set (N := amountIn * f * reserveOut).
  assert (HD : 0 < D) by (unfold D, f; nia).
  assert (Hq : D * (N / D) <= N) by (apply Z.mul_div_le; lia).
  assert (Hq0 : 0 <= N / D) by (apply Z.div_pos; unfold N, f; nia).
  (* floor(N/D) * (reserveIn + amountIn) <= amountIn * reserveOut *)
  assert (Hb : (N / D) * (reserveIn + amountIn) * 10000 <=
               amountIn * reserveOut * 10000).
  { assert (H1 : (N / D) * (reserveIn * 10000 + amountIn * 10000) * f
                 <= N * 10000) by (unfold D, f in *; nia).
    destruct (Z.eq_dec f 0) as [Hf0|Hf0].
    - assert (N = 0) by (unfold N; rewrite Hf0; lia).
      assert (N / D = 0) by (rewrite H; apply Z.div_0_l; lia).
      nia.
    - assert (0 < f) by (unfold f in *; lia).
      unfold N in H1.
      assert (H2 : (N / D) * (reserveIn * 10000 + amountIn * 10000) * f
                   <= amountIn * reserveOut * 10000 * f) by (fold N; lia).
      apply Z.mul_le_mono_pos_r in H2; lia. }
  nia.
Qed.

Lemma getAmountOut_constant_product_witness :
  exists output,
    Swap.getAmountOut 5000 10000 10000 30 = Return output /\
    (10000 + 5000) * (10000 - output) >= 10000 * 10000.
Proof.
  apply (getAmountOut_constant_product 5000 10000 10000 30); lia.
Defined.

(** C10. For positive [amountIn], [reserveIn], [reserveOut] and a fee of
    0 to 10000 basis points, the output [getAmountOut] returns is at least 0
    and strictly below [reserveOut]: one exact-in quote never drains the
    output reserve. *)
Theorem getAmountOut_below_reserve
  (amountIn reserveIn reserveOut feeBps : Z) :
  0 < amountIn -> 0 < reserveIn -> 0 < reserveOut ->
  0 <= feeBps <= 10000 ->
  exists output,
    Swap.getAmountOut amountIn reserveIn reserveOut feeBps = Return output /\
    0 <= output < reserveOut.
Proof.
  intros Ha Hi Ho Hf.
  eexists. split; [by apply getAmountOut_value|].
  split.
  - apply Z.div_pos; nia.
  - apply Z.div_lt_upper_bound; nia.
Qed.

Lemma getAmountOut_below_reserve_witness :
  exists output,
    Swap.getAmountOut 1000000 1000000000 1000000000 30 = Return output /\
    0 <= output < 1000000000.
Proof.
  apply (getAmountOut_below_reserve 1000000 1000000000 1000000000 30); lia.
Defined.

(** The successful branch of [getAmountIn]: it needs a fee factor that is
    not zero. *)
Lemma getAmountIn_value (amountOut reserveIn reserveOut feeBps : Z) :
  0 < reserveIn -> 0 < reserveOut -> 0 <= feeBps < 10000 ->
  0 < amountOut < reserveOut ->
  Swap.getAmountIn amountOut reserveIn reserveOut feeBps =
  Return (reserveIn * amountOut * 10000
          / ((reserveOut - amountOut) * (10000 - feeBps)) + 1).
Proof.
  intros Hi Ho Hf Hy. unfold Swap.getAmountIn.
  destruct (Z.leb_spec amountOut 0); [lia|].
  destruct (Z.leb_spec reserveIn 0); [lia|].
  destruct (Z.leb_spec reserveOut 0); [lia|]. cbn [orb].
  destruct (Z.geb_spec amountOut reserveOut); [lia|].
  rewrite bigint_div_pos by nia. reflexivity.
Qed.

(** With a fee of 10000 basis points the fee factor is zero and the
    division in [getAmountIn] raises: there is no input to feed back. *)
Lemma getAmountIn_full_fee (amountOut reserveIn reserveOut : Z) :
  0 < reserveIn -> 0 < reserveOut -> 0 < amountOut < reserveOut ->
  Swap.getAmountIn amountOut reserveIn reserveOut 10000 =
  Throw (RangeError "Division by zero").
Proof.
  intros Hi Ho Hy. unfold Swap.getAmountIn.
  destruct (Z.leb_spec amountOut 0); [lia|].
  destruct (Z.leb_spec reserveIn 0); [lia|].
  destruct (Z.leb_spec reserveOut 0); [lia|]. cbn [orb].
  destruct (Z.geb_spec amountOut reserveOut); [lia|].
  unfold bigint_div. replace (10000 - 10000) with 0 by lia.
  rewrite Z.mul_0_r. reflexivity.
Qed.

(** C3, as stated, fails at the upper end of the fee range: with
    [feeBps = 10000], valid reserves and a valid [amountOut], [getAmountIn]
    raises a [RangeError] instead of returning an input. *)
Lemma roundtrip_full_fee_counterexample :
  (0 < 1000 /\ 0 < 1000 /\ 0 <= 10000 <= 10000 /\ 0 < 1 < 1000) /\
  Swap.getAmountIn 1 1000 1000 10000 = Throw (RangeError "Division by zero") /\
  ~ Swap.roundtrip_holds 1 1000 1000 10000.
Proof.
  split; [lia|]. split; [reflexivity|].
  intros (x & out & Hin & _). vm_compute in Hin. discriminate.
Qed.

(** C3 (amended). For positive reserves, a fee of 0 to 9999 basis points
    and [0 < amountOut < reserveOut], [getAmountIn] returns an input, and
    [getAmountOut] on that input returns at least [amountOut]. *)
Theorem roundtrip_never_under_delivers
  (amountOut reserveIn reserveOut feeBps : Z) :
  0 < reserveIn -> 0 < reserveOut -> 0 <= feeBps < 10000 ->
  0 < amountOut < reserveOut ->
  Swap.roundtrip_holds amountOut reserveIn reserveOut feeBps.
Proof.
  intros Hi Ho Hf Hy. unfold Swap.roundtrip_holds.
  set (f := 10000 - feeBps).
  set (num := reserveIn * amountOut * 10000).
  set (den := (reserveOut - amountOut) * f).
  assert (Hden : 0 < den) by (unfold den, f; nia).
  assert (Hnum : 0 <= num) by (unfold num; nia).
  assert (Hx : num < den * (num / den + 1)).
  { apply (Z.mul_succ_div_gt num den). lia. }
  assert (Hq : 0 <= num / den) by (apply Z.div_pos; lia).
  exists (num / den + 1). eexists.
  split; [by apply getAmountIn_value|].
  split; [apply getAmountOut_value; lia|].
  apply Z.le_ge. apply Z.div_le_lower_bound.
  - fold f. nia.
  - fold f. unfold num, den in *. nia.
Qed.

Lemma roundtrip_never_under_delivers_witness :
  Swap.roundtrip_holds 1000000 1000000000 1000000000 30.
Proof.
  apply (roundtrip_never_under_delivers 1000000 1000000000 1000000000 30); lia.
Defined.

End SwapFacts.

(** ** The quote engine: order, limits and ranges *)

Section QuoteFacts.

Local Open Scope Z_scope.

(** The curve [x * reserveOut / (r + x)] every quote lies on: it grows
    with the fee-adjusted input [x]. *)
Lemma curve_monotone (x x' r reserveOut : Z) :
  0 <= x <= x' -> 0 < r -> 0 < reserveOut ->
  x * reserveOut / (r + x) <= x' * reserveOut / (r + x').
Proof.
  intros Hx Hr Ho.
  apply Z.div_le_lower_bound; [lia|].
  pose proof (Z.mul_div_le (x * reserveOut) (r + x) ltac:(lia)) as Hq.
  set (o := x * reserveOut / (r + x)) in *.
  assert (0 <= o) by (apply Z.div_pos; nia).
  assert (o <= reserveOut).
  { apply Z.div_le_upper_bound; [lia|]. nia. }
  nia.
Qed.

(** X1. A larger input never buys less. *)
Theorem getAmountOut_monotone_in_amountIn
  (amountIn amountIn' reserveIn reserveOut feeBps : Z) :
  0 < amountIn <= amountIn' -> 0 < reserveIn -> 0 < reserveOut ->
  0 <= feeBps <= 10000 ->
  exists output output',
    Swap.getAmountOut amountIn reserveIn reserveOut feeBps = Return output /\
    Swap.getAmountOut amountIn' reserveIn reserveOut feeBps
    = Return output' /\
    output <= output'.
Proof.
  intros Ha Hi Ho Hf.
  rewrite !getAmountOut_value by lia.
  do 2 eexists. split; [done|]. split; [done|].
  apply curve_monotone; nia.
Qed.

Lemma getAmountOut_monotone_in_amountIn_witness :
  exists output output',
    Swap.getAmountOut 1000 1000000 1000000 30 = Return output /\
    Swap.getAmountOut 2000 1000000 1000000 30 = Return output' /\
    output <= output'.
Proof.
  apply (getAmountOut_monotone_in_amountIn 1000 2000 1000000 1000000 30);
    lia.
Defined.

(** X2. A higher fee never buys more. *)
Theorem getAmountOut_antitone_in_feeBps
  (amountIn reserveIn reserveOut feeBps feeBps' : Z) :
  0 < amountIn -> 0 < reserveIn -> 0 < reserveOut ->
  0 <= feeBps <= feeBps' -> feeBps' <= 10000 ->
  exists output output',
    Swap.getAmountOut amountIn reserveIn reserveOut feeBps = Return output /\
    Swap.getAmountOut amountIn reserveIn reserveOut feeBps'
    = Return output' /\
    output' <= output.
Proof.
  intros Ha Hi Ho Hf Hf'.
  rewrite !getAmountOut_value by lia.
  do 2 eexists. split; [done|]. split; [done|].
  apply curve_monotone; nia.
Qed.

Lemma getAmountOut_antitone_in_feeBps_witness :
  exists output output',
    Swap.getAmountOut 1000 1000000 1000000 30 = Return output /\
    Swap.getAmountOut 1000 1000000 1000000 100 = Return output' /\
    output' <= output.
Proof.
  apply (getAmountOut_antitone_in_feeBps 1000 1000000 1000000 30 100); lia.
Defined.


(** X3. The input [getAmountIn] quotes is within one unit of the least
    that buys [amountOut]: an input two or more below it buys less. *)
Theorem getAmountIn_near_minimal
  (amountOut reserveIn reserveOut feeBps amountIn amountIn' : Z) :
  0 < reserveIn -> 0 < reserveOut -> 0 <= feeBps < 10000 ->
  0 < amountOut < reserveOut ->
  Swap.getAmountIn amountOut reserveIn reserveOut feeBps = Return amountIn ->
  0 < amountIn' <= amountIn - 2 ->
  exists output,
    Swap.getAmountOut amountIn' reserveIn reserveOut feeBps = Return output /\
    output < amountOut.
Proof.
  intros Hi Ho Hf Hy Hin Hx.
  rewrite getAmountIn_value in Hin by lia. injection Hin as <-.
  rewrite getAmountOut_value by lia.
  eexists. split; [done|].
  set (F := 10000 - feeBps) in *.
  set (N := reserveIn * amountOut * 10000) in *.
  set (D := (reserveOut - amountOut) * F) in *.
  assert (0 < D) by (unfold D, F; nia).
  pose proof (Z.mul_div_le N D ltac:(lia)) as Hq.
  apply Z.div_lt_upper_bound; [unfold F; nia|].
  assert (amountIn' * D < N) by nia.
  unfold D, N in *. nia.
Qed.

Lemma getAmountIn_near_minimal_witness :
  exists output,
    Swap.getAmountOut 1001 1000000 1000000 30 = Return output /\
    output < 1000.
Proof.
  apply (getAmountIn_near_minimal 1000 1000000 1000000 30 1005 1001);
    [lia | lia | lia | lia | reflexivity | lia].
Defined.

(** What [getAmountOut] and [getAmountIn] have checked when they
    return. *)
Lemma getAmountOut_returns (amountIn reserveIn reserveOut feeBps output : Z) :
  Swap.getAmountOut amountIn reserveIn reserveOut feeBps = Return output ->
  0 < amountIn /\ 0 < reserveIn /\ 0 < reserveOut.
Proof.
  unfold Swap.getAmountOut.
  destruct (Z.leb_spec amountIn 0); [done|].
  destruct (Z.leb_spec reserveIn 0); [done|].
  destruct (Z.leb_spec reserveOut 0); [done|]. lia.
Qed.

Lemma getAmountIn_returns (amountOut reserveIn reserveOut feeBps amountIn : Z) :
  Swap.getAmountIn amountOut reserveIn reserveOut feeBps = Return amountIn ->
  0 < amountOut < reserveOut /\ 0 < reserveIn /\ feeBps <> 10000.
Proof.
  unfold Swap.getAmountIn.
  destruct (Z.leb_spec amountOut 0); [done|].
  destruct (Z.leb_spec reserveIn 0); [done|].
  destruct (Z.leb_spec reserveOut 0); [done|]. cbn [orb].
  destruct (Z.geb_spec amountOut reserveOut); [done|].
  intros Hret. repeat split; try lia.
  intros ->. by rewrite Z.sub_diag, Z.mul_0_r in Hret.
Qed.

(** X4. For a fee of 0 to 10000 basis points, [getAmountOut] answers
    exactly when the input and both reserves are positive, and reports a
    non-positive input before a non-positive reserve; [getAmountIn]
    answers, for a fee below 10000, exactly when the output asked for is
    positive and below the output reserve and the input reserve is
    positive, quotes at least 1, and refuses as such an output of the
    whole reserve or more. *)
Theorem quote_math_rejects_invalid_inputs
  (amountIn amountOut reserveIn reserveOut feeBps : Z) :
  0 <= feeBps <= 10000 ->
  ((exists output,
       Swap.getAmountOut amountIn reserveIn reserveOut feeBps = Return output)
   <-> 0 < amountIn /\ 0 < reserveIn /\ 0 < reserveOut) /\
  (amountIn <= 0 ->
   Swap.getAmountOut amountIn reserveIn reserveOut feeBps
   = Throw (Error "Insufficient input amount")) /\
  (0 < amountIn -> reserveIn <= 0 \/ reserveOut <= 0 ->
   Swap.getAmountOut amountIn reserveIn reserveOut feeBps
   = Throw (Error "Insufficient liquidity")) /\
  (feeBps < 10000 ->
   ((exists input,
        Swap.getAmountIn amountOut reserveIn reserveOut feeBps = Return input)
    <-> 0 < amountOut < reserveOut /\ 0 < reserveIn)) /\
  (forall input,
     Swap.getAmountIn amountOut reserveIn reserveOut feeBps = Return input ->
     1 <= input) /\
  (0 < amountOut -> 0 < reserveIn -> 0 < reserveOut ->
   reserveOut <= amountOut ->
   Swap.getAmountIn amountOut reserveIn reserveOut feeBps
   = Throw (Error "Insufficient reserve for output")).
Proof.
  intros Hf.
  assert (Hquoted : 0 < amountOut < reserveOut -> 0 < reserveIn ->
                    feeBps <> 10000 ->
                    exists input,
                      Swap.getAmountIn amountOut reserveIn reserveOut feeBps
                      = Return input /\ 1 <= input).
  { intros Hy Hi Hne. rewrite getAmountIn_value by lia.
    eexists. split; [done|].
    assert (0 <= reserveIn * amountOut * 10000
                 / ((reserveOut - amountOut) * (10000 - feeBps)))
      by (apply Z.div_pos; nia).
    lia. }
  split; [|split; [|split; [|split; [|split]]]].
  - split.
    + intros [output H]. by apply getAmountOut_returns in H.
    + intros (Ha & Hi & Ho). rewrite getAmountOut_value by lia. eauto.
  - intros H. unfold Swap.getAmountOut.
    by destruct (Z.leb_spec amountIn 0); [|lia].
  - intros H H'. unfold Swap.getAmountOut.
    destruct (Z.leb_spec amountIn 0); [lia|].
    destruct (Z.leb_spec reserveIn 0); [done|].
    by destruct (Z.leb_spec reserveOut 0); [|lia].
  - intros Hlt. split.
    + intros [input H]. apply getAmountIn_returns in H. tauto.
    + intros [Hy Hi].
      destruct (Hquoted Hy Hi ltac:(lia)) as (input & H & _). eauto.
  - intros input H.
    destruct (getAmountIn_returns _ _ _ _ _ H) as (Hy & Hi & Hne).
    destruct (Hquoted Hy Hi Hne) as (input' & H' & ?). congruence.
  - intros Hy Hi Ho Hge. unfold Swap.getAmountIn.
    destruct (Z.leb_spec amountOut 0); [lia|].
    destruct (Z.leb_spec reserveIn 0); [lia|].
    destruct (Z.leb_spec reserveOut 0); [lia|]. cbn [orb].
    by destruct (Z.geb_spec amountOut reserveOut); [|lia].
Qed.

Lemma quote_math_rejects_invalid_inputs_witness :
  Swap.getAmountOut 0 0 1000 30 = Throw (Error "Insufficient input amount") /\
  Swap.getAmountIn 1000 1000 1000 30
  = Throw (Error "Insufficient reserve for output").
Proof.
  split.
  - apply (quote_math_rejects_invalid_inputs 0 1 0 1000 30); lia.
  - apply (quote_math_rejects_invalid_inputs 1 1000 1000 1000 30); lia.
Defined.

(** What a quote [getQuote] returned was computed from: the reserves of
    the pool, oriented by the input token, and the pool's fee. *)
Lemma getQuote_inversion client request q :
  Swap.getQuote client request = Return q ->
  exists reserveIn reserveOut,
    match req_tradeType request with
    | EXACT_IN =>
        amountIn q = req_amount request /\
        Swap.getAmountOut (amountIn q) reserveIn reserveOut (feeBps q)
        = Return (amountOut q)
    | EXACT_OUT =>
        amountOut q = req_amount request /\
        Swap.getAmountIn (amountOut q) reserveIn reserveOut (feeBps q)
        = Return (amountIn q)
    end /\
    amountOutMin q
    = amountOut q
      - Z.quot (amountOut q
                * default (default DEFAULTS_slippageBps
                                   (defaultSlippageBps client))
                          (req_slippageBps request))
               BPS_DENOMINATOR /\
    priceImpactBps q
    = Swap.calculatePriceImpact (amountIn q) (amountOut q) reserveIn
                                reserveOut /\
    feeAmount q = Z.quot (amountIn q * feeBps q) BPS_DENOMINATOR /\
    tokenIn q = req_tokenIn request /\ tokenOut q = req_tokenOut request /\
    path q = [req_tokenIn request; req_tokenOut request] /\
    deadline q = default (getDeadline client) (req_deadline request).
Proof.
  unfold Swap.getQuote.
  destruct (getPairAddress client _ _) as [pairAddress|]; [|done].
  cbn [mbind outcome_bind].
  destruct (Swap.falsy_address pairAddress); [done|].
  destruct (getReserves _) as [[reserve0 reserve1]|]; [|done].
  cbn [mbind outcome_bind].
  destruct (getDynamicFee _) as [dynamicFee|]; [|done].
  cbn [mbind outcome_bind].
  destruct (getTokens _) as [tokens|]; [|done].
  cbn [mbind outcome_bind].
  set (reserveIn := if String.eqb (tokens.1) (req_tokenIn request)
                    then reserve0 else reserve1).
  set (reserveOut := if String.eqb (tokens.1) (req_tokenIn request)
                     then reserve1 else reserve0).
  destruct (req_tradeType request).
  - destruct (Swap.getAmountOut _ _ _ _) as [out|] eqn:Hout; [|done].
    cbn [mbind outcome_bind mret outcome_ret].
    intros [= <-]. exists reserveIn, reserveOut. by cbn.
  - destruct (Swap.getAmountIn _ _ _ _) as [inp|] eqn:Hin; [|done].
    cbn [mbind outcome_bind mret outcome_ret].
    intros [= <-]. exists reserveIn, reserveOut. by cbn.
Qed.

(** The two amounts of a returned quote, on the pool's curve. *)
Lemma getQuote_amounts client request q :
  Swap.getQuote client request = Return q ->
  0 <= feeBps q <= 10000 ->
  exists reserveIn reserveOut,
    0 < reserveIn /\ 0 < reserveOut /\ 0 < amountIn q /\
    0 <= amountOut q /\
    amountOut q * reserveIn <= amountIn q * reserveOut /\
    priceImpactBps q
    = Swap.calculatePriceImpact (amountIn q) (amountOut q) reserveIn
                                reserveOut.
Proof.
  intros H Hf.
  destruct (getQuote_inversion _ _ _ H)
    as (reserveIn & reserveOut & Hamounts & _ & Himpact & _).
  exists reserveIn, reserveOut.
  destruct (req_tradeType request).
  - destruct Hamounts as [_ Hout].
    destruct (getAmountOut_returns _ _ _ _ _ Hout) as (Ha & Hi & Ho).
    rewrite getAmountOut_value in Hout by lia. injection Hout as Hout.
    set (x := amountIn q * (10000 - feeBps q)) in *.
    assert (0 <= x <= amountIn q * 10000) by (unfold x; nia).
    assert (0 <= amountOut q) by (rewrite <- Hout; apply Z.div_pos; nia).
    pose proof (Z.mul_div_le (x * reserveOut) (reserveIn * 10000 + x)
                  ltac:(lia)) as Hq.
    rewrite Hout in Hq.
    repeat split; try done. nia.
  - destruct Hamounts as [_ Hin].
    destruct (getAmountIn_returns _ _ _ _ _ Hin) as (Hy & Hi & Hne).
    rewrite getAmountIn_value in Hin by lia. injection Hin as Hin.
    set (F := 10000 - feeBps q) in *.
    set (N := reserveIn * amountOut q * 10000) in *.
    set (D := (reserveOut - amountOut q) * F) in *.
    assert (0 < D) by (unfold D, F; nia).
    assert (0 <= N / D) by (apply Z.div_pos; unfold N; nia).
    assert (N < amountIn q * D).
    { rewrite <- Hin.
      pose proof (Z.mod_pos_bound N D ltac:(lia)).
      pose proof (Z.div_mod N D ltac:(lia)). nia. }
    repeat split; try done; try lia.
    unfold N, D, F in *. nia.
Qed.

(** An output at or below the spot price has a price impact of 0 to
    10000 basis points. *)
Lemma calculatePriceImpact_range (amountIn amountOut reserveIn reserveOut : Z) :
  0 < reserveIn -> 0 < reserveOut -> 0 < amountIn -> 0 <= amountOut ->
  amountOut * reserveIn <= amountIn * reserveOut ->
  0 <= Swap.calculatePriceImpact amountIn amountOut reserveIn reserveOut
    <= 10000.
Proof.
  intros Hi Ho Ha Hy Hcurve. unfold Swap.calculatePriceImpact.
  destruct (Z.eqb_spec reserveIn 0); [lia|].
  destruct (Z.eqb_spec reserveOut 0); [lia|]. cbn [orb].
  rewrite (Z.quot_div_nonneg (amountIn * reserveOut)) by nia.
  set (idealOut := amountIn * reserveOut / reserveIn).
  assert (amountOut <= idealOut) by (apply Z.div_le_lower_bound; lia).
  destruct (Z.eqb_spec idealOut 0); [lia|].
  rewrite Z.quot_div_nonneg by nia. split.
  - apply Z.div_pos; nia.
  - apply Z.div_le_upper_bound; nia.
Qed.

(** X5. Whatever [getQuote] returns for a pool fee of 0 to 10000 basis
    points, exact-in or exact-out, has a positive input, an output that is
    not negative, a price impact between 0 and 10000 basis points, and a
    fee amount between 0 and the input. *)
Theorem getQuote_fields_in_range client request q :
  Swap.getQuote client request = Return q ->
  0 <= feeBps q <= 10000 ->
  0 < amountIn q /\ 0 <= amountOut q /\
  0 <= priceImpactBps q <= 10000 /\
  0 <= feeAmount q <= amountIn q /\
  path q = [req_tokenIn request; req_tokenOut request].
Proof.
  intros H Hf.
  destruct (getQuote_amounts _ _ _ H Hf)
    as (reserveIn & reserveOut & Hi & Ho & Ha & Hy & Hcurve & ->).
  destruct (getQuote_inversion _ _ _ H)
    as (_ & _ & _ & _ & _ & -> & _ & _ & -> & _).
  pose proof (calculatePriceImpact_range _ _ _ _ Hi Ho Ha Hy Hcurve).
  unfold BPS_DENOMINATOR. rewrite Z.quot_div_nonneg by nia.
  assert (0 <= amountIn q * feeBps q / 10000) by (apply Z.div_pos; nia).
  assert (amountIn q * feeBps q / 10000 <= amountIn q)
    by (apply Z.div_le_upper_bound; nia).
  repeat split; try done; lia.
Qed.

Lemma getQuote_fields_in_range_witness :
  exists q,
    Swap.getQuote
      (RouterTest.buildMockClient RouterTest.pools_direct_only)
      {| req_tokenIn := RouterTest.T_A; req_tokenOut := RouterTest.T_B;
         req_amount := 1000; req_tradeType := EXACT_OUT;
         req_path := None; req_slippageBps := None;
         req_deadline := None |}
    = Return q /\
    0 <= priceImpactBps q <= 10000.
Proof.
  eexists. split; [vm_compute; reflexivity|].
  eapply (getQuote_fields_in_range
            (RouterTest.buildMockClient RouterTest.pools_direct_only)
            {| req_tokenIn := RouterTest.T_A; req_tokenOut := RouterTest.T_B;
               req_amount := 1000; req_tradeType := EXACT_OUT;
               req_path := None; req_slippageBps := None;
               req_deadline := None |});
    [vm_compute; reflexivity | vm_compute; split; discriminate].
Defined.

(** X6. For a pool fee of 0 to 10000 basis points and a slippage
    tolerance of 0 to 10000 basis points (the request's, else the
    client's default, else 50), the minimum output of a returned quote
    lies between 0 and the quoted output, and gives up no more than the
    tolerance: [amountOutMin * 10000 >= amountOut * (10000 -
    slippageBps)]. [getQuote] takes the fee as the pool reports it, and
    outside that range the quoted output can be negative. *)
Theorem getQuote_amountOutMin_within_tolerance client request q slippageBps :
  Swap.getQuote client request = Return q ->
  0 <= feeBps q <= 10000 ->
  slippageBps
  = default (default DEFAULTS_slippageBps (defaultSlippageBps client))
            (req_slippageBps request) ->
  0 <= slippageBps <= 10000 ->
  0 <= amountOutMin q <= amountOut q /\
  amountOut q * (10000 - slippageBps) <= amountOutMin q * 10000.
Proof.
  intros H Hf -> Hs.
  destruct (getQuote_amounts _ _ _ H Hf)
    as (_ & _ & _ & _ & _ & Hy & _ & _).
  destruct (getQuote_inversion _ _ _ H) as (_ & _ & _ & -> & _).
  set (s := default _ _) in *. unfold BPS_DENOMINATOR.
  rewrite Z.quot_div_nonneg by nia.
  pose proof (Z.mul_div_le (amountOut q * s) 10000 ltac:(lia)).
  assert (0 <= amountOut q * s / 10000) by (apply Z.div_pos; nia).
  assert (amountOut q * s / 10000 <= amountOut q)
    by (apply Z.div_le_upper_bound; nia).
  lia.
Qed.

Lemma getQuote_amountOutMin_within_tolerance_witness :
  exists q,
    Swap.getQuote
      (RouterTest.buildMockClient RouterTest.pools_direct_only)
      {| req_tokenIn := RouterTest.T_A; req_tokenOut := RouterTest.T_B;
         req_amount := 1000; req_tradeType := EXACT_IN;
         req_path := None; req_slippageBps := Some 100;
         req_deadline := None |}
    = Return q /\
    0 <= amountOutMin q <= amountOut q.
Proof.
  eexists. split; [vm_compute; reflexivity|].
  eapply (getQuote_amountOutMin_within_tolerance
            (RouterTest.buildMockClient RouterTest.pools_direct_only)
            {| req_tokenIn := RouterTest.T_A; req_tokenOut := RouterTest.T_B;
               req_amount := 1000; req_tradeType := EXACT_IN;
               req_path := None; req_slippageBps := Some 100;
               req_deadline := None |} _ 100);
    [vm_compute; reflexivity | vm_compute; split; discriminate
    | reflexivity | lia].
Defined.

End QuoteFacts.

(** ** Path finding *)

Section RouterFacts.

Import Router.

Lemma completes_children end_ graph maxHops e p :
  Queue.current e <> end_ -> length (Queue.path e) <= maxHops ->
  completes end_ graph maxHops e p <->
  exists c, c ∈ children graph e /\ completes end_ graph maxHops c p.
Proof.
  intros Hne Hlen. split.
  - intros H. inversion H as [e' Hc _|e' n p' _ _ Hn Hfresh Hrec]; subst.
    + done.
    + eexists. split; [|exact Hrec].
      unfold children. apply list_elem_of_fmap. exists n. split; [done|].
      apply list_elem_of_filter. done.
  - intros (c & Hc & Hrec). unfold children in Hc.
    apply list_elem_of_fmap in Hc as (n & -> & Hn).
    apply list_elem_of_filter in Hn as [Hfresh Hn].
    eapply completes_later; eauto.
Qed.

(** The loop returns what was already accepted, followed by exactly the
    paths its queue entries still complete. *)
Lemma findAllPaths_loop_spec end_ graph maxHops queue paths p :
  p ∈ findAllPaths_loop end_ graph maxHops queue paths <->
  p ∈ paths \/ exists e, e ∈ queue /\ completes end_ graph maxHops e p.
Proof.
  funelim (findAllPaths_loop end_ graph maxHops queue paths).
  - split; [by left|]. intros [H|(e & He & _)]; [done|].
    by apply elem_of_nil in He.
  - rewrite H, elem_of_app, list_elem_of_singleton. clear H Heqcall.
    split.
    + intros [[Hp| ->]|(e' & He' & Hc)].
      * by left.
      * right. exists e. split; [left|]. by apply completes_here.
      * right. exists e'. split; [by right|done].
    + intros [Hp|(e' & He' & Hc)]; [by left; left|].
      apply elem_of_cons in He' as [->|He'].
      * left. right. inversion Hc; subst; [done|contradiction].
      * right. eauto.
  - rewrite H. clear H Heqcall. split.
    + intros [Hp|(e' & He' & Hc)]; [by left|].
      right. exists e'. split; [by right|done].
    + intros [Hp|(e' & He' & Hc)]; [by left|].
      apply elem_of_cons in He' as [->|He']; [|right; eauto].
      inversion Hc; subst; [lia|contradiction].
  - rewrite H. clear H Heqcall. split.
    + intros [Hp|(e' & He' & Hc)]; [by left|].
      right. exists e'. split; [by right|done].
    + intros [Hp|(e' & He' & Hc)]; [by left|].
      apply elem_of_cons in He' as [->|He']; [|right; eauto].
      inversion Hc; subst; [contradiction|lia].
  - rewrite H. clear H Heqcall. split.
    + intros [Hp|(e' & He' & Hc)]; [by left|].
      right. apply elem_of_app in He' as [He'|He'].
      * exists e'. split; [by right|done].
      * exists e. split; [left|].
        apply completes_children; [done|lia|eauto].
    + intros [Hp|(e' & He' & Hc)]; [by left|].
      right. apply elem_of_cons in He' as [->|He'].
      * apply completes_children in Hc as (c & Hin & Hc); [|done|lia].
        exists c. split; [|done]. apply elem_of_app. by right.
      * exists e'. split; [|done]. apply elem_of_app. by left.
Qed.

Lemma is_walk_middle graph l a b r :
  is_walk graph (l ++ a :: b :: r) <->
  is_walk graph (l ++ [a]) /\ adjacent graph a b /\ is_walk graph (b :: r).
Proof.
  induction l as [|x l IH].
  - simpl. tauto.
  - destruct l as [|y l]; simpl in *; tauto.
Qed.

(** An entry of the queue carries a duplicate-free walk that ends at its
    current token; whatever it completes extends that walk to a simple
    path within the hop limit. *)
Lemma completes_sound end_ graph maxHops e p :
  completes end_ graph maxHops e p ->
  last (Queue.path e) = Some (Queue.current e) ->
  NoDup (Queue.path e) -> is_walk graph (Queue.path e) ->
  length (Queue.path e) <= S maxHops ->
  exists suffix,
    p = Queue.path e ++ suffix /\ last p = Some end_ /\ NoDup p /\
    is_walk graph p /\ 2 <= length p <= S maxHops.
Proof.
  induction 1 as [e Hend Hlen|e n p Hne Hlen Hn Hfresh Hrec IH];
    intros Hlast Hnd Hwalk Hbound.
  - exists []. rewrite app_nil_r. subst end_. repeat split; auto; lia.
  - destruct IH as (suffix & -> & Hl & Hnd' & Hw & Hb);
      cbn [Queue.current Queue.path].
    + apply last_snoc.
    + apply NoDup_app. repeat split; [done| |apply NoDup_singleton].
      intros x Hx ->%list_elem_of_singleton. done.
    + apply last_Some in Hlast as [pre Hpre]. rewrite Hpre in *.
      rewrite <- app_assoc. apply is_walk_middle. simpl. done.
    + rewrite length_app. simpl. lia.
    + exists (n :: suffix). cbn [Queue.path] in *.
      rewrite <- app_assoc in *. done.
Qed.

Lemma completes_complete end_ graph maxHops suffix :
  forall e,
    last (Queue.path e) = Some (Queue.current e) ->
    last (Queue.path e ++ suffix) = Some end_ ->
    NoDup (Queue.path e ++ suffix) -> is_walk graph (Queue.path e ++ suffix) ->
    2 <= length (Queue.path e ++ suffix) <= S maxHops ->
    completes end_ graph maxHops e (Queue.path e ++ suffix).
Proof.
  induction suffix as [|n suffix IH]; intros e Hlast Hend Hnd Hwalk Hlen.
  - rewrite app_nil_r in *. apply completes_here; [congruence|lia].
  - apply NoDup_app in Hnd as Hsplit. destruct Hsplit as (_ & Hdisj & _).
    rewrite length_app in Hlen. simpl in Hlen.
    apply last_Some in Hlast as Hpre. destruct Hpre as [pre Hpre].
    apply completes_later with n.
    + intros Hcur. apply (Hdisj end_).
      * rewrite Hpre, <- Hcur. apply elem_of_app. right. by left.
      * rewrite last_app_cons in Hend. by apply last_Some_elem_of.
    + lia.
    + rewrite Hpre, <- app_assoc in Hwalk. simpl in Hwalk.
      apply is_walk_middle in Hwalk. apply Hwalk.
    + intros Hin. apply (Hdisj n Hin). by left.
    + specialize (IH {| Queue.current := n;
                        Queue.path := Queue.path e ++ [n] |}).
      cbn [Queue.path Queue.current] in IH.
      rewrite <- app_assoc in IH. simpl in IH.
      apply IH; auto.
      * apply last_snoc.
      * rewrite length_app. simpl. lia.
Qed.

(** [findAllPaths] returns exactly the simple paths from [start] to
    [end_] of at most [maxHops] hops. *)
Lemma findAllPaths_spec start end_ graph maxHops p :
  p ∈ findAllPaths start end_ graph maxHops <->
  simple_path graph start end_ maxHops p.
Proof.
  unfold findAllPaths. rewrite findAllPaths_loop_spec. split.
  - intros [H|(e & ->%list_elem_of_singleton & Hc)];
      [by apply elem_of_nil in H|].
    apply completes_sound in Hc as (suffix & -> & Hl & Hnd & Hw & Hb);
      cbn [Queue.path Queue.current];
      [|done|apply NoDup_singleton|done|simpl; lia].
    cbn [Queue.path Queue.current] in *. unfold simple_path. tauto.
  - intros (Hhead & Hlast & Hnd & Hw & Hb). right.
    apply head_Some in Hhead as [suffix ->].
    eexists. split; [by apply list_elem_of_singleton|].
    apply (completes_complete end_ graph maxHops suffix
             {| Queue.current := start; Queue.path := [start] |}); done.
Qed.

(** *** No path is returned twice *)

Lemma antichain_perm items items' :
  items ≡ₚ items' -> antichain items -> antichain items'.
Proof.
  intros Hperm [Hnd Hanti]. split; [by rewrite <- Hperm|].
  intros x y Hx Hy. rewrite <- Hperm in Hx, Hy. by apply Hanti.
Qed.

Lemma antichain_tail item items : antichain (item :: items) -> antichain items.
Proof.
  intros [Hnd Hanti]. apply NoDup_cons in Hnd as [_ Hnd]. split; [done|].
  intros x y Hx Hy. apply Hanti; by right.
Qed.

Lemma prefix_snoc_cases (x l : list string) n :
  x `prefix_of` l ++ [n] -> x = l ++ [n] \/ x `prefix_of` l.
Proof.
  intros [k Hk]. destruct k as [|z k _] using rev_ind.
  - left. by rewrite app_nil_r in Hk.
  - right. rewrite app_assoc in Hk. apply app_inj_tail in Hk as [-> _].
    by exists k.
Qed.

Lemma antichain_expand item items (ns : list string) :
  NoDup ns -> antichain (item :: items) ->
  antichain (items ++ ((fun n => item ++ [n]) <$> ns)).
Proof.
  intros Hns [Hnd Hanti]. apply NoDup_cons in Hnd as [Hfresh Hnd].
  assert (Hchild : forall n, item ++ [n] ∉ items).
  { intros n Hin. apply Hfresh.
    rewrite (Hanti item (item ++ [n])); [done|by left|by right|].
    by exists [n]. }
  split.
  - apply NoDup_app. split; [done|]. split.
    + intros x Hx (n & -> & _)%list_elem_of_fmap. by apply (Hchild n).
    + apply NoDup_fmap_2; [|done]. intros n m H.
      apply app_inv_head in H. by injection H.
  - intros x y [Hx|(n & -> & Hn)%list_elem_of_fmap]%elem_of_app
               [Hy|(m & -> & Hm)%list_elem_of_fmap]%elem_of_app Hpre.
    + apply Hanti; [by right|by right|done].
    + apply prefix_snoc_cases in Hpre as [->|Hpre];
        [by destruct (Hchild m)|].
      exfalso. apply Hfresh.
      rewrite <- (Hanti x item); [done|by right|by left|done].
    + exfalso.
      assert (item = y) as <-.
      { apply Hanti; [by left|by right|]. by eapply prefix_app_l. }
      by apply (prefix_snoc_not item n).
    + apply prefix_length_eq in Hpre; [done|].
      rewrite !length_app. simpl. lia.
Qed.

Lemma findAllPaths_loop_NoDup end_ graph maxHops queue paths :
  (forall a, NoDup (neighbors graph a)) ->
  antichain ((Queue.path <$> queue) ++ paths) ->
  NoDup (findAllPaths_loop end_ graph maxHops queue paths).
Proof.
  funelim (findAllPaths_loop end_ graph maxHops queue paths);
    intros Hgraph Hanti.
  - apply Hanti.
  - apply H; [done|]. eapply antichain_perm; [|exact Hanti].
    rewrite fmap_cons. cbn [app]. rewrite app_assoc.
    apply Permutation_cons_append.
  - apply H; [done|]. rewrite fmap_cons in Hanti.
    exact (antichain_tail _ _ Hanti).
  - apply H; [done|]. rewrite fmap_cons in Hanti.
    exact (antichain_tail _ _ Hanti).
  - apply H; [done|]. rewrite fmap_cons in Hanti. cbn [app] in Hanti.
    apply (antichain_expand _ _
             (filter (fun n => n ∉ Queue.path e)
                     (neighbors graph (Queue.current e)))) in Hanti;
      [|by apply NoDup_filter].
    eapply antichain_perm; [|exact Hanti].
    rewrite fmap_app. unfold children. rewrite <- list_fmap_compose.
    rewrite <- !app_assoc. apply Permutation_app_head, Permutation_app_comm.
Qed.

Lemma findAllPaths_NoDup start end_ graph maxHops :
  (forall a, NoDup (neighbors graph a)) ->
  NoDup (findAllPaths start end_ graph maxHops).
Proof.
  intros Hgraph. apply findAllPaths_loop_NoDup; [done|].
  split; [apply NoDup_singleton|].
  by intros x y ->%list_elem_of_singleton ->%list_elem_of_singleton.
Qed.

(** The adjacency lists [buildTokenGraph] builds repeat no token. *)
Lemma ensureKey_NoDup graph token :
  (forall a, NoDup (neighbors graph a)) ->
  forall a, NoDup (neighbors (ensureKey graph token) a).
Proof.
  intros Hgraph a. unfold ensureKey.
  destruct (graph !! token) eqn:Hlook; [done|].
  unfold neighbors. rewrite lookup_insert. case_decide; [constructor|].
  apply Hgraph.
Qed.

Lemma pushNeighbor_NoDup graph a b :
  (forall x, NoDup (neighbors graph x)) ->
  forall x, NoDup (neighbors (pushNeighbor graph a b) x).
Proof.
  intros Hgraph x. unfold pushNeighbor. case_decide as Hin; [done|].
  unfold neighbors at 1. rewrite lookup_insert. case_decide; [|apply Hgraph].
  cbn. apply NoDup_app. split; [done|]. split; [|apply NoDup_singleton].
  by intros y Hy ->%list_elem_of_singleton.
Qed.

Lemma buildTokenGraph_NoDup client pairAddresses a :
  NoDup (neighbors (buildTokenGraph client pairAddresses) a).
Proof.
  unfold buildTokenGraph, graphOfTokenPairs.
  generalize ((fun addr =>
                 match getTokens (pair client addr) with
                 | Return tokens => Some tokens
                 | Throw _ => None
                 end) <$> pairAddresses).
  intros tokenPairs. revert a.
  assert (Hempty : forall a,
             NoDup (neighbors (∅ : gmap string (list string)) a)).
  { intros a. unfold neighbors. rewrite lookup_empty. constructor. }
  revert Hempty. generalize (∅ : gmap string (list string)).
  induction tokenPairs as [|tokens tokenPairs IH]; intros graph Hgraph;
    [done|].
  cbn [foldl]. apply IH. destruct tokens as [[token0 token1]|]; [|done].
  cbn [addTokens].
  by do 2 apply pushNeighbor_NoDup; do 2 apply ensureKey_NoDup.
Qed.

(** C7. [findAllPaths] enumerates exactly the simple paths (no repeated
    token) from source to destination within the hop limit, each once when
    no adjacency list repeats a token, as in the graphs [buildTokenGraph]
    builds. With pools A-B and B-C and no A-C pool, [findAllPaths A C 3]
    is [[A;B;C]]; with no connecting pools (an empty graph, or pools A-B
    and C-D for the pair A, D) it is empty; a pair joined only by a
    four-hop route yields no path at [maxHops = 3] (and its route at
    [maxHops = 4]). *)
Theorem findAllPaths_enumerates_simple_paths :
  (forall start end_ graph maxHops p,
     p ∈ findAllPaths start end_ graph maxHops <->
     simple_path graph start end_ maxHops p) /\
  (forall start end_ graph maxHops,
     (forall a, NoDup (neighbors graph a)) ->
     NoDup (findAllPaths start end_ graph maxHops)) /\
  (forall client pairAddresses a,
     NoDup (neighbors (buildTokenGraph client pairAddresses) a)) /\
  findAllPaths RouterTest.T_A RouterTest.T_C
    (RouterTest.tokenGraph RouterTest.pools_two_legs) 3
  = [[RouterTest.T_A; RouterTest.T_B; RouterTest.T_C]] /\
  (forall start end_ maxHops, findAllPaths start end_ ∅ maxHops = []) /\
  findAllPaths RouterTest.T_A RouterTest.T_D
    (RouterTest.tokenGraph RouterTest.pools_disconnected) 3 = [] /\
  findAllPaths RouterTest.T_A RouterTest.T_E
    (RouterTest.tokenGraph RouterTest.pools_four_legs) 3 = [] /\
  findAllPaths RouterTest.T_A RouterTest.T_E
    (RouterTest.tokenGraph RouterTest.pools_four_legs) 4
  = [[RouterTest.T_A; RouterTest.T_B; RouterTest.T_C; RouterTest.T_D;
      RouterTest.T_E]].
Proof.
  split; [apply findAllPaths_spec|].
  split; [apply findAllPaths_NoDup|].
  split; [apply buildTokenGraph_NoDup|].
  split; [by vm_compute|].
  split.
  { intros start end_ maxHops.
    apply elem_of_nil_inv. intros p Hp.
    apply findAllPaths_spec in Hp as (Hh & Hl & Hnd & Hw & Hb).
    destruct p as [|a [|b r]]; simpl in *; try lia.
    destruct Hw as [Hadj _]. unfold adjacent, neighbors in Hadj.
    rewrite lookup_empty in Hadj. by apply elem_of_nil in Hadj. }
  repeat split; by vm_compute.
Qed.

(** ** Route selection *)

Lemma selectStep_is_best client amount tradeType seen best p :
  is_best (quotePath client amount tradeType) seen best ->
  is_best (quotePath client amount tradeType) (seen ++ [p])
          (selectStep client amount tradeType best p).
Proof.
  intros Hinv. unfold selectStep.
  destruct (quotePath client amount tradeType p) as [q|err] eqn:Hq.
  - destruct best as [b|]; cbn [is_best] in *.
    + destruct Hinv as (Hin & Hown & Hmax).
      destruct (Z.gtb_spec (amountOut q) (amountOut (quote b))) as [Hgt|Hle];
        cbn [is_best path quote].
      * split; [apply elem_of_app; right; by left|]. split; [done|].
        intros p' q' [Hp'| ->%list_elem_of_singleton]%elem_of_app Hq'.
        -- specialize (Hmax p' q' Hp' Hq'). lia.
        -- rewrite Hq in Hq'. injection Hq' as ->. lia.
      * split; [apply elem_of_app; by left|]. split; [done|].
        intros p' q' [Hp'| ->%list_elem_of_singleton]%elem_of_app Hq'.
        -- by apply (Hmax p' q').
        -- rewrite Hq in Hq'. by injection Hq' as ->.
    + cbn [path quote]. split; [apply elem_of_app; right; by left|].
      split; [done|].
      intros p' q' [Hp'| ->%list_elem_of_singleton]%elem_of_app Hq'.
      * destruct (Hinv p' Hp') as [err Herr]. congruence.
      * rewrite Hq in Hq'. injection Hq' as ->. lia.
  - destruct best as [b|]; cbn [is_best] in *.
    + destruct Hinv as (Hin & Hown & Hmax).
      split; [apply elem_of_app; by left|]. split; [done|].
      intros p' q' [Hp'| ->%list_elem_of_singleton]%elem_of_app Hq'.
      * by apply (Hmax p' q').
      * congruence.
    + intros p' [Hp'| ->%list_elem_of_singleton]%elem_of_app; eauto.
Qed.

Lemma select_is_best client amount tradeType paths :
  forall seen best,
    is_best (quotePath client amount tradeType) seen best ->
    is_best (quotePath client amount tradeType) (seen ++ paths)
            (foldl (selectStep client amount tradeType) best paths).
Proof.
  induction paths as [|p paths IH]; intros seen best Hinv.
  - by rewrite app_nil_r.
  - cbn [foldl]. rewrite (cons_middle p seen paths), app_assoc.
    apply IH. by apply selectStep_is_best.
Qed.

(** Only a path of two tokens gets a quote, and it is [getQuote]'s. *)
Lemma quotePath_returns client amount tradeType p q :
  quotePath client amount tradeType p = Return q ->
  exists path0 path1,
    p = [path0; path1] /\
    Swap.getQuote client
      {| req_tokenIn := path0; req_tokenOut := path1;
         req_amount := amount; req_tradeType := tradeType;
         req_path := Some [path0; path1];
         req_slippageBps := None; req_deadline := None |}
    = Return q.
Proof.
  unfold quotePath. destruct p as [|path0 [|path1 [|path2 rest]]]; try done.
  intros H. by exists path0, path1.
Qed.

(** The candidate of two tokens is the direct path. *)
Lemma findAllPaths_direct start end_ graph maxHops path0 path1 :
  [path0; path1] ∈ findAllPaths start end_ graph maxHops ->
  path0 = start /\ path1 = end_.
Proof.
  intros (Hhead & Hlast & _)%findAllPaths_spec.
  cbn in Hhead, Hlast. by injection Hhead as ->; injection Hlast as ->.
Qed.

(** The other cases of tests/router-pathfinding.test.ts, as the code
    answers them: the direct path when it is the only one; the direct
    path over the very shallow pool A-D where the test expects the route
    A-B-C-D; no result when no path exists or the only route has four
    hops; and the refusal of exact-output requests. *)
Lemma findOptimalPath_test_cases :
  (exists best,
     findOptimalPath
       (RouterTest.buildMockClient RouterTest.pools_direct_only)
       RouterTest.T_A RouterTest.T_B 1000 EXACT_IN = Return (Some best) /\
     path best = [RouterTest.T_A; RouterTest.T_B] /\
     (0 < amountOut (quote best))%Z) /\
  (exists best,
     findOptimalPath
       (RouterTest.buildMockClient RouterTest.pools_direct_vs_three_hop)
       RouterTest.T_A RouterTest.T_D 500 EXACT_IN = Return (Some best) /\
     path best = [RouterTest.T_A; RouterTest.T_D]) /\
  findOptimalPath
    (RouterTest.buildMockClient RouterTest.pools_disconnected)
    RouterTest.T_A RouterTest.T_D 1000 EXACT_IN = Return None /\
  findOptimalPath
    (RouterTest.buildMockClient RouterTest.pools_four_legs)
    RouterTest.T_A RouterTest.T_E 1000 EXACT_IN = Return None /\
  findOptimalPath
    (RouterTest.buildMockClient RouterTest.pools_direct_only)
    RouterTest.T_A RouterTest.T_B 1000 EXACT_OUT
  = Throw (ValidationError
             "Only EXACT_IN is currently supported for pathfinding").
Proof.
  split; [eexists; split; [by vm_compute|split; by vm_compute]|].
  split; [eexists; split; by vm_compute|].
  repeat split; by vm_compute.
Qed.

(** C2. The claim's example on the code: an input of 5,000, a direct pool
    A-C of reserves 10,000/10,000 at 30 bps and pools A-B and B-C of
    reserves 1,000,000/1,000,000 at 30 bps. The path finder lists both
    the direct path and the two-hop path, but the quote of the two-hop
    path is a call of [getMultiHopQuote], which [SwapModule] does not
    have: it throws, the path is skipped, and the selector returns the
    direct path with an output of 3,326. Chaining [getQuote] over the two
    deep pools, each hop's output the next hop's input, gives 4,960 and
    then 4,920: the route the claim (and the repository's test) expects
    to win. *)
Theorem findOptimalPath_skips_multi_hop_routes :
  findAllPaths RouterTest.T_A RouterTest.T_C
    (RouterTest.tokenGraph RouterTest.pools_direct_vs_two_hop) 3
  = [[RouterTest.T_A; RouterTest.T_C];
     [RouterTest.T_A; RouterTest.T_B; RouterTest.T_C]] /\
  quotePath (RouterTest.buildMockClient RouterTest.pools_direct_vs_two_hop)
    5000 EXACT_IN [RouterTest.T_A; RouterTest.T_B; RouterTest.T_C]
  = Throw (TypeError "swapModule.getMultiHopQuote is not a function") /\
  (exists best,
     findOptimalPath
       (RouterTest.buildMockClient RouterTest.pools_direct_vs_two_hop)
       RouterTest.T_A RouterTest.T_C 5000 EXACT_IN
     = Return (Some best) /\
     path best = [RouterTest.T_A; RouterTest.T_C] /\
     amountOut (quote best) = 3326%Z) /\
  (exists first second,
     Swap.getQuote
       (RouterTest.buildMockClient RouterTest.pools_direct_vs_two_hop)
       {| req_tokenIn := RouterTest.T_A; req_tokenOut := RouterTest.T_B;
          req_amount := 5000; req_tradeType := EXACT_IN;
          req_path := None; req_slippageBps := None;
          req_deadline := None |}
     = Return first /\
     Swap.getQuote
       (RouterTest.buildMockClient RouterTest.pools_direct_vs_two_hop)
       {| req_tokenIn := RouterTest.T_B; req_tokenOut := RouterTest.T_C;
          req_amount := amountOut first; req_tradeType := EXACT_IN;
          req_path := None; req_slippageBps := None;
          req_deadline := None |}
     = Return second /\
     amountOut first = 4960%Z /\ amountOut second = 4920%Z).
Proof.
  split; [by vm_compute|]. split; [reflexivity|]. split.
  - eexists. split; [by vm_compute|]. split; by vm_compute.
  - eexists _, _. split; [by vm_compute|].
    split; [by vm_compute|]. split; by vm_compute.
Qed.

End RouterFacts.

(** ** The token graph, the order of the paths and the chosen route *)

Section RouteFacts.

Import Router.

(** *** The edges of the token graph *)

Lemma neighbors_ensureKey graph token a :
  neighbors (ensureKey graph token) a = neighbors graph a.
Proof.
  unfold ensureKey. destruct (graph !! token) eqn:Hlook; [done|].
  unfold neighbors. rewrite lookup_insert. case_decide as Heq; [|done].
  subst. by rewrite Hlook.
Qed.

Lemma elem_of_neighbors_pushNeighbor graph a b x y :
  y ∈ neighbors (pushNeighbor graph a b) x <->
  y ∈ neighbors graph x \/ (x = a /\ y = b).
Proof.
  unfold pushNeighbor. case_decide as Hin.
  - split; [by left|]. by intros [?|[-> ->]].
  - unfold neighbors at 1. rewrite lookup_insert. case_decide as Heq.
    + subst. cbn. rewrite elem_of_app, list_elem_of_singleton.
      split; (intros [?|?]; [by left|right]); [done|tauto].
    + fold (neighbors graph x). split; [by left|].
      intros [?|[? _]]; [done|by subst].
Qed.

Lemma elem_of_neighbors_addTokens graph tokens x y :
  y ∈ neighbors (addTokens graph tokens) x <->
  y ∈ neighbors graph x \/ tokens = Some (x, y) \/ tokens = Some (y, x).
Proof.
  destruct tokens as [[token0 token1]|]; cbn [addTokens].
  - rewrite !elem_of_neighbors_pushNeighbor, !neighbors_ensureKey.
    split.
    + intros [[?|[-> ->]]|[-> ->]]; auto.
    + intros [?|[[= -> ->]|[= -> ->]]]; auto.
  - split; [by left|]. by intros [?|[?|?]].
Qed.

Lemma elem_of_neighbors_graphOfTokenPairs tokenPairs x y :
  y ∈ neighbors (graphOfTokenPairs tokenPairs) x <->
  Some (x, y) ∈ tokenPairs \/ Some (y, x) ∈ tokenPairs.
Proof.
  unfold graphOfTokenPairs.
  assert (Hgen : forall graph,
             y ∈ neighbors (foldl addTokens graph tokenPairs) x <->
             y ∈ neighbors graph x \/
             Some (x, y) ∈ tokenPairs \/ Some (y, x) ∈ tokenPairs).
  { induction tokenPairs as [|tokens tokenPairs IH]; intros graph.
    - cbn. rewrite !elem_of_nil. tauto.
    - cbn [foldl]. rewrite IH, elem_of_neighbors_addTokens, !elem_of_cons.
      split.
      + intros [[?|[->| ->]]|[?|?]]; auto.
      + intros [?|[[->|?]|[->|?]]]; auto. }
  rewrite Hgen. unfold neighbors. rewrite lookup_empty. cbn.
  rewrite elem_of_nil. tauto.
Qed.

Lemma buildTokenGraph_adjacent client pairAddresses a b :
  adjacent (buildTokenGraph client pairAddresses) a b <->
  exists addr,
    addr ∈ pairAddresses /\
    (getTokens (pair client addr) = Return (a, b) \/
     getTokens (pair client addr) = Return (b, a)).
Proof.
  unfold adjacent, buildTokenGraph.
  rewrite elem_of_neighbors_graphOfTokenPairs, !list_elem_of_fmap.
  split.
  - intros [(addr & Heq & Hin)|(addr & Heq & Hin)]; exists addr;
      (split; [done|]);
      destruct (getTokens (pair client addr)) as [tokens|]; try done;
      injection Heq as <-; auto.
  - intros (addr & Hin & [Heq|Heq]); [left|right]; exists addr;
      by rewrite Heq.
Qed.

(** X7. The token graph has an edge from [a] to [b] exactly when one of
    the listed pair addresses is a pool whose tokens could be read and are
    [a] and [b], in either order; a pool whose read fails adds nothing.
    So the graph is symmetric. *)
Theorem buildTokenGraph_edges client pairAddresses :
  (forall a b,
     adjacent (buildTokenGraph client pairAddresses) a b <->
     exists addr,
       addr ∈ pairAddresses /\
       (getTokens (pair client addr) = Return (a, b) \/
        getTokens (pair client addr) = Return (b, a))) /\
  (forall a b,
     adjacent (buildTokenGraph client pairAddresses) a b <->
     adjacent (buildTokenGraph client pairAddresses) b a).
Proof.
  split; [apply buildTokenGraph_adjacent|].
  intros a b. rewrite !buildTokenGraph_adjacent.
  split; intros (addr & Hin & [?|?]); exists addr; auto.
Qed.

(** *** Breadth-first order *)

Lemma StronglySorted_snoc_length (paths : list (list string)) p n :
  StronglySorted (fun p q => length p <= length q) paths ->
  Forall (fun p => length p <= n) paths -> n <= length p ->
  StronglySorted (fun p q => length p <= length q) (paths ++ [p]).
Proof.
  intros Hsorted Hbound Hp.
  induction Hsorted as [|q paths Hsorted IH Hq]; cbn.
  - repeat constructor.
  - apply Forall_cons in Hbound as [Hqn Hbound].
    constructor; [by apply IH|].
    apply Forall_app. split; [done|].
    constructor; [lia|constructor].
Qed.

Lemma children_length graph e :
  Forall (fun c => length (Queue.path c) = S (length (Queue.path e)))
         (children graph e).
Proof.
  unfold children. apply Forall_fmap, Forall_forall. intros neighbor _.
  cbn. rewrite length_app. cbn. lia.
Qed.

Lemma findAllPaths_loop_sorted end_ graph maxHops queue paths :
  forall k, layered k queue paths ->
  StronglySorted (fun p q => length p <= length q)
                 (findAllPaths_loop end_ graph maxHops queue paths).
Proof.
  funelim (findAllPaths_loop end_ graph maxHops queue paths);
    intros k (Hsorted & Hbound & front & back & Hqueue & Hfront & Hback).
  - done.
  - (* accepted *)
    destruct front as [|e' front]; cbn in Hqueue.
    + subst back. apply Forall_cons in Hback as [He Hback].
      apply (H (S k)). split; [|split].
      * apply (StronglySorted_snoc_length _ _ k); [done|done|lia].
      * apply Forall_app. split.
        -- eapply Forall_impl; [exact Hbound|]. cbn. lia.
        -- constructor; [lia|constructor].
      * exists queue, []. by rewrite app_nil_r.
    + injection Hqueue as <- ->.
      apply Forall_cons in Hfront as [He Hfront].
      apply (H k). split; [|split].
      * apply (StronglySorted_snoc_length _ _ k); [done|done|lia].
      * apply Forall_app. split; [done|]. constructor; [lia|constructor].
      * by exists front, back.
  - (* the start token is the end token *)
    destruct front as [|e' front]; cbn in Hqueue.
    + subst back. apply Forall_cons in Hback as [He Hback].
      apply (H (S k)). split; [done|]. split.
      * eapply Forall_impl; [exact Hbound|]. cbn. lia.
      * exists queue, []. by rewrite app_nil_r.
    + injection Hqueue as <- ->.
      apply Forall_cons in Hfront as [He Hfront].
      apply (H k). split; [done|]. split; [done|]. by exists front, back.
  - (* over the hop limit *)
    destruct front as [|e' front]; cbn in Hqueue.
    + subst back. apply Forall_cons in Hback as [He Hback].
      apply (H (S k)). split; [done|]. split.
      * eapply Forall_impl; [exact Hbound|]. cbn. lia.
      * exists queue, []. by rewrite app_nil_r.
    + injection Hqueue as <- ->.
      apply Forall_cons in Hfront as [He Hfront].
      apply (H k). split; [done|]. split; [done|]. by exists front, back.
  - (* expanded *)
    pose proof (children_length graph e) as Hchildren.
    destruct front as [|e' front]; cbn in Hqueue.
    + subst back. apply Forall_cons in Hback as [He Hback].
      apply (H (S k)). split; [done|]. split.
      * eapply Forall_impl; [exact Hbound|]. cbn. lia.
      * exists queue, (children graph e). split; [done|]. split; [done|].
        eapply Forall_impl; [exact Hchildren|]. cbn. lia.
    + injection Hqueue as <- ->.
      apply Forall_cons in Hfront as [He Hfront].
      apply (H k). split; [done|]. split; [done|].
      exists front, (back ++ children graph e).
      split; [by rewrite app_assoc|]. split; [done|].
      apply Forall_app. split; [done|].
      eapply Forall_impl; [exact Hchildren|]. cbn. lia.
Qed.

(** X8. [findAllPaths] lists its paths breadth first: a path never
    comes after a longer one, so the routes with the fewest hops come
    first. *)
Theorem findAllPaths_shortest_first start end_ graph maxHops :
  StronglySorted (fun p q => length p <= length q)
                 (findAllPaths start end_ graph maxHops).
Proof.
  unfold findAllPaths. apply (findAllPaths_loop_sorted _ _ _ _ _ 1).
  split; [constructor|]. split; [constructor|].
  exists [ {| Queue.current := start; Queue.path := [start] |} ], [].
  split; [done|]. split; [|constructor].
  constructor; [done|constructor].
Qed.

(** *** The chosen route *)

Lemma findOptimalPath_inversion client tokenIn tokenOut amount
  tradeType result :
  findOptimalPath client tokenIn tokenOut amount tradeType
  = Return result ->
  tradeType = EXACT_IN /\
  exists allPairs,
    getAllPairs client = Return allPairs /\
    result
    = foldl (selectStep client amount EXACT_IN) None
            (findAllPaths tokenIn tokenOut
                          (buildTokenGraph client allPairs) 3).
Proof.
  unfold findOptimalPath. destruct tradeType; [|done].
  destruct (getAllPairs client) as [allPairs|]; [|done].
  cbn [mbind outcome_bind]. intros H. split; [done|].
  exists allPairs. split; [done|].
  destruct (findAllPaths _ _ _ _); by injection H as <-.
Qed.

(** What the selector makes of the candidates between [tokenIn] and
    [tokenOut]: the direct path with [getQuote]'s quote, or nothing. *)
Lemma select_direct client tokenIn tokenOut amount graph :
  match foldl (selectStep client amount EXACT_IN) None
              (findAllPaths tokenIn tokenOut graph 3) with
  | Some best =>
      [tokenIn; tokenOut] ∈ findAllPaths tokenIn tokenOut graph 3 /\
      path best = [tokenIn; tokenOut] /\
      Swap.getQuote client
        {| req_tokenIn := tokenIn; req_tokenOut := tokenOut;
           req_amount := amount; req_tradeType := EXACT_IN;
           req_path := Some [tokenIn; tokenOut];
           req_slippageBps := None; req_deadline := None |}
      = Return (quote best)
  | None =>
      [tokenIn; tokenOut] ∉ findAllPaths tokenIn tokenOut graph 3 \/
      exists err,
        Swap.getQuote client
          {| req_tokenIn := tokenIn; req_tokenOut := tokenOut;
             req_amount := amount; req_tradeType := EXACT_IN;
             req_path := Some [tokenIn; tokenOut];
             req_slippageBps := None; req_deadline := None |}
        = Throw err
  end.
Proof.
  set (paths := findAllPaths tokenIn tokenOut graph 3).
  pose proof (select_is_best client amount EXACT_IN paths [] None) as Hsel.
  cbn [app] in Hsel.
  assert (Hnone : is_best (quotePath client amount EXACT_IN) [] None)
    by (by intros p ?%elem_of_nil).
  specialize (Hsel Hnone).
  destruct (foldl _ None paths) as [best|]; cbn [is_best] in Hsel.
  - destruct Hsel as (Hin & Hown & _).
    apply quotePath_returns in Hown as (path0 & path1 & Hpath & Hquote).
    rewrite Hpath in Hin. pose proof Hin as Hdirect.
    apply findAllPaths_direct in Hdirect as [-> ->]. done.
  - destruct (decide ([tokenIn; tokenOut] ∈ paths)) as [Hin|Hout];
      [right|by left].
    destruct (Hsel _ Hin) as [err Herr]. by exists err.
Qed.

(** X9. [findOptimalPath] never returns a route of more than two tokens.
    For an exact-input request and a pair list that can be read it
    returns a result, which is the direct path from [tokenIn] to
    [tokenOut] with the quote [getQuote] gives for it when that path is
    among the candidates and [getQuote] returns, and [null] otherwise,
    also where longer candidate paths exist: their quote is a call of
    [getMultiHopQuote], which [SwapModule] lacks, and the error is
    swallowed. *)
Theorem findOptimalPath_returns_only_the_direct_route client tokenIn
  tokenOut amount allPairs :
  getAllPairs client = Return allPairs ->
  exists result,
    findOptimalPath client tokenIn tokenOut amount EXACT_IN
    = Return result /\
    match result with
    | Some best =>
        [tokenIn; tokenOut]
          ∈ findAllPaths tokenIn tokenOut
                         (buildTokenGraph client allPairs) 3 /\
        path best = [tokenIn; tokenOut] /\
        Swap.getQuote client
          {| req_tokenIn := tokenIn; req_tokenOut := tokenOut;
             req_amount := amount; req_tradeType := EXACT_IN;
             req_path := Some [tokenIn; tokenOut];
             req_slippageBps := None; req_deadline := None |}
        = Return (quote best)
    | None =>
        [tokenIn; tokenOut]
          ∉ findAllPaths tokenIn tokenOut
                         (buildTokenGraph client allPairs) 3 \/
        exists err,
          Swap.getQuote client
            {| req_tokenIn := tokenIn; req_tokenOut := tokenOut;
               req_amount := amount; req_tradeType := EXACT_IN;
               req_path := Some [tokenIn; tokenOut];
               req_slippageBps := None; req_deadline := None |}
          = Throw err
    end.
Proof.
  intros Hpairs.
  exists (foldl (selectStep client amount EXACT_IN) None
                (findAllPaths tokenIn tokenOut
                              (buildTokenGraph client allPairs) 3)).
  split; [|apply select_direct].
  unfold findOptimalPath. rewrite Hpairs. cbn [mbind outcome_bind].
  by destruct (findAllPaths _ _ _ _).
Qed.

Lemma findOptimalPath_returns_only_the_direct_route_witness :
  exists result,
    findOptimalPath
      (RouterTest.buildMockClient RouterTest.pools_direct_vs_three_hop)
      RouterTest.T_A RouterTest.T_D 500 EXACT_IN
    = Return result /\
    match result with
    | Some best =>
        [RouterTest.T_A; RouterTest.T_D]
          ∈ findAllPaths RouterTest.T_A RouterTest.T_D
              (buildTokenGraph
                 (RouterTest.buildMockClient
                    RouterTest.pools_direct_vs_three_hop)
                 (RouterTest.mp_address
                    <$> RouterTest.pools_direct_vs_three_hop)) 3 /\
        path best = [RouterTest.T_A; RouterTest.T_D] /\
        Swap.getQuote
          (RouterTest.buildMockClient RouterTest.pools_direct_vs_three_hop)
          {| req_tokenIn := RouterTest.T_A; req_tokenOut := RouterTest.T_D;
             req_amount := 500; req_tradeType := EXACT_IN;
             req_path := Some [RouterTest.T_A; RouterTest.T_D];
             req_slippageBps := None; req_deadline := None |}
        = Return (quote best)
    | None =>
        [RouterTest.T_A; RouterTest.T_D]
          ∉ findAllPaths RouterTest.T_A RouterTest.T_D
              (buildTokenGraph
                 (RouterTest.buildMockClient
                    RouterTest.pools_direct_vs_three_hop)
                 (RouterTest.mp_address
                    <$> RouterTest.pools_direct_vs_three_hop)) 3 \/
        exists err,
          Swap.getQuote
            (RouterTest.buildMockClient
               RouterTest.pools_direct_vs_three_hop)
            {| req_tokenIn := RouterTest.T_A;
               req_tokenOut := RouterTest.T_D;
               req_amount := 500; req_tradeType := EXACT_IN;
               req_path := Some [RouterTest.T_A; RouterTest.T_D];
               req_slippageBps := None; req_deadline := None |}
          = Throw err
    end.
Proof.
  apply (findOptimalPath_returns_only_the_direct_route
           (RouterTest.buildMockClient RouterTest.pools_direct_vs_three_hop)
           RouterTest.T_A RouterTest.T_D 500).
  reflexivity.
Defined.

(** X10. The route [findOptimalPath] returns is one listed pool:
    [tokenIn] and [tokenOut] differ, the path is the two of them, the
    quote is for the whole amount between them, and some address of the
    factory's pair list is a pool whose two tokens could be read and are
    these two, in either order. *)
Theorem findOptimalPath_route_is_a_listed_pool client tokenIn tokenOut
  amount tradeType best :
  findOptimalPath client tokenIn tokenOut amount tradeType
  = Return (Some best) ->
  tokenIn <> tokenOut /\
  path best = [tokenIn; tokenOut] /\
  Types.path (quote best) = [tokenIn; tokenOut] /\
  amountIn (quote best) = amount /\
  exists allPairs addr,
    getAllPairs client = Return allPairs /\
    addr ∈ allPairs /\
    (getTokens (pair client addr) = Return (tokenIn, tokenOut) \/
     getTokens (pair client addr) = Return (tokenOut, tokenIn)).
Proof.
  intros H.
  destruct (findOptimalPath_inversion _ _ _ _ _ _ H)
    as (-> & allPairs & Hpairs & Hbest).
  pose proof (select_direct client tokenIn tokenOut amount
                (buildTokenGraph client allPairs)) as Hsel.
  rewrite <- Hbest in Hsel. destruct Hsel as (Hin & Hpath & Hquote).
  apply findAllPaths_spec in Hin as (_ & _ & Hnodup & Hwalk & _).
  destruct Hwalk as [Hadj _]. apply buildTokenGraph_adjacent in Hadj.
  destruct Hadj as (addr & Hlisted & Htokens).
  destruct (getQuote_inversion _ _ _ Hquote)
    as (reserveIn & reserveOut & [Hamount _] & _ & _ & _ & _ & _ & Hqpath
        & _).
  split; [|split; [done|split; [done|split; [done|]]]].
  - intros ->. apply NoDup_cons in Hnodup as [Hnotin _].
    apply Hnotin. by left.
  - by exists allPairs, addr.
Qed.

Lemma findOptimalPath_route_is_a_listed_pool_witness :
  exists allPairs addr,
    getAllPairs
      (RouterTest.buildMockClient RouterTest.pools_direct_vs_two_hop)
    = Return allPairs /\
    addr ∈ allPairs /\
    (getTokens
       (pair (RouterTest.buildMockClient RouterTest.pools_direct_vs_two_hop)
             addr)
     = Return (RouterTest.T_A, RouterTest.T_C) \/
     getTokens
       (pair (RouterTest.buildMockClient RouterTest.pools_direct_vs_two_hop)
             addr)
     = Return (RouterTest.T_C, RouterTest.T_A)).
Proof.
  eassert (H : findOptimalPath
                 (RouterTest.buildMockClient
                    RouterTest.pools_direct_vs_two_hop)
                 RouterTest.T_A RouterTest.T_C 5000 EXACT_IN
               = Return (Some _)) by (vm_compute; reflexivity).
  destruct (findOptimalPath_route_is_a_listed_pool _ _ _ _ _ _ H)
    as (_ & _ & _ & _ & Hpool).
  exact Hpool.
Defined.

End RouteFacts.

(** ** Decimal rendering of fractions *)

Section MathFacts.

Import Math.

(** The cases of tests/math.test.ts for [toSignificant]. *)
Lemma toSignificant_test_cases :
  toSignificant {| numerator := 1; denominator := 3 |} 3 ROUND_HALF_UP
  = Return "0.333"%string /\
  toSignificant {| numerator := 1; denominator := 2 |} 3 ROUND_HALF_UP
  = Return "0.500"%string /\
  toSignificant {| numerator := 12345; denominator := 1 |} 3 ROUND_HALF_UP
  = Return "12300"%string /\
  toSignificant {| numerator := 12345; denominator := 10 |} 3 ROUND_HALF_UP
  = Return "1230"%string /\
  toSignificant {| numerator := 12345; denominator := 100 |} 3 ROUND_HALF_UP
  = Return "123"%string /\
  toSignificant {| numerator := 1; denominator := 300 |} 3 ROUND_HALF_UP
  = Return "0.00333"%string /\
  toSignificant {| numerator := 999; denominator := 10000 |} 2 ROUND_HALF_UP
  = Return "0.10"%string /\
  toSignificant {| numerator := 999; denominator := 100000 |} 2 ROUND_HALF_UP
  = Return "0.010"%string /\
  toSignificant {| numerator := -1; denominator := 3 |} 3 ROUND_HALF_UP
  = Return "-0.333"%string.
Proof. repeat split; by vm_compute. Qed.

(** C9. [toSignificant] with round-half-up carries across a power of
    ten: the fraction 999/10 (99.9) at two significant digits renders as
    "100", whereas rounding down renders "99". *)
Theorem toSignificant_half_up_crosses_power_of_ten :
  toSignificant {| numerator := 999; denominator := 10 |} 2 ROUND_HALF_UP
  = Return "100"%string /\
  divideWithRounding 999 10 ROUND_HALF_UP = Return 100%Z /\
  toSignificant {| numerator := 999; denominator := 10 |} 2 ROUND_DOWN
  = Return "99"%string.
Proof. repeat split; by vm_compute. Qed.

End MathFacts.

(** ** Strings: runs, slices and decimal numerals *)

Section StringFacts.

Import Js Math.

Local Open Scope Z_scope.

(** *** Runs of characters *)

Lemma every_app class s1 s2 :
  every class (s1 ++ s2)%string = every class s1 && every class s2.
Proof.
  induction s1 as [|c s1 IH]; simpl; [done|].
  by rewrite IH, andb_assoc.
Qed.

Lemma takeWhile_run class s c rest :
  every class s = true -> class c = false ->
  takeWhile class (s ++ String c rest) = s.
Proof.
  intros Hs Hc. induction s as [|a s IH]; simpl in *; [by rewrite Hc|].
  apply andb_true_iff in Hs as [-> Hs]. by rewrite IH.
Qed.

Lemma skipWhile_run class s c rest :
  every class s = true -> class c = false ->
  skipWhile class (s ++ String c rest) = String c rest.
Proof.
  intros Hs Hc. induction s as [|a s IH]; simpl in *; [by rewrite Hc|].
  apply andb_true_iff in Hs as [-> Hs]. by rewrite IH.
Qed.

(** *** Lengths and slices *)

Lemma length_append (s1 s2 : string) :
  String.length (s1 ++ s2) = (String.length s1 + String.length s2)%nat.
Proof. induction s1 as [|c s1 IH]; simpl; [done|]. by rewrite IH. Qed.

Lemma append_empty_r (s : string) : (s ++ "")%string = s.
Proof.
  induction s as [|c s IH]; [done|].
  change (String c (s +:+ "") = String c s). by rewrite IH.
Qed.

Lemma append_nil_l (s : string) : ("" ++ s)%string = s.
Proof. reflexivity. Qed.

Lemma append_cons (c : ascii) (s1 s2 : string) :
  (String c s1 ++ s2)%string = String c (s1 ++ s2).
Proof. reflexivity. Qed.

Lemma append_assoc (s1 s2 s3 : string) :
  (s1 ++ s2 ++ s3)%string = ((s1 ++ s2) ++ s3)%string.
Proof.
  induction s1 as [|c s1 IH]; [done|].
  change (String c (s1 +:+ s2 +:+ s3) = String c ((s1 +:+ s2) +:+ s3)).
  by rewrite IH.
Qed.

Lemma substring_all (s : string) : substring 0 (String.length s) s = s.
Proof. induction s as [|c s IH]; simpl; [done|]. by rewrite IH. Qed.

Lemma substring_split (s : string) (n : nat) :
  (n <= String.length s)%nat ->
  (substring 0 n s ++ substring n (String.length s - n) s)%string = s.
Proof.
  revert n. induction s as [|c s IH]; intros [|n] Hn; simpl in *;
    try done; try lia.
  - by rewrite substring_all.
  - change (String c (substring 0 n s +:+
                      substring n (String.length s - n) s) = String c s).
    by rewrite IH by lia.
Qed.

Lemma substring_prefix_app (s1 s2 : string) (k : nat) :
  (k <= String.length s1)%nat ->
  substring 0 k (s1 ++ s2) = substring 0 k s1.
Proof.
  revert k. induction s1 as [|c s1 IH]; intros [|k] Hk; simpl in *;
    try lia.
  - by destruct s2.
  - done.
  - change (String c s1 +:+ s2) with (String c (s1 +:+ s2)).
    cbn [substring]. by rewrite IH by lia.
Qed.

Lemma length_substring_prefix (s : string) (n : nat) :
  (n <= String.length s)%nat -> String.length (substring 0 n s) = n.
Proof.
  revert n. induction s as [|c s IH]; intros [|n] Hn; simpl in *;
    try done; try lia.
  by rewrite IH by lia.
Qed.

Lemma length_substring_suffix (s : string) (n : nat) :
  (n <= String.length s)%nat ->
  String.length (substring n (String.length s - n) s)
  = (String.length s - n)%nat.
Proof.
  intros Hn.
  pose proof (f_equal String.length (substring_split s n Hn)) as Hlen.
  rewrite length_append, length_substring_prefix in Hlen by done. lia.
Qed.

Lemma slice_prefix (s : string) (k : Z) :
  0 <= k <= len s -> slice s 0 k = substring 0 (Z.to_nat k) s.
Proof.
  intros Hk. unfold slice, len in *.
  destruct (Z.ltb_spec 0 0); [lia|].
  destruct (Z.ltb_spec k 0); [lia|].
  rewrite Z.min_l by lia. rewrite (Z.min_l k) by lia.
  by rewrite Z.sub_0_r.
Qed.

Lemma sliceFrom_suffix (s : string) (k : Z) :
  0 <= k <= len s ->
  sliceFrom s k
  = substring (Z.to_nat k) (String.length s - Z.to_nat k) s.
Proof.
  intros Hk. unfold sliceFrom, slice, len in *.
  destruct (Z.ltb_spec k 0); [lia|].
  destruct (Z.ltb_spec (Z.of_nat (String.length s)) 0); [lia|].
  rewrite Z.min_l by lia. rewrite Z.min_id.
  f_equal. lia.
Qed.

Lemma length_zeros (count : nat) : String.length (zeros count) = count.
Proof. induction count as [|count IH]; simpl; [done|]. by rewrite IH. Qed.

Lemma zeros_snoc (count : nat) (s : string) :
  (zeros count ++ String "0" s)%string = String "0" (zeros count ++ s).
Proof.
  induction count as [|count IH]; [done|].
  change (String "0" (zeros count +:+ String "0" s)
          = String "0" (String "0" (zeros count +:+ s))).
  by rewrite IH.
Qed.

(** *** Decimal numerals *)

Lemma parseDigits_digitsValue (s : string) : parseDigits s = digitsValue 0 s.
Proof. reflexivity. Qed.

Lemma digitsValue_of_uint_acc (d : Decimal.uint) (acc : positive) :
  digitsValue (Z.pos acc) (NilEmpty.string_of_uint d)
  = Z.pos (Pos.of_uint_acc d acc).
Proof.
  revert acc.
  induction d as [|d IH|d IH|d IH|d IH|d IH|d IH|d IH|d IH|d IH|d IH];
    intros acc; cbn [NilEmpty.string_of_uint digitsValue Pos.of_uint_acc];
    [done|..]; rewrite <- IH; f_equal; simpl; lia.
Qed.

Lemma digitsValue_of_uint (d : Decimal.uint) :
  digitsValue 0 (NilEmpty.string_of_uint d) = Z.of_N (Pos.of_uint d).
Proof.
  induction d as [|d IH|d IH|d IH|d IH|d IH|d IH|d IH|d IH|d IH|d IH];
    cbn [NilEmpty.string_of_uint digitsValue Pos.of_uint]; [done|done|..];
    cbn [Z.mul Z.add Z.of_nat nat_of_ascii]; simpl;
    apply (digitsValue_of_uint_acc d).
Qed.

Lemma every_isDigit_string_of_uint (d : Decimal.uint) :
  every isDigit (NilEmpty.string_of_uint d) = true.
Proof. induction d; simpl; done. Qed.

Lemma toString_nonneg (z : Z) :
  0 <= z ->
  exists c rest,
    toString z = String c rest /\ isDigit c = true /\
    every isDigit rest = true /\ parseDigits (toString z) = z.
Proof.
  intros Hz. destruct z as [|p|p]; [by exists "0"%char, ""%string| |lia].
  unfold toString. cbn [Z.to_int NilZero.string_of_int].
  pose proof (Unsigned.to_uint_nonnil p) as Hnil.
  assert (Hstr : NilZero.string_of_uint (Pos.to_uint p)
                 = NilEmpty.string_of_uint (Pos.to_uint p))
    by (by destruct (Pos.to_uint p)).
  rewrite Hstr, parseDigits_digitsValue, digitsValue_of_uint.
  rewrite Unsigned.of_to.
  pose proof (every_isDigit_string_of_uint (Pos.to_uint p)) as Hevery.
  destruct (NilEmpty.string_of_uint (Pos.to_uint p)) as [|c rest] eqn:Hs.
  - by destruct (Pos.to_uint p).
  - simpl in Hevery. apply andb_true_iff in Hevery as [Hc Hrest].
    by exists c, rest.
Qed.

Lemma toString_neg (z : Z) :
  z < 0 -> toString z = String "-" (toString (- z)).
Proof. intros Hz. destruct z as [|p|p]; [lia|lia|done]. Qed.

Lemma every_isDigit_toString (z : Z) :
  0 <= z -> every isDigit (toString z) = true.
Proof.
  intros Hz. destruct (toString_nonneg z Hz) as (c & rest & -> & Hc & Hr & _).
  simpl. by rewrite Hc, Hr.
Qed.

Lemma parseDigits_toString (z : Z) : 0 <= z -> parseDigits (toString z) = z.
Proof.
  intros Hz. by destruct (toString_nonneg z Hz) as (_ & _ & _ & _ & _ & ?).
Qed.

Lemma every_isDigit_zeros (count : nat) :
  every isDigit (zeros count) = true.
Proof. induction count as [|count IH]; [done|]. exact IH. Qed.

Lemma parseDigits_zeros (count : nat) (s : string) :
  parseDigits (zeros count ++ s) = parseDigits s.
Proof.
  rewrite !parseDigits_digitsValue.
  induction count as [|count IH]; [done|]. exact IH.
Qed.

End StringFacts.

(** ** Fractions: arithmetic, rounding and fixed-point rendering *)

Section FractionFacts.

Import Js Math.

Local Open Scope Z_scope.

(** The cases of tests/math.test.ts for the arithmetic, [toFixed] and
    [Percent]. *)
Lemma fraction_test_cases :
  add {| numerator := 1; denominator := 2 |}
      {| numerator := 1; denominator := 4 |}
  = {| numerator := 6; denominator := 8 |} /\
  sub {| numerator := 1; denominator := 2 |}
      {| numerator := 1; denominator := 4 |}
  = {| numerator := 2; denominator := 8 |} /\
  multiply {| numerator := 1; denominator := 2 |}
           {| numerator := 2; denominator := 3 |}
  = {| numerator := 2; denominator := 6 |} /\
  divide {| numerator := 1; denominator := 2 |}
         {| numerator := 1; denominator := 4 |}
  = {| numerator := 4; denominator := 2 |} /\
  toFixed {| numerator := 5; denominator := 1 |} 2 ROUND_HALF_UP
  = Return "5.00"%string /\
  toFixed {| numerator := 1; denominator := 2 |} 2 ROUND_HALF_UP
  = Return "0.50"%string /\
  toFixed {| numerator := 1; denominator := 3 |} 2 ROUND_HALF_UP
  = Return "0.33"%string /\
  toFixed {| numerator := 2; denominator := 3 |} 2 ROUND_HALF_UP
  = Return "0.67"%string /\
  toFixed {| numerator := 1; denominator := 100 |} 2 ROUND_HALF_UP
  = Return "0.01"%string /\
  toFixed {| numerator := 1; denominator := 1000 |} 2 ROUND_HALF_UP
  = Return "0.00"%string /\
  toFixed {| numerator := -1; denominator := 3 |} 2 ROUND_HALF_UP
  = Return "-0.33"%string /\
  Percent.toFixed {| numerator := 1; denominator := 100 |} 2 ROUND_HALF_UP
  = Return "1.00"%string /\
  Percent.toSignificant {| numerator := 1; denominator := 100 |} 3
                        ROUND_HALF_UP
  = Return "1.00"%string /\
  Percent.toSignificant {| numerator := 1; denominator := 1 |} 3
                        ROUND_HALF_UP
  = Return "100"%string /\
  Percent.toSignificant {| numerator := 1; denominator := 10000 |} 2
                        ROUND_HALF_UP
  = Return "0.010"%string.
Proof. repeat split; by vm_compute. Qed.


Lemma inject_Z_nonzero (z : Z) : z <> 0 -> ~ (inject_Z z == 0)%Q.
Proof. intros Hz. unfold Qeq. cbn. lia. Qed.

(** X11. Over non-zero denominators the four operations are exact: the
    result stands for the sum, difference, product or quotient of the
    rationals the operands stand for, whether or not the denominators are
    equal, and never has a zero denominator unless it divides by zero. *)
Theorem fraction_arithmetic_exact (f g : Fraction) :
  denominator f <> 0 -> denominator g <> 0 ->
  (value (add f g) == value f + value g)%Q /\
  (value (sub f g) == value f - value g)%Q /\
  (value (multiply f g) == value f * value g)%Q /\
  (numerator g <> 0 -> (value (divide f g) == value f / value g)%Q) /\
  (numerator f <> 0 -> (value (invert f) == / value f)%Q) /\
  denominator (add f g) <> 0 /\ denominator (sub f g) <> 0 /\
  denominator (multiply f g) <> 0 /\
  (numerator g <> 0 -> denominator (divide f g) <> 0).
Proof.
  intros Hf Hg.
  pose proof (inject_Z_nonzero _ Hf) as Hf'.
  pose proof (inject_Z_nonzero _ Hg) as Hg'.
  unfold value, add, sub, multiply, divide, invert.
  repeat split.
  - destruct (Z.eqb_spec (denominator f) (denominator g)) as [Heq|Hne];
      cbn [numerator denominator].
    + rewrite inject_Z_plus, <- Heq. by field.
    + rewrite inject_Z_plus, !inject_Z_mult. by field.
  - destruct (Z.eqb_spec (denominator f) (denominator g)) as [Heq|Hne];
      cbn [numerator denominator].
    + unfold Z.sub. rewrite inject_Z_plus, inject_Z_opp, <- Heq. by field.
    + unfold Z.sub.
      rewrite inject_Z_plus, inject_Z_opp, !inject_Z_mult. by field.
  - cbn [numerator denominator]. rewrite !inject_Z_mult. by field.
  - intros Hn. pose proof (inject_Z_nonzero _ Hn).
    cbn [numerator denominator]. rewrite !inject_Z_mult. by field.
  - intros Hn. pose proof (inject_Z_nonzero _ Hn).
    cbn [numerator denominator]. by field.
  - destruct (Z.eqb_spec (denominator f) (denominator g));
      cbn [denominator]; lia.
  - destruct (Z.eqb_spec (denominator f) (denominator g));
      cbn [denominator]; lia.
  - cbn [denominator]. lia.
  - intros Hn. cbn [denominator]. lia.
Qed.

Lemma fraction_arithmetic_exact_witness :
  (value (add {| numerator := 1; denominator := 2 |}
              {| numerator := 1; denominator := 4 |})
   == value {| numerator := 1; denominator := 2 |}
      + value {| numerator := 1; denominator := 4 |})%Q.
Proof.
  apply (fraction_arithmetic_exact {| numerator := 1; denominator := 2 |}
                                   {| numerator := 1; denominator := 4 |});
    cbn; lia.
Defined.

(** X12. [quotient] and [remainder] split a fraction into its integer
    part, truncated toward zero, and what is left over it: the remainder
    keeps the denominator, is smaller than it in absolute value and has
    the sign of the numerator. Both throw a [RangeError] on a zero
    denominator. *)
Theorem quotient_remainder_split (f : Fraction) :
  (denominator f <> 0 ->
   exists q r,
     quotient f = Return q /\ remainder f = Return r /\
     numerator f = q * denominator f + numerator r /\
     denominator r = denominator f /\
     Z.abs (numerator r) < Z.abs (denominator f) /\
     0 <= numerator r * numerator f /\
     (value f == inject_Z q + value r)%Q) /\
  (denominator f = 0 ->
   quotient f = Throw (RangeError "Division by zero") /\
   remainder f = Throw (RangeError "Division by zero")).
Proof.
  unfold quotient, remainder, bigint_div, bigint_rem. split.
  - intros Hd. destruct (Z.eqb_spec (denominator f) 0) as [|_]; [done|].
    eexists _, _. split; [done|]. split; [done|].
    cbn [numerator denominator mbind outcome_bind].
    pose proof (Z.quot_rem' (numerator f) (denominator f)) as Hsplit.
    repeat split.
    + lia.
    + by apply Z.rem_bound_abs.
    + by apply Z.rem_sign_mul.
    + unfold value. cbn [numerator denominator].
      rewrite Hsplit at 1. rewrite inject_Z_plus, inject_Z_mult.
      field. by apply inject_Z_nonzero.
  - intros ->. done.
Qed.

(** What [divideWithRounding] computes, in terms of truncated division:
    the truncated quotient, moved one step away from zero when the
    division is inexact and the mode asks for it. *)
Lemma divideWithRounding_value (n d : Z) (rounding : Rounding) :
  d <> 0 ->
  divideWithRounding n d rounding
  = Return (Z.quot n d
            + if Z.rem n d =? 0 then 0
              else match rounding with
                   | ROUND_DOWN => 0
                   | ROUND_UP => Z.sgn n * Z.sgn d
                   | ROUND_HALF_UP =>
                       if Z.abs (Z.rem n d) * 2 >=? Z.abs d
                       then Z.sgn n * Z.sgn d else 0
                   end).
Proof.
  intros Hd. unfold divideWithRounding, bigint_div, bigint_rem.
  destruct (Z.eqb_spec d 0) as [|_]; [done|].
  cbn [mbind outcome_bind mret outcome_ret].
  destruct (Z.eqb_spec (Z.rem n d) 0) as [Hrem|Hrem];
    [by rewrite Z.add_0_r|].
  assert (n <> 0) as Hn by (intros ->; by rewrite Z.rem_0_l in Hrem).
  replace (if n <? 0 then - n else n) with (Z.abs n)
    by (destruct (Z.ltb_spec n 0); lia).
  replace (if d <? 0 then - d else d) with (Z.abs d)
    by (destruct (Z.ltb_spec d 0); lia).
  replace (if Z.rem n d <? 0 then - Z.rem n d else Z.rem n d)
    with (Z.abs (Z.rem n d))
    by (destruct (Z.ltb_spec (Z.rem n d) 0); lia).
  destruct (Z.eqb_spec (Z.abs d) 0) as [|_]; [lia|].
  cbn [mbind outcome_bind mret outcome_ret].
  assert ((Z.abs (Z.rem n d) >? 0) = true) as -> by lia.
  assert (Habs : Z.quot (Z.abs n) (Z.abs d) = Z.abs (Z.quot n d))
    by (by apply Z.quot_abs).
  rewrite Habs.
  pose proof (Z.quot_rem' n d) as Hsplit.
  pose proof (Z.rem_bound_abs n d Hd) as Hbound.
  pose proof (Z.rem_sign_mul n d Hd) as Hsign.
  assert (Hq : 0 <= Z.quot n d * (n * d)).
  { destruct (Z.lt_total 0 n) as [?|[?|?]], (Z.lt_total 0 d) as [?|[?|?]];
      try lia.
    - pose proof (Z.quot_pos n d ltac:(lia) ltac:(lia)). nia.
    - pose proof (Z.quot_opp_r n (- d) ltac:(lia)) as Ho.
      rewrite Z.opp_involutive in Ho.
      pose proof (Z.quot_pos n (- d) ltac:(lia) ltac:(lia)). nia.
    - pose proof (Z.quot_opp_l (- n) d ltac:(lia)) as Ho.
      rewrite Z.opp_involutive in Ho.
      pose proof (Z.quot_pos (- n) d ltac:(lia) ltac:(lia)). nia.
    - pose proof (Z.quot_opp_opp (- n) (- d) ltac:(lia)) as Ho.
      rewrite !Z.opp_involutive in Ho.
      pose proof (Z.quot_pos (- n) (- d) ltac:(lia) ltac:(lia)). nia. }
  set (q := Z.quot n d) in *.
  destruct (Z.sgn_spec n) as [[? ->]|[[? ->]|[? ->]]]; [|lia|];
    destruct (Z.sgn_spec d) as [[? ->]|[[? ->]|[? ->]]]; try lia;
    [assert (0 <= q) by nia|assert (q <= 0) by nia
    |assert (q <= 0) by nia|assert (0 <= q) by nia];
    destruct (Z.geb_spec n 0), (Z.geb_spec d 0); try lia;
    cbn [Bool.eqb]; f_equal;
    destruct rounding;
    try destruct (Z.abs (Z.rem n d) * 2 >=? Z.abs d); lia.
Qed.

(** X13. How far each rounding mode is from the exact quotient [n / d]:
    rounding down truncates toward zero, rounding up never falls short in
    absolute value and overshoots by less than one, rounding half up is
    off by at most one half, and moves away from zero on a tie. The
    result never has the sign opposite to [n / d]. *)
Theorem divideWithRounding_modes (n d : Z) (rounding : Rounding) :
  d <> 0 ->
  exists q,
    divideWithRounding n d rounding = Return q /\
    0 <= q * (n * d) /\
    match rounding with
    | ROUND_DOWN =>
        q = Z.quot n d /\ Z.abs (q * d) <= Z.abs n < Z.abs (q * d) + Z.abs d
    | ROUND_UP => Z.abs n <= Z.abs (q * d) < Z.abs n + Z.abs d
    | ROUND_HALF_UP =>
        2 * Z.abs (q * d - n) <= Z.abs d /\
        (2 * Z.abs (q * d - n) = Z.abs d -> Z.abs n < Z.abs (q * d))
    end.
Proof.
  intros Hd. rewrite divideWithRounding_value by done.
  eexists. split; [done|].
  pose proof (Z.quot_rem' n d) as Hsplit.
  pose proof (Z.rem_bound_abs n d Hd) as Hbound.
  pose proof (Z.rem_sign_mul n d Hd) as Hsign.
  set (q := Z.quot n d) in *. set (r := Z.rem n d) in *.
  assert (Hq : 0 <= q * (n * d)).
  { destruct (Z.eq_dec q 0) as [->|Hq0]; [lia|].
    assert (0 <= r * (q * d)); [|nia].
    destruct (Z.lt_total 0 n) as [?|[?|?]], (Z.lt_total 0 d) as [?|[?|?]];
      try lia; nia. }
  destruct (Z.eqb_spec r 0) as [Hr|Hr].
  - rewrite Z.add_0_r. split; [done|].
    destruct rounding; repeat split; try lia; nia.
  - assert (n <> 0) as Hn.
    { intros ->. unfold r in Hr. by rewrite Z.rem_0_l in Hr. }
    destruct rounding.
    + rewrite Z.add_0_r. split; [done|]. repeat split; try lia; nia.
    + destruct (Z.geb_spec (Z.abs r * 2) (Z.abs d)).
      * split; [nia|]. split; nia.
      * rewrite Z.add_0_r. split; [done|]. split; nia.
    + split; [nia|]. nia.
Qed.

Lemma divideWithRounding_modes_witness :
  exists q,
    divideWithRounding (-7) 2 ROUND_HALF_UP = Return q /\
    0 <= q * (-7 * 2) /\
    2 * Z.abs (q * 2 - -7) <= Z.abs 2 /\
    (2 * Z.abs (q * 2 - -7) = Z.abs 2 -> Z.abs (-7) < Z.abs (q * 2)).
Proof. apply (divideWithRounding_modes (-7) 2 ROUND_HALF_UP). lia. Defined.

(** X14. Rounding treats the two signs alike: negating the numerator
    (or the denominator) negates the result, in every mode. *)
Theorem divideWithRounding_odd (n d : Z) (rounding : Rounding) :
  d <> 0 ->
  divideWithRounding (- n) d rounding
  = Z.opp <$> divideWithRounding n d rounding /\
  divideWithRounding n (- d) rounding
  = Z.opp <$> divideWithRounding n d rounding.
Proof.
  intros Hd. rewrite !divideWithRounding_value by lia.
  cbn [fmap outcome_fmap].
  rewrite Z.quot_opp_l, Z.rem_opp_l, Z.quot_opp_r, Z.rem_opp_r by done.
  rewrite !Z.sgn_opp, !Z.abs_opp.
  split; f_equal;
    destruct (Z.eqb_spec (Z.rem n d) 0), (Z.eqb_spec (- Z.rem n d) 0);
    try lia; destruct rounding;
    try destruct (Z.abs (Z.rem n d) * 2 >=? Z.abs d); lia.
Qed.

Lemma divideWithRounding_odd_witness :
  divideWithRounding (- 7) 2 ROUND_UP
  = Z.opp <$> divideWithRounding 7 2 ROUND_UP.
Proof. apply (divideWithRounding_odd 7 2 ROUND_UP). lia. Defined.


(** The loop of [toSignificant] over [n], from any [n] above zero. *)
Lemma scaleUp_spec (n d shift : Z) :
  0 < n ->
  exists k,
    0 <= k /\ scaleUp n d shift = (n * 10 ^ k, shift + k) /\
    (d <= n -> k = 0) /\
    (n < d -> 0 < k /\ d <= n * 10 ^ k < 10 * d).
Proof.
  funelim (scaleUp n d shift); intros Hn.
  - destruct (H ltac:(lia)) as (k & Hk & -> & Hzero & Hpos).
    exists (k + 1). rewrite Z.pow_add_r, Z.pow_1_r by lia.
    split; [lia|]. split; [f_equal; lia|]. split; [lia|]. intros _.
    split; [lia|].
    destruct (Z.le_gt_cases d (n * 10)) as [Hge|Hlt].
    + rewrite (Hzero Hge). lia.
    + destruct (Hpos Hlt) as [_ Hrange]. lia.
  - exists 0. rewrite Z.mul_1_r, Z.add_0_r. repeat split; lia.
Qed.

(** X15. The scaling loop of [toSignificant] multiplies a numerator
    below the denominator by ten until it reaches it: it ends with
    [n * 10 ^ k] in the range from [d] up to, not including, [10 * d], and
    has counted the [k] multiplications, at least one. *)
Theorem scaleUp_counts_the_tens (n d shift : Z) :
  0 < n < d ->
  exists k,
    0 < k /\ scaleUp n d shift = (n * 10 ^ k, shift + k) /\
    d <= n * 10 ^ k < 10 * d.
Proof.
  intros [Hn Hlt].
  destruct (scaleUp_spec n d shift Hn) as (k & _ & Heq & _ & Hpos).
  destruct (Hpos Hlt) as [Hk Hrange]. by exists k.
Qed.

Lemma scaleUp_counts_the_tens_witness :
  exists k,
    0 < k /\ scaleUp 3 1000 0 = (3 * 10 ^ k, 0 + k) /\
    1000 <= 3 * 10 ^ k < 10 * 1000.
Proof. apply (scaleUp_counts_the_tens 3 1000 0). lia. Defined.

(** X16. [toSignificant] rounds the magnitude and then puts the sign:
    a fraction with one negative term renders as a minus sign before the
    rendering of the fraction of the absolute values, in every rounding
    mode; with two negative terms it renders as that fraction. *)
Theorem toSignificant_negated (n d significantDigits : Z)
  (rounding : Rounding) :
  0 < n -> 0 < d ->
  let positive :=
    toSignificant {| numerator := n; denominator := d |} significantDigits
                  rounding in
  toSignificant {| numerator := - n; denominator := d |} significantDigits
                rounding
  = String "-" <$> positive /\
  toSignificant {| numerator := n; denominator := - d |} significantDigits
                rounding
  = String "-" <$> positive /\
  toSignificant {| numerator := - n; denominator := - d |} significantDigits
                rounding
  = positive.
Proof.
  intros Hn Hd. cbn zeta. unfold toSignificant.
  cbn [numerator denominator].
  destruct (Z.ltb_spec significantDigits 0); [done|].
  destruct (Z.eqb_spec (- n) 0); [lia|].
  destruct (Z.eqb_spec n 0); [lia|].
  destruct (Z.ltb_spec (- n) 0); [|lia].
  destruct (Z.ltb_spec n 0); [lia|].
  destruct (Z.ltb_spec (- d) 0); [|lia].
  destruct (Z.ltb_spec d 0); [lia|].
  rewrite !Z.opp_involutive. cbn [Bool.eqb negb].
  destruct (n <? d).
  - destruct (scaleUp n d 0) as [n' shift].
    destruct (divideWithRounding _ _ _); [|done].
    cbn [mbind outcome_bind mret outcome_ret fmap outcome_fmap].
    repeat case_match; done.
  - cbn zeta.
    destruct (_ <? significantDigits);
      (destruct (divideWithRounding _ _ _); [|done]);
      cbn [mbind outcome_bind mret outcome_ret fmap outcome_fmap];
      repeat case_match; done.
Qed.

Lemma toSignificant_negated_witness :
  toSignificant {| numerator := - 1; denominator := 3 |} 3 ROUND_HALF_UP
  = String "-"
    <$> toSignificant {| numerator := 1; denominator := 3 |} 3 ROUND_HALF_UP.
Proof. apply (toSignificant_negated 1 3 3 ROUND_HALF_UP); lia. Defined.

(** *** [toFixed] *)

Lemma padZeros_zeros (str : string) (decimalPlaces : Z) :
  padZeros str decimalPlaces
  = (zeros (Z.to_nat (decimalPlaces + 1 - len str)) ++ str)%string.
Proof.
  funelim (padZeros str decimalPlaces).
  - rewrite H. unfold len. cbn [String.length].
    replace (Z.to_nat (decimalPlaces + 1 - Z.of_nat (String.length str)))
      with (S (Z.to_nat (decimalPlaces + 1
                         - Z.of_nat (S (String.length str)))))
      by (unfold len in *; lia).
    by rewrite zeros_snoc.
  - by replace (Z.to_nat (decimalPlaces + 1 - len str)) with 0%nat by lia.
Qed.

(** The digits [toFixed] lays out: those of the absolute value of the
    rounded quotient, and whether it puts a sign before them. *)
Lemma toFixed_digits (q : Z) :
  let str := toString q in
  String.prefix "-" str = (q <? 0) /\
  (if String.prefix "-" str then sliceFrom str 1 else str)
  = toString (Z.abs q).
Proof.
  cbn zeta. destruct (Z.ltb_spec q 0) as [Hneg|Hpos].
  - rewrite (toString_neg q Hneg).
    assert (String.prefix "-" (String "-" (toString (- q))) = true) as ->
      by (cbn [String.prefix];
          destruct (ascii_dec "-" "-") as [_|Hne];
          [by destruct (toString (- q))|by destruct Hne]).
    split; [done|].
    replace (Z.abs q) with (- q) by lia.
    set (rest := toString (- q)).
    rewrite sliceFrom_suffix
      by (unfold len; cbn [String.length]; lia).
    change (Z.to_nat 1) with 1%nat. cbn [String.length substring].
    replace (S (String.length rest) - 1)%nat with (String.length rest)
      by lia.
    apply substring_all.
  - destruct (toString_nonneg q Hpos) as (c & rest & Heq & Hc & _).
    rewrite Heq. cbn [String.prefix].
    destruct (ascii_dec "-" c) as [<-|_]; [done|].
    split; [done|]. rewrite <- Heq. f_equal. lia.
Qed.

(** X17. For a non-negative number of decimal places and a non-zero
    denominator, [toFixed] renders the quotient of [numerator * 10 ^
    decimalPlaces] by the denominator, rounded in the given mode: a minus
    sign when that is negative, then at least one integer digit, then,
    when decimal places are asked for, a point and exactly that many
    digits; the digits together read as the absolute value of the rounded
    quotient. *)
Theorem toFixed_decimal_places (f : Fraction) (decimalPlaces : Z)
  (rounding : Rounding) :
  0 <= decimalPlaces -> denominator f <> 0 ->
  exists q intPart fracPart,
    divideWithRounding (numerator f * 10 ^ decimalPlaces) (denominator f)
                       rounding
    = Return q /\
    toFixed f decimalPlaces rounding
    = Return ((if (q <? 0)%Z then "-" else "") ++ intPart
              ++ (if (decimalPlaces >? 0)%Z then "." ++ fracPart
                  else ""))%string /\
    len fracPart = decimalPlaces /\ 1 <= len intPart /\
    every isDigit (intPart ++ fracPart) = true /\
    parseDigits (intPart ++ fracPart) = Z.abs q.
Proof.
  intros Hdp Hd. unfold toFixed.
  destruct (Z.ltb_spec decimalPlaces 0); [lia|].
  rewrite divideWithRounding_value by done.
  set (q := (_ + _)%Z).
  cbn [mbind outcome_bind mret outcome_ret].
  destruct (toFixed_digits q) as [-> ->].
  set (digits := toString (Z.abs q)).
  rewrite padZeros_zeros.
  set (str := (zeros _ ++ digits)%string).
  assert (Hlen : decimalPlaces + 1 <= len str).
  { unfold str, len. rewrite length_append, length_zeros.
    unfold len. lia. }
  set (decimalPos := len str - decimalPlaces).
  exists q, (slice str 0 decimalPos), (sliceFrom str decimalPos).
  rewrite slice_prefix, sliceFrom_suffix by (unfold decimalPos; lia).
  assert (Hpos : (Z.to_nat decimalPos <= String.length str)%nat)
    by (unfold decimalPos, len in *; lia).
  split; [done|]. split; [|split; [|split; [|split]]].
  - destruct (Z.gtb_spec decimalPlaces 0), (q <? 0);
      by rewrite ?append_empty_r.
  - unfold len at 1. rewrite length_substring_suffix by done.
    unfold decimalPos, len in *. lia.
  - unfold len at 1. rewrite length_substring_prefix by done.
    unfold decimalPos, len in *. lia.
  - rewrite substring_split by done. unfold str.
    rewrite every_app, every_isDigit_zeros. apply every_isDigit_toString.
    lia.
  - rewrite substring_split by done. unfold str.
    rewrite parseDigits_zeros. apply parseDigits_toString. lia.
Qed.

Lemma toFixed_decimal_places_witness :
  exists q intPart fracPart,
    divideWithRounding (-1 * 10 ^ 2) 3 ROUND_HALF_UP = Return q /\
    toFixed {| numerator := -1; denominator := 3 |} 2 ROUND_HALF_UP
    = Return ((if (q <? 0)%Z then "-" else "") ++ intPart
              ++ (if (2 >? 0)%Z then "." ++ fracPart else ""))%string /\
    len fracPart = 2 /\ 1 <= len intPart /\
    every isDigit (intPart ++ fracPart) = true /\
    parseDigits (intPart ++ fracPart) = Z.abs q.
Proof.
  apply (toFixed_decimal_places {| numerator := -1; denominator := 3 |} 2
                                ROUND_HALF_UP); cbn; lia.
Defined.

End FractionFacts.

(** ** Confirmation polling *)

Section PollingFacts.

Import Polling.

Variable server : nat -> Probe.
Variable txHash : string.
Variable strategy : PollingStrategy.
Variable maxAttempts : Z.
Variables backoffFactor maxInterval : Q.

Local Abbreviation pollFrom' :=
  (pollFrom server txHash strategy maxAttempts backoffFactor maxInterval).

(** One iteration on a probe that ends the polling. *)
Lemma pollFrom_terminal_step remaining attempt calls currentInterval waited r :
  terminal txHash (server calls) = Some r ->
  pollFrom' (S remaining) attempt calls currentInterval waited
  = {| result := r; probes := S calls; waits := waited |}.
Proof.
  intros Hterm. cbn [pollFrom]. unfold terminal in Hterm.
  destruct (server calls) as [status ledger|msg]; [|done].
  destruct (String.eqb status "SUCCESS"); [by injection Hterm as <-|].
  destruct (String.eqb status "FAILED"); [by injection Hterm as <-|done].
Qed.

(** One iteration on a probe that leaves the transaction pending: wait
    (unless this was the last attempt) and go on. *)
Lemma pollFrom_pending_step remaining attempt calls currentInterval waited :
  terminal txHash (server calls) = None ->
  pollFrom' (S remaining) attempt calls currentInterval waited
  = if (attempt <? maxAttempts)%Z then
      pollFrom' remaining (attempt + 1)%Z (S calls)
        match strategy with
        | EXPONENTIAL => Qmin (currentInterval * backoffFactor) maxInterval
        | LINEAR => currentInterval
        end
        (waited ++ [currentInterval])
    else
      pollFrom' remaining (attempt + 1)%Z (S calls) currentInterval waited.
Proof.
  intros Hterm. cbn [pollFrom]. unfold terminal in Hterm.
  destruct (server calls) as [status ledger|msg]; [|done].
  destruct (String.eqb status "SUCCESS"); [done|].
  destruct (String.eqb status "FAILED"); done.
Qed.

Lemma pollFrom_first_terminal k :
  forall remaining attempt calls currentInterval waited r,
    k < remaining ->
    (attempt + Z.of_nat remaining = maxAttempts + 1)%Z ->
    (forall j, j < k -> terminal txHash (server (calls + j)) = None) ->
    terminal txHash (server (calls + k)) = Some r ->
    let run := pollFrom' remaining attempt calls currentInterval waited in
    result run = r /\ probes run = calls + S k /\
    length (waits run) = length waited + k.
Proof.
  induction k as [|k IH];
    intros remaining attempt calls currentInterval waited r Hk Hatt Hpend Hterm;
    (destruct remaining as [|remaining]; [lia|]).
  - rewrite Nat.add_0_r in Hterm.
    rewrite (pollFrom_terminal_step _ _ _ _ _ r Hterm). cbn.
    repeat split; lia.
  - rewrite pollFrom_pending_step
      by (specialize (Hpend 0); rewrite Nat.add_0_r in Hpend; apply Hpend; lia).
    destruct (Z.ltb_spec attempt maxAttempts); [|lia].
    edestruct (IH remaining (attempt + 1)%Z (S calls)) as (Hr & Hp & Hw);
      [lia|lia| | |].
    + intros j Hj. replace (S calls + j) with (calls + S j) by lia.
      apply Hpend. lia.
    + replace (S calls + k) with (calls + S k) by lia. exact Hterm.
    + cbn zeta. rewrite Hr, Hp, Hw, length_app. cbn. repeat split; lia.
Qed.

Lemma pollFrom_timed_out remaining :
  forall attempt calls currentInterval waited,
    (forall j, j < remaining ->
               terminal txHash (server (calls + j)) = None) ->
    let run := pollFrom' remaining attempt calls currentInterval waited in
    result run = Failed (TX_TIMEOUT maxAttempts) txHash /\
    probes run = calls + remaining.
Proof.
  induction remaining as [|remaining IH];
    intros attempt calls currentInterval waited Hpend.
  - cbn. split; [done|lia].
  - rewrite pollFrom_pending_step
      by (specialize (Hpend 0); rewrite Nat.add_0_r in Hpend; apply Hpend; lia).
    assert (Hrest : forall j, j < remaining ->
                              terminal txHash (server (S calls + j)) = None).
    { intros j Hj. replace (S calls + j) with (calls + S j) by lia.
      apply Hpend. lia. }
    destruct (attempt <? maxAttempts)%Z;
      (edestruct IH as [Hr Hp]; [exact Hrest|]);
      cbn zeta; rewrite Hr, Hp; split; [done|lia|done|lia].
Qed.

Lemma pollFrom_probes_bound remaining :
  forall attempt calls currentInterval waited,
    probes (pollFrom' remaining attempt calls currentInterval waited)
    <= calls + remaining.
Proof.
  induction remaining as [|remaining IH];
    intros attempt calls currentInterval waited.
  - cbn. lia.
  - destruct (terminal txHash (server calls)) as [r|] eqn:Hterm.
    + rewrite (pollFrom_terminal_step _ _ _ _ _ r Hterm). cbn. lia.
    + rewrite (pollFrom_pending_step _ _ _ _ _ Hterm).
      destruct (attempt <? maxAttempts)%Z; etrans; try apply IH; lia.
Qed.

End PollingFacts.

(** The cases of tests/polling.test.ts. *)
Lemma poll_test_cases :
  (let run :=
     Polling.poll (fun _ => Polling.Resolved "SUCCESS" (Some 100%Z))
       "TX_HASH"
       {| Polling.strategy := None; Polling.interval := None;
          Polling.maxAttempts := None; Polling.backoffFactor := None;
          Polling.maxInterval := None |} in
   Polling.result run = Polling.Confirmed "TX_HASH" 100 /\
   Polling.probes run = 1) /\
  (let run :=
     Polling.poll (Polling.notFoundThenSuccess 2 102) "TX_HASH"
       {| Polling.strategy := Some Polling.EXPONENTIAL;
          Polling.interval := Some 100%Q;
          Polling.maxAttempts := Some 5%Z;
          Polling.backoffFactor := Some 2%Q;
          Polling.maxInterval := None |} in
   Polling.result run = Polling.Confirmed "TX_HASH" 102 /\
   Polling.probes run = 3 /\
   Polling.waits run = [100%Q; 200%Q]) /\
  (let run :=
     Polling.poll (fun _ => Polling.Resolved "FAILED" None) "TX_HASH"
       {| Polling.strategy := None; Polling.interval := None;
          Polling.maxAttempts := None; Polling.backoffFactor := None;
          Polling.maxInterval := None |} in
   Polling.result run = Polling.Failed Polling.TX_FAILED "TX_HASH" /\
   Polling.probes run = 1) /\
  (let run :=
     Polling.poll (fun _ => Polling.Resolved "NOT_FOUND" None) "TX_HASH"
       {| Polling.strategy := None; Polling.interval := Some 10%Q;
          Polling.maxAttempts := Some 3%Z; Polling.backoffFactor := None;
          Polling.maxInterval := None |} in
   Polling.result run
   = Polling.Failed
       {| Polling.code := "TX_TIMEOUT";
          Polling.message :=
            "Transaction confirmation timed out after 3 attempts" |}
       "TX_HASH" /\
   Polling.probes run = 3 /\
   Polling.waits run = [10%Q; 10%Q]) /\
  (let run :=
     Polling.poll
       (fun call =>
          match call with
          | O => Polling.Rejected "Network error"
          | S _ => Polling.Resolved "SUCCESS" (Some 103%Z)
          end)
       "TX_HASH"
       {| Polling.strategy := None; Polling.interval := Some 10%Q;
          Polling.maxAttempts := None; Polling.backoffFactor := None;
          Polling.maxInterval := None |} in
   Polling.result run = Polling.Confirmed "TX_HASH" 103 /\
   Polling.probes run = 2).
Proof. cbv zeta. repeat split; by vm_compute. Qed.

(** C5. In every run of [TransactionPoller.poll]: a probe reporting
    success or on-chain failure ends the polling at once with that result;
    a probe with any other status, or one that throws, leaves the
    transaction pending and the polling goes on; at most [maxAttempts]
    probes are issued, and when none of them is terminal the result is the
    timeout error TX_TIMEOUT, which is not the on-chain failure TX_FAILED.
    Three not-found probes followed by a success, under the LINEAR strategy
    with interval 100, resolve to success on the fourth probe after three
    waits of 100. *)
Theorem poll_terminal_pending_timeout :
  (forall server txHash options k r,
     k < Z.to_nat (default 30%Z (Polling.maxAttempts options)) ->
     (forall j, j < k -> Polling.terminal txHash (server j) = None) ->
     Polling.terminal txHash (server k) = Some r ->
     let run := Polling.poll server txHash options in
     Polling.result run = r /\ Polling.probes run = S k /\
     length (Polling.waits run) = k) /\
  (forall txHash status ledger message,
     Polling.terminal txHash (Polling.Rejected message) = None /\
     (status <> "SUCCESS"%string -> status <> "FAILED"%string ->
      Polling.terminal txHash (Polling.Resolved status ledger) = None) /\
     Polling.terminal txHash (Polling.Resolved "SUCCESS" ledger)
     = Some (Polling.Confirmed txHash (default 0%Z ledger)) /\
     Polling.terminal txHash (Polling.Resolved "FAILED" ledger)
     = Some (Polling.Failed Polling.TX_FAILED txHash)) /\
  (forall server txHash options,
     Polling.probes (Polling.poll server txHash options)
     <= Z.to_nat (default 30%Z (Polling.maxAttempts options))) /\
  (forall server txHash options,
     (forall j, j < Z.to_nat (default 30%Z (Polling.maxAttempts options)) ->
                Polling.terminal txHash (server j) = None) ->
     let run := Polling.poll server txHash options in
     Polling.result run
     = Polling.Failed
         (Polling.TX_TIMEOUT (default 30%Z (Polling.maxAttempts options)))
         txHash /\
     Polling.probes run
     = Z.to_nat (default 30%Z (Polling.maxAttempts options))) /\
  (forall n,
     Polling.code (Polling.TX_TIMEOUT n) = "TX_TIMEOUT"%string /\
     Polling.code Polling.TX_FAILED = "TX_FAILED"%string /\
     Polling.TX_TIMEOUT n <> Polling.TX_FAILED) /\
  (let run :=
     Polling.poll (Polling.notFoundThenSuccess 3 101) "TX_HASH"
       {| Polling.strategy := Some Polling.LINEAR;
          Polling.interval := Some 100%Q;
          Polling.maxAttempts := Some 5%Z;
          Polling.backoffFactor := None;
          Polling.maxInterval := None |} in
   Polling.result run = Polling.Confirmed "TX_HASH" 101 /\
   Polling.probes run = 4 /\
   Polling.waits run = [100%Q; 100%Q; 100%Q] /\
   (300 <= Polling.elapsed run)%Q).
Proof.
  split; [|split; [|split; [|split; [|split]]]].
  - intros server txHash options k r Hk Hpend Hterm. unfold Polling.poll.
    apply (pollFrom_first_terminal server txHash _ _ _ _ k); auto.
    rewrite Z2Nat.id; lia.
  - intros txHash status ledger message. repeat split; try done.
    intros Hs Hf. cbn.
    destruct (String.eqb_spec status "SUCCESS"); [done|].
    destruct (String.eqb_spec status "FAILED"); done.
  - intros server txHash options. unfold Polling.poll.
    etrans; [apply pollFrom_probes_bound|]. lia.
  - intros server txHash options Hpend. unfold Polling.poll.
    apply (pollFrom_timed_out server txHash). exact Hpend.
  - intros n. repeat split. intros H. discriminate H.
  - cbv zeta. repeat split; by vm_compute.
Qed.

Lemma poll_terminal_pending_timeout_witness :
  Polling.result
    (Polling.poll (Polling.notFoundThenSuccess 3 101) "TX_HASH"
       {| Polling.strategy := Some Polling.LINEAR;
          Polling.interval := Some 100%Q;
          Polling.maxAttempts := Some 5%Z;
          Polling.backoffFactor := None;
          Polling.maxInterval := None |})
  = Polling.Confirmed "TX_HASH" 101 /\
  Polling.probes
    (Polling.poll (Polling.notFoundThenSuccess 3 101) "TX_HASH"
       {| Polling.strategy := Some Polling.LINEAR;
          Polling.interval := Some 100%Q;
          Polling.maxAttempts := Some 5%Z;
          Polling.backoffFactor := None;
          Polling.maxInterval := None |}) = 4 /\
  length
    (Polling.waits
       (Polling.poll (Polling.notFoundThenSuccess 3 101) "TX_HASH"
          {| Polling.strategy := Some Polling.LINEAR;
             Polling.interval := Some 100%Q;
             Polling.maxAttempts := Some 5%Z;
             Polling.backoffFactor := None;
             Polling.maxInterval := None |})) = 3.
Proof.
  apply (proj1 poll_terminal_pending_timeout
           (Polling.notFoundThenSuccess 3 101) "TX_HASH" _ 3).
  - vm_compute. lia.
  - intros j Hj. destruct j as [|[|[|j]]]; [reflexivity..|lia].
  - reflexivity.
Defined.


(** ** The waits of the confirmation poller *)

Section PollingSchedule.

Import Polling.

Variable server : nat -> Probe.
Variable txHash : string.
Variable strategy : PollingStrategy.
Variable maxAttempts : Z.
Variables backoffFactor maxInterval : Q.

Local Abbreviation pollFrom' :=
  (pollFrom server txHash strategy maxAttempts backoffFactor maxInterval).

Lemma pollFrom_probes_mono remaining :
  forall attempt calls currentInterval waited,
    calls <= probes (pollFrom' remaining attempt calls currentInterval waited).
Proof.
  induction remaining as [|remaining IH];
    intros attempt calls currentInterval waited; [done|].
  destruct (terminal txHash (server calls)) as [r|] eqn:Hterm.
  - rewrite (pollFrom_terminal_step _ _ _ _ _ _ _ _ _ _ _ r Hterm). cbn. lia.
  - rewrite (pollFrom_pending_step _ _ _ _ _ _ _ _ _ _ _ Hterm).
    destruct (attempt <? maxAttempts)%Z; etrans; [|apply IH| |apply IH]; lia.
Qed.

Lemma pollFrom_probes_again remaining attempt calls currentInterval waited :
  S calls
  <= probes (pollFrom' (S remaining) attempt calls currentInterval waited).
Proof.
  destruct (terminal txHash (server calls)) as [r|] eqn:Hterm.
  - by rewrite (pollFrom_terminal_step _ _ _ _ _ _ _ _ _ _ _ r Hterm).
  - rewrite (pollFrom_pending_step _ _ _ _ _ _ _ _ _ _ _ Hterm).
    destruct (attempt <? maxAttempts)%Z; apply pollFrom_probes_mono.
Qed.

(** The waits of a run: one after every probe but the last, each the
    interval the strategy makes of the one before. *)
Lemma pollFrom_waits remaining :
  forall attempt calls currentInterval waited,
    (attempt + Z.of_nat remaining = maxAttempts + 1)%Z ->
    let run := pollFrom' remaining attempt calls currentInterval waited in
    waits run
    = waited
      ++ (intervalAt strategy backoffFactor maxInterval currentInterval
          <$> seq 0 (probes run - calls - 1)).
Proof.
  induction remaining as [|remaining IH];
    intros attempt calls currentInterval waited Hatt; cbn zeta.
  - cbn. rewrite Nat.sub_diag. cbn. by rewrite app_nil_r.
  - destruct (terminal txHash (server calls)) as [r|] eqn:Hterm.
    + rewrite (pollFrom_terminal_step _ _ _ _ _ _ _ _ _ _ _ r Hterm). cbn.
      replace (S calls - calls - 1) with 0 by lia. cbn.
      by rewrite app_nil_r.
    + rewrite (pollFrom_pending_step _ _ _ _ _ _ _ _ _ _ _ Hterm).
      destruct (Z.ltb_spec attempt maxAttempts) as [Hlt|Hge].
      * destruct remaining as [|remaining]; [lia|].
        rewrite IH by lia.
        pose proof (pollFrom_probes_again remaining (attempt + 1)%Z
                      (S calls)
                      (nextInterval strategy backoffFactor maxInterval
                                    currentInterval)
                      (waited ++ [currentInterval])) as Hprobes.
        fold (nextInterval strategy backoffFactor maxInterval
                           currentInterval) in *.
        set (run := pollFrom' _ _ _ _ _) in *.
        replace (probes run - calls - 1)
          with (S (probes run - S calls - 1)) by lia.
        rewrite <- app_assoc. f_equal. cbn [seq fmap list_fmap app].
        f_equal. rewrite <- seq_shift, <- list_fmap_compose.
        apply list_fmap_ext. intros _ i _.
        unfold compose, intervalAt. symmetry. apply Nat.iter_succ_r.
      * destruct remaining as [|remaining]; [|lia]. cbn.
        replace (S calls - calls - 1) with 0 by lia. cbn.
        by rewrite app_nil_r.
Qed.

End PollingSchedule.

Lemma intervalAt_linear backoffFactor maxInterval initialInterval i :
  Polling.intervalAt Polling.LINEAR backoffFactor maxInterval
                      initialInterval i
  = initialInterval.
Proof. induction i as [|i IH]; [done|]. exact IH. Qed.

Lemma intervalAt_linear_seq backoffFactor maxInterval initialInterval n :
  Polling.intervalAt Polling.LINEAR backoffFactor maxInterval
                      initialInterval <$> seq 0 n
  = replicate n initialInterval.
Proof.
  induction n as [|n IH]; [done|].
  rewrite seq_S, fmap_app, IH. cbn [fmap list_fmap].
  rewrite intervalAt_linear. cbn [Nat.add].
  by rewrite <- replicate_cons_app.
Qed.

Lemma intervalAt_exponential backoffFactor maxInterval initialInterval i :
  (Polling.intervalAt Polling.EXPONENTIAL backoffFactor maxInterval
                       initialInterval (S i)
   <= maxInterval)%Q.
Proof. cbn. apply Q.le_min_r. Qed.

(** X18. [poll] waits once after every probe but the last, so never
    after the attempt that ends it. The first wait is the initial
    interval (1000 ms by default) and each later one is what the strategy
    makes of the one before: the same interval under [LINEAR], the
    smaller of [interval * backoffFactor] and [maxInterval] under
    [EXPONENTIAL], which therefore never waits longer than [maxInterval]
    after the first wait. *)
Theorem poll_waits_follow_the_strategy server txHash options :
  let run := Polling.poll server txHash options in
  let strategy := default Polling.LINEAR (Polling.strategy options) in
  let initialInterval := default 1000%Q (Polling.interval options) in
  let backoffFactor := default 2%Q (Polling.backoffFactor options) in
  let maxInterval := default 10000%Q (Polling.maxInterval options) in
  Polling.waits run
  = Polling.intervalAt strategy backoffFactor maxInterval initialInterval
    <$> seq 0 (pred (Polling.probes run)) /\
  (strategy = Polling.LINEAR ->
   Polling.waits run
   = replicate (pred (Polling.probes run)) initialInterval) /\
  (strategy = Polling.EXPONENTIAL ->
   forall i w,
     Polling.waits run !! S i = Some w -> (w <= maxInterval)%Q).
Proof.
  cbn zeta. unfold Polling.poll.
  set (strategy := default Polling.LINEAR (Polling.strategy options)).
  set (initialInterval := default 1000%Q (Polling.interval options)).
  set (maxAttempts := default 30%Z (Polling.maxAttempts options)).
  set (backoffFactor := default 2%Q (Polling.backoffFactor options)).
  set (maxInterval := default 10000%Q (Polling.maxInterval options)).
  assert (Hwaits :
    let run :=
      Polling.pollFrom server txHash strategy maxAttempts backoffFactor
        maxInterval (Z.to_nat maxAttempts) 1 0 initialInterval [] in
    Polling.waits run
    = Polling.intervalAt strategy backoffFactor maxInterval initialInterval
      <$> seq 0 (pred (Polling.probes run))).
  { cbn zeta. destruct (Z.le_gt_cases 0 maxAttempts) as [Hpos|Hneg].
    - rewrite pollFrom_waits by lia. cbn [app].
      do 2 f_equal. lia.
    - replace (Z.to_nat maxAttempts) with 0 by lia. done. }
  cbn zeta in Hwaits. split; [exact Hwaits|]. split.
  - intros Hlin. rewrite Hwaits, Hlin. apply intervalAt_linear_seq.
  - intros Hexp i w. rewrite Hwaits, Hexp, list_lookup_fmap.
    intros Hw. apply fmap_Some in Hw as (j & Hj & ->).
    apply lookup_seq in Hj as [-> _]. apply intervalAt_exponential.
Qed.

(** ** Retry policy *)

Section RetryFacts.

Context {T : Type}.
Variable fn : nat -> outcome Js.Thrown T.

(** *** src/utils/retry.ts *)

Section Doubling.

Variable random : nat -> Q.
Variable options : Retry.RetryOptions.

(** A failure that is not retryable is propagated by the call that met
    it; so is any failure on the last attempt. *)
Lemma retryFrom_stops remaining attempt called lastError computed awaited err :
  fn called = Throw err ->
  Retry.isRetryable err = false \/ attempt = Retry.maxRetries options ->
  Retry.retryFrom fn random options (S remaining) attempt called
                  lastError computed awaited
  = {| Retry.outcome_of := Throw err; Retry.calls := S called;
       Retry.backoffs := computed; Retry.delays := awaited |}.
Proof.
  intros Hcall Hstop. cbn [Retry.retryFrom]. rewrite Hcall.
  destruct Hstop as [-> | ->]; [done|].
  by rewrite Z.eqb_refl, orb_true_r.
Qed.

(** A retryable failure before the last attempt: wait, then call
    again. *)
Lemma retryFrom_retries remaining attempt called lastError computed awaited
  err :
  fn called = Throw err -> Retry.isRetryable err = true ->
  attempt <> Retry.maxRetries options ->
  Retry.retryFrom fn random options (S remaining) attempt called
                  lastError computed awaited
  = Retry.retryFrom fn random options remaining (attempt + 1)%Z (S called)
      err (computed ++ [Retry.backoffAt options attempt])
      (awaited ++ [Retry.jittered (Retry.backoffAt options attempt)
                                  (random (length awaited))]).
Proof.
  intros Hcall Hretry Hne. cbn [Retry.retryFrom]. rewrite Hcall, Hretry.
  by destruct (Z.eqb_spec attempt (Retry.maxRetries options)).
Qed.


(** After [k] retryable failures, with attempts left, the loop stands [k]
    iterations further, having awaited [k] delays. *)
Lemma retryFrom_after_failures k :
  forall remaining attempt called lastError computed awaited,
    k < remaining ->
    (attempt + Z.of_nat remaining = Retry.maxRetries options + 1)%Z ->
    (forall j, j < k -> exists err,
        fn (called + j) = Throw err /\ Retry.isRetryable err = true) ->
    exists lastError' computed' awaited',
      Retry.retryFrom fn random options remaining attempt called
                      lastError computed awaited
      = Retry.retryFrom fn random options (remaining - k)
          (attempt + Z.of_nat k)%Z (called + k)
          lastError' computed' awaited' /\
      length awaited' = length awaited + k.
Proof.
  induction k as [|k IH];
    intros remaining attempt called lastError computed awaited Hk Hatt Hfail.
  - exists lastError, computed, awaited.
    rewrite Nat.sub_0_r, Z.add_0_r, !Nat.add_0_r. done.
  - destruct remaining as [|remaining]; [lia|].
    destruct (Hfail 0) as (err & Hcall & Hretry); [lia|].
    rewrite Nat.add_0_r in Hcall.
    rewrite (retryFrom_retries _ _ _ _ _ _ err) by (auto; lia).
    edestruct (IH remaining (attempt + 1)%Z (S called))
      as (l' & c' & a' & Heq & Hlen); [lia|lia| |].
    { intros j Hj. replace (S called + j) with (called + S j) by lia.
      apply Hfail. lia. }
    exists l', c', a'. rewrite Heq, Hlen, length_app. cbn [length].
    replace (attempt + 1 + Z.of_nat k)%Z with (attempt + Z.of_nat (S k))%Z
      by lia.
    replace (S called + k) with (called + S k) by lia.
    split; [done|lia].
Qed.

Lemma retryFrom_calls_mono remaining :
  forall attempt called lastError computed awaited,
    called <= Retry.calls
                (Retry.retryFrom fn random options remaining attempt
                   called lastError computed awaited).
Proof.
  induction remaining as [|remaining IH];
    intros attempt called lastError computed awaited;
    cbn [Retry.retryFrom]; [cbn; lia|].
  destruct (fn called) as [v|err]; [cbn; lia|].
  destruct (negb _ || _); [cbn; lia|].
  etrans; [|apply IH]. lia.
Qed.

(** With an iteration left, the operation is called once more. *)
Lemma retryFrom_calls_again remaining attempt called lastError computed
  awaited :
  called + 1 <= Retry.calls
                  (Retry.retryFrom fn random options (S remaining) attempt
                     called lastError computed awaited).
Proof.
  cbn [Retry.retryFrom].
  destruct (fn called) as [v|err]; [cbn; lia|].
  destruct (negb _ || _); [cbn; lia|].
  etrans; [|apply retryFrom_calls_mono]. lia.
Qed.

End Doubling.

(** *** src/utils/ledger.ts *)

Section Multiplier.

Variable options : LedgerRetry.RetryOptions.

Lemma ledger_retryFrom_stops remaining attempt called lastError awaited err :
  fn called = Throw err ->
  LedgerRetry.isRetryable err = false \/
  attempt = LedgerRetry.maxRetries options ->
  LedgerRetry.retryFrom fn options (S remaining) attempt called
                        lastError awaited
  = {| Retry.outcome_of := Throw err; Retry.calls := S called;
       Retry.backoffs := awaited; Retry.delays := awaited |}.
Proof.
  intros Hcall Hstop. cbn [LedgerRetry.retryFrom]. rewrite Hcall.
  destruct Hstop as [-> | ->]; [done|].
  by rewrite Z.eqb_refl, orb_true_r.
Qed.

Lemma ledger_retryFrom_retries remaining attempt called lastError awaited
  err :
  fn called = Throw err -> LedgerRetry.isRetryable err = true ->
  attempt <> LedgerRetry.maxRetries options ->
  LedgerRetry.retryFrom fn options (S remaining) attempt called
                        lastError awaited
  = LedgerRetry.retryFrom fn options remaining (attempt + 1)%Z (S called)
      err (awaited ++ [LedgerRetry.backoffAt options attempt]).
Proof.
  intros Hcall Hretry Hne. cbn [LedgerRetry.retryFrom].
  rewrite Hcall, Hretry.
  by destruct (Z.eqb_spec attempt (LedgerRetry.maxRetries options)).
Qed.


Lemma ledger_retryFrom_after_failures k :
  forall remaining attempt called lastError awaited,
    k < remaining ->
    (attempt + Z.of_nat remaining = LedgerRetry.maxRetries options + 1)%Z ->
    (forall j, j < k -> exists err,
        fn (called + j) = Throw err /\ LedgerRetry.isRetryable err = true) ->
    exists lastError' awaited',
      LedgerRetry.retryFrom fn options remaining attempt called
                            lastError awaited
      = LedgerRetry.retryFrom fn options (remaining - k)
          (attempt + Z.of_nat k)%Z (called + k) lastError' awaited' /\
      length awaited' = length awaited + k.
Proof.
  induction k as [|k IH];
    intros remaining attempt called lastError awaited Hk Hatt Hfail.
  - exists lastError, awaited.
    rewrite Nat.sub_0_r, Z.add_0_r, !Nat.add_0_r. done.
  - destruct remaining as [|remaining]; [lia|].
    destruct (Hfail 0) as (err & Hcall & Hretry); [lia|].
    rewrite Nat.add_0_r in Hcall.
    rewrite (ledger_retryFrom_retries _ _ _ _ _ err) by (auto; lia).
    edestruct (IH remaining (attempt + 1)%Z (S called))
      as (l' & a' & Heq & Hlen); [lia|lia| |].
    { intros j Hj. replace (S called + j) with (called + S j) by lia.
      apply Hfail. lia. }
    exists l', a'. rewrite Heq, Hlen, length_app. cbn [length].
    replace (attempt + 1 + Z.of_nat k)%Z with (attempt + Z.of_nat (S k))%Z
      by lia.
    replace (S called + k) with (called + S k) by lia.
    split; [done|lia].
Qed.

Lemma ledger_retryFrom_calls_mono remaining :
  forall attempt called lastError awaited,
    called <= Retry.calls
                (LedgerRetry.retryFrom fn options remaining attempt
                   called lastError awaited).
Proof.
  induction remaining as [|remaining IH];
    intros attempt called lastError awaited;
    cbn [LedgerRetry.retryFrom]; [cbn; lia|].
  destruct (fn called) as [v|err]; [cbn; lia|].
  destruct (negb _ || _); [cbn; lia|].
  etrans; [|apply IH]. lia.
Qed.

Lemma ledger_retryFrom_calls_again remaining attempt called lastError
  awaited :
  called + 1 <= Retry.calls
                  (LedgerRetry.retryFrom fn options (S remaining) attempt
                     called lastError awaited).
Proof.
  cbn [LedgerRetry.retryFrom].
  destruct (fn called) as [v|err]; [cbn; lia|].
  destruct (negb _ || _); [cbn; lia|].
  etrans; [|apply ledger_retryFrom_calls_mono]. lia.
Qed.

End Multiplier.

End RetryFacts.

(** How [withRetry] of src/utils/retry.ts treats the failure of call
    [k], the calls before it having failed with errors its own test holds
    retryable: an error that fails the test is thrown at once, no call
    follows; an error that passes it is followed by another call while
    attempts remain. *)
Lemma withRetry_classification (T : Type) (fn : nat -> outcome Js.Thrown T)
  random options k err :
  (Z.of_nat k <= Retry.maxRetries options)%Z ->
  (forall j, j < k -> exists e,
      fn j = Throw e /\ Retry.isRetryable e = true) ->
  fn k = Throw err ->
  let run := Retry.withRetry fn random options in
  (Retry.isRetryable err = false ->
   Retry.outcome_of run = Throw err /\ Retry.calls run = S k /\
   length (Retry.delays run) = k) /\
  (Retry.isRetryable err = true ->
   (Z.of_nat k < Retry.maxRetries options)%Z ->
   S (S k) <= Retry.calls run).
Proof.
  intros Hk Hfail Hcall. unfold Retry.withRetry.
  edestruct (retryFrom_after_failures fn random options k
               (Z.to_nat (Retry.maxRetries options + 1)) 0%Z 0
               Js.Nullish [] [])
    as (l' & c' & a' & Heq & Hlen); [lia|lia|exact Hfail|].
  cbn zeta. rewrite Heq. cbn [Nat.add] in *.
  replace (Z.to_nat (Retry.maxRetries options + 1) - k)
    with (S (Z.to_nat (Retry.maxRetries options) - k)) by lia.
  split.
  - intros Hfatal. rewrite (retryFrom_stops _ _ _ _ _ _ _ _ _ err) by auto.
    cbn. cbn in Hlen. done.
  - intros Hretry Hleft.
    rewrite (retryFrom_retries _ _ _ _ _ _ _ _ _ err) by (auto; lia).
    replace (Z.to_nat (Retry.maxRetries options) - k)
      with (S (Z.to_nat (Retry.maxRetries options) - S k)) by lia.
    etrans; [|apply retryFrom_calls_again]. lia.
Qed.

(** The same for [withRetry] of src/utils/ledger.ts and its
    [isRetryable]. *)
Lemma ledger_withRetry_classification (T : Type)
  (fn : nat -> outcome Js.Thrown T) options k err :
  (Z.of_nat k <= LedgerRetry.maxRetries options)%Z ->
  (forall j, j < k -> exists e,
      fn j = Throw e /\ LedgerRetry.isRetryable e = true) ->
  fn k = Throw err ->
  let run := LedgerRetry.withRetry fn options in
  (LedgerRetry.isRetryable err = false ->
   Retry.outcome_of run = Throw err /\ Retry.calls run = S k /\
   length (Retry.delays run) = k) /\
  (LedgerRetry.isRetryable err = true ->
   (Z.of_nat k < LedgerRetry.maxRetries options)%Z ->
   S (S k) <= Retry.calls run).
Proof.
  intros Hk Hfail Hcall. unfold LedgerRetry.withRetry.
  edestruct (ledger_retryFrom_after_failures fn options k
               (Z.to_nat (LedgerRetry.maxRetries options + 1)) 0%Z 0
               Js.Nullish [])
    as (l' & a' & Heq & Hlen); [lia|lia|exact Hfail|].
  cbn zeta. rewrite Heq. cbn [Nat.add] in *.
  replace (Z.to_nat (LedgerRetry.maxRetries options + 1) - k)
    with (S (Z.to_nat (LedgerRetry.maxRetries options) - k)) by lia.
  split.
  - intros Hfatal.
    rewrite (ledger_retryFrom_stops _ _ _ _ _ _ _ err) by auto.
    cbn. cbn in Hlen. done.
  - intros Hretry Hleft.
    rewrite (ledger_retryFrom_retries _ _ _ _ _ _ _ err) by (auto; lia).
    replace (Z.to_nat (LedgerRetry.maxRetries options) - k)
      with (S (Z.to_nat (LedgerRetry.maxRetries options) - S k)) by lia.
    etrans; [|apply ledger_retryFrom_calls_again]. lia.
Qed.

(** The conditions the specification lists as retryable, as [isRetryable]
    of src/utils/ledger.ts recognises them: rate limiting, service
    unavailable, connection reset, refused and timed out, host not found,
    and a message that mentions a timeout. *)
Lemma ledger_isRetryable_conditions message code status text :
  (status = Some 429%Z \/ status = Some 503%Z \/
   code = Some "ECONNRESET"%string \/ code = Some "ECONNREFUSED"%string \/
   code = Some "ETIMEDOUT"%string \/ code = Some "ENOTFOUND"%string \/
   (exists m, message = Some m /\ m <> ""%string /\
              Js.includes (Js.toLowerCase m) "timeout" = true)) ->
  LedgerRetry.isRetryable (Js.Value message code status text) = true.
Proof.
  intros H. unfold LedgerRetry.isRetryable.
  repeat match goal with
         | H : _ \/ _ |- _ => destruct H as [H|H]
         end; subst; cbn [Js.orElse String.eqb Ascii.eqb Bool.eqb].
  - by rewrite bool_decide_eq_true_2.
  - rewrite (bool_decide_eq_true_2 (Some 503%Z = Some 503%Z)) by done.
    by rewrite orb_true_r.
  - vm_compute (Js.toUpperCase "ECONNRESET").
    vm_compute (String.eqb "ECONNRESET" "ECONNRESET").
    rewrite !orb_true_r. reflexivity.
  - vm_compute (Js.toUpperCase "ECONNREFUSED").
    vm_compute (String.eqb "ECONNREFUSED" "ECONNREFUSED").
    rewrite !orb_true_r. reflexivity.
  - vm_compute (Js.toUpperCase "ETIMEDOUT").
    vm_compute (String.eqb "ETIMEDOUT" "ETIMEDOUT").
    rewrite !orb_true_r. reflexivity.
  - vm_compute (Js.toUpperCase "ENOTFOUND").
    vm_compute (String.eqb "ENOTFOUND" "ENOTFOUND").
    rewrite !orb_true_r. reflexivity.
  - destruct H as (m & -> & Hne & Hinc). cbn [Js.orElse].
    destruct (String.eqb_spec m ""); [done|].
    rewrite Hinc. rewrite !orb_true_r. reflexivity.
Qed.

(** C4 at a connection failure. With three retries allowed,
    [withRetry] of src/utils/retry.ts calls an operation that fails with a
    connection reset, a refused connection or an unknown host once, waits
    for nothing and throws the error: its test knows only status 429 and
    503, codes ECONNABORTED and ETIMEDOUT and the word "timeout".
    [withRetry] of src/utils/ledger.ts, whose [isRetryable] knows these
    failures, calls the same operation four times. *)
Theorem withRetry_drops_connection_failures :
  Forall
    (fun err =>
       Retry.isRetryable err = false /\
       (forall random,
          Retry.withRetry (fun _ => Throw err : outcome Js.Thrown unit)
            random
            {| Retry.maxRetries := 3; Retry.retryDelayMs := 1000;
               Retry.maxRetryDelayMs := 10000 |}
          = {| Retry.outcome_of := Throw err; Retry.calls := 1;
               Retry.backoffs := []; Retry.delays := [] |}) /\
       LedgerRetry.isRetryable err = true /\
       Retry.calls
         (LedgerRetry.withRetry (fun _ => Throw err : outcome Js.Thrown unit)
            {| LedgerRetry.maxRetries := 3;
               LedgerRetry.baseDelayMs := Some 1000%Q;
               LedgerRetry.maxDelayMs := Some 10000%Q;
               LedgerRetry.backoffMultiplier := None;
               LedgerRetry.retryDelayMs := None;
               LedgerRetry.maxRetryDelayMs := None |}) = 4)
    [RetryTest.connectionReset; RetryTest.connectionRefused;
     RetryTest.hostNotFound].
Proof.
  repeat constructor; try (intros random); by vm_compute.
Qed.




(** ** The schedule of the retries *)

Section RetrySchedule.

Context {T : Type}.
Variable fn : nat -> outcome Js.Thrown T.

Section DoublingSchedule.

Variable random : nat -> Q.
Variable options : Retry.RetryOptions.

(** The shape of any run of the loop: [n] calls, and between them
    [n - 1] delays, the one after the failure of attempt [i] being the
    jittered back-off of that attempt. *)
Lemma retryFrom_shape remaining :
  forall attempt called lastError computed awaited,
    (attempt + Z.of_nat remaining = Retry.maxRetries options + 1)%Z ->
    let run := Retry.retryFrom fn random options remaining attempt called
                               lastError computed awaited in
    exists n,
      n <= remaining /\ (0 < remaining -> 0 < n) /\
      Retry.calls run = called + n /\
      Retry.backoffs run
      = computed
        ++ ((fun i => Retry.backoffAt options (attempt + Z.of_nat i))
            <$> seq 0 (n - 1)) /\
      Retry.delays run
      = awaited
        ++ ((fun i =>
               Retry.jittered
                 (Retry.backoffAt options (attempt + Z.of_nat i))
                 (random (length awaited + i)))
            <$> seq 0 (n - 1)).
Proof.
  induction remaining as [|remaining IH];
    intros attempt called lastError computed awaited Hatt; cbn zeta.
  - exists 0. cbn. rewrite !app_nil_r. repeat split; lia.
  - destruct (fn called) as [v|err] eqn:Hcall.
    + exists 1. cbn [Retry.retryFrom]. rewrite Hcall. cbn.
      rewrite !app_nil_r. repeat split; lia.
    + destruct (Retry.isRetryable err) eqn:Hretry;
        [destruct (Z.eq_dec attempt (Retry.maxRetries options)) as [Heq|Hne]|].
      * rewrite (retryFrom_stops _ _ _ _ _ _ _ _ _ err) by auto.
        exists 1. cbn. rewrite !app_nil_r. repeat split; lia.
      * rewrite (retryFrom_retries _ _ _ _ _ _ _ _ _ err) by auto.
        destruct (IH (attempt + 1)%Z (S called) err
                     (computed ++ [Retry.backoffAt options attempt])
                     (awaited
                      ++ [Retry.jittered (Retry.backoffAt options attempt)
                                         (random (length awaited))]))
          as (n & Hn & Hpos & Hcalls & Hback & Hdel); [lia|].
        specialize (Hpos ltac:(lia)).
        exists (S n). rewrite Hcalls, Hback, Hdel.
        replace (S n - 1) with (S (n - 1)) by lia.
        rewrite <- !app_assoc, length_app. cbn [seq fmap list_fmap app length].
        rewrite <- seq_shift, <- !list_fmap_compose.
        rewrite Z.add_0_r, Nat.add_0_r.
        split; [lia|]. split; [lia|]. split; [lia|]. split.
        -- do 2 f_equal. apply list_fmap_ext. intros _ i _. cbn.
           f_equal. lia.
        -- do 2 f_equal. apply list_fmap_ext. intros _ i _. cbn.
           do 2 f_equal; lia.
      * rewrite (retryFrom_stops _ _ _ _ _ _ _ _ _ err) by auto.
        exists 1. cbn. rewrite !app_nil_r. repeat split; lia.
Qed.

(** The loop returns the value of the first call that succeeds. *)
Lemma retryFrom_first_success k :
  forall remaining attempt called lastError computed awaited value,
    k < remaining ->
    (attempt + Z.of_nat remaining = Retry.maxRetries options + 1)%Z ->
    (forall j, j < k -> exists err,
        fn (called + j) = Throw err /\ Retry.isRetryable err = true) ->
    fn (called + k) = Return value ->
    let run := Retry.retryFrom fn random options remaining attempt called
                               lastError computed awaited in
    Retry.outcome_of run = Return value /\ Retry.calls run = called + S k.
Proof.
  intros remaining attempt called lastError computed awaited value
         Hk Hatt Hfail Hcall.
  destruct (retryFrom_after_failures fn random options k remaining attempt
              called lastError computed awaited Hk Hatt Hfail)
    as (lastError' & computed' & awaited' & -> & _).
  cbn zeta. replace (remaining - k) with (S (remaining - S k)) by lia.
  cbn [Retry.retryFrom]. rewrite Hcall. cbn. split; [done|lia].
Qed.

End DoublingSchedule.

Section MultiplierSchedule.

Variable options : LedgerRetry.RetryOptions.

Lemma ledger_retryFrom_shape remaining :
  forall attempt called lastError awaited,
    (attempt + Z.of_nat remaining = LedgerRetry.maxRetries options + 1)%Z ->
    let run := LedgerRetry.retryFrom fn options remaining attempt called
                                     lastError awaited in
    exists n,
      n <= remaining /\ (0 < remaining -> 0 < n) /\
      Retry.calls run = called + n /\
      Retry.delays run
      = awaited
        ++ ((fun i => LedgerRetry.backoffAt options (attempt + Z.of_nat i))
            <$> seq 0 (n - 1)).
Proof.
  induction remaining as [|remaining IH];
    intros attempt called lastError awaited Hatt; cbn zeta.
  - exists 0. cbn. rewrite !app_nil_r. repeat split; lia.
  - destruct (fn called) as [v|err] eqn:Hcall.
    + exists 1. cbn [LedgerRetry.retryFrom]. rewrite Hcall. cbn.
      rewrite !app_nil_r. repeat split; lia.
    + destruct (LedgerRetry.isRetryable err) eqn:Hretry;
        [destruct (Z.eq_dec attempt (LedgerRetry.maxRetries options))
          as [Heq|Hne]|].
      * rewrite (ledger_retryFrom_stops _ _ _ _ _ _ _ err) by auto.
        exists 1. cbn. rewrite !app_nil_r. repeat split; lia.
      * rewrite (ledger_retryFrom_retries _ _ _ _ _ _ _ err) by auto.
        destruct (IH (attempt + 1)%Z (S called) err
                     (awaited ++ [LedgerRetry.backoffAt options attempt]))
          as (n & Hn & Hpos & Hcalls & Hdel); [lia|].
        specialize (Hpos ltac:(lia)).
        exists (S n). rewrite Hcalls, Hdel.
        replace (S n - 1) with (S (n - 1)) by lia.
        rewrite <- !app_assoc. cbn [seq fmap list_fmap app].
        rewrite <- seq_shift, <- !list_fmap_compose.
        rewrite Z.add_0_r.
        split; [lia|]. split; [lia|]. split; [lia|].
        do 2 f_equal. apply list_fmap_ext. intros _ i _. cbn.
        f_equal. lia.
      * rewrite (ledger_retryFrom_stops _ _ _ _ _ _ _ err) by auto.
        exists 1. cbn. rewrite !app_nil_r. repeat split; lia.
Qed.

Lemma ledger_retryFrom_first_success k :
  forall remaining attempt called lastError awaited value,
    k < remaining ->
    (attempt + Z.of_nat remaining = LedgerRetry.maxRetries options + 1)%Z ->
    (forall j, j < k -> exists err,
        fn (called + j) = Throw err /\ LedgerRetry.isRetryable err = true) ->
    fn (called + k) = Return value ->
    let run := LedgerRetry.retryFrom fn options remaining attempt called
                                     lastError awaited in
    Retry.outcome_of run = Return value /\ Retry.calls run = called + S k.
Proof.
  intros remaining attempt called lastError awaited value
         Hk Hatt Hfail Hcall.
  destruct (ledger_retryFrom_after_failures fn options k remaining attempt
              called lastError awaited Hk Hatt Hfail)
    as (lastError' & awaited' & -> & _).
  cbn zeta. replace (remaining - k) with (S (remaining - S k)) by lia.
  cbn [LedgerRetry.retryFrom]. rewrite Hcall. cbn. split; [done|lia].
Qed.

End MultiplierSchedule.

End RetrySchedule.

(** X19. Whatever the wrapped operation does, [withRetry] of
    src/utils/retry.ts calls it at most [maxRetries + 1] times and sleeps
    exactly once between two calls, never after the last: the delay after
    the failure of attempt [i] is the back-off [min(maxRetryDelayMs,
    retryDelayMs * 2^i)] with the jitter of the [i]-th draw. With a
    negative [maxRetries] the operation is never called and the rejection
    carries no error. *)
Theorem withRetry_sleeps_between_calls (T : Type)
  (fn : nat -> outcome Js.Thrown T) random options :
  let run := Retry.withRetry fn random options in
  Retry.calls run <= Z.to_nat (Retry.maxRetries options + 1) /\
  Retry.backoffs run
  = (fun i => Retry.backoffAt options (Z.of_nat i))
    <$> seq 0 (pred (Retry.calls run)) /\
  Retry.delays run
  = (fun i =>
       Retry.jittered (Retry.backoffAt options (Z.of_nat i)) (random i))
    <$> seq 0 (pred (Retry.calls run)) /\
  ((Retry.maxRetries options < 0)%Z ->
   run = {| Retry.outcome_of := Throw Js.Nullish; Retry.calls := 0;
            Retry.backoffs := []; Retry.delays := [] |}).
Proof.
  cbn zeta. unfold Retry.withRetry.
  destruct (Z.le_gt_cases 0 (Retry.maxRetries options + 1)) as [Hpos|Hneg].
  - destruct (retryFrom_shape fn random options
                (Z.to_nat (Retry.maxRetries options + 1)) 0%Z 0
                Js.Nullish [] [])
      as (n & Hn & _ & Hcalls & Hback & Hdel); [lia|].
    rewrite Hcalls, Hback, Hdel. cbn [Nat.add app length].
    replace (pred n) with (n - 1) by lia.
    split; [lia|]. split; [done|]. split; [done|].
    intros Hneg. by replace (Z.to_nat (Retry.maxRetries options + 1))
                    with 0 by lia.
  - replace (Z.to_nat (Retry.maxRetries options + 1)) with 0 by lia.
    cbn. repeat split; lia.
Qed.

(** X20. Both [withRetry]s return the value of the first call that
    succeeds, when the calls before it failed with retryable errors and
    there were attempts left for it: call [k] (from 0) needs [k <=
    maxRetries]. The operation is then called [k + 1] times. *)
Theorem withRetry_returns_first_success (T : Type)
  (fn : nat -> outcome Js.Thrown T) k value :
  fn k = Return value ->
  (forall random options,
     (Z.of_nat k <= Retry.maxRetries options)%Z ->
     (forall j, j < k -> exists err,
         fn j = Throw err /\ Retry.isRetryable err = true) ->
     let run := Retry.withRetry fn random options in
     Retry.outcome_of run = Return value /\ Retry.calls run = S k /\
     length (Retry.delays run) = k) /\
  (forall options,
     (Z.of_nat k <= LedgerRetry.maxRetries options)%Z ->
     (forall j, j < k -> exists err,
         fn j = Throw err /\ LedgerRetry.isRetryable err = true) ->
     let run := LedgerRetry.withRetry fn options in
     Retry.outcome_of run = Return value /\ Retry.calls run = S k /\
     length (Retry.delays run) = k).
Proof.
  intros Hcall. split.
  - intros random options Hk Hfail. cbn zeta.
    unfold Retry.withRetry.
    destruct (retryFrom_first_success fn random options k
                (Z.to_nat (Retry.maxRetries options + 1)) 0%Z 0
                Js.Nullish [] [] value) as [Hout Hcalls];
      [lia|lia|exact Hfail|exact Hcall|].
    destruct (retryFrom_shape fn random options
                (Z.to_nat (Retry.maxRetries options + 1)) 0%Z 0
                Js.Nullish [] [])
      as (n & _ & _ & Hcalls' & _ & Hdel); [lia|].
    rewrite Hdel, Hout, Hcalls. rewrite Hcalls in Hcalls'.
    rewrite length_app, length_fmap, length_seq. cbn. split; [done|].
    split; [done|lia].
  - intros options Hk Hfail. cbn zeta.
    unfold LedgerRetry.withRetry.
    destruct (ledger_retryFrom_first_success fn options k
                (Z.to_nat (LedgerRetry.maxRetries options + 1)) 0%Z 0
                Js.Nullish [] value) as [Hout Hcalls];
      [lia|lia|exact Hfail|exact Hcall|].
    destruct (ledger_retryFrom_shape fn options
                (Z.to_nat (LedgerRetry.maxRetries options + 1)) 0%Z 0
                Js.Nullish [])
      as (n & _ & _ & Hcalls' & Hdel); [lia|].
    rewrite Hdel, Hout, Hcalls. rewrite Hcalls in Hcalls'.
    rewrite length_app, length_fmap, length_seq. cbn. split; [done|].
    split; [done|lia].
Qed.

Lemma withRetry_returns_first_success_witness :
  let fn := fun call : nat =>
              match call with
              | 0 => Throw RetryTest.timeoutError
              | S _ => Return 7%Z
              end in
  let run := Retry.withRetry fn (fun _ => 1 # 2)
               {| Retry.maxRetries := 3; Retry.retryDelayMs := 5;
                  Retry.maxRetryDelayMs := 10000 |} in
  Retry.outcome_of run = Return 7%Z /\ Retry.calls run = 2 /\
  length (Retry.delays run) = 1.
Proof.
  cbn zeta.
  apply (proj1 (withRetry_returns_first_success Z
                  (fun call : nat =>
                     match call with
                     | 0 => Throw RetryTest.timeoutError
                     | S _ => Return 7%Z
                     end) 1 7%Z eq_refl)).
  - cbn. lia.
  - intros j Hj. assert (j = 0) as -> by lia.
    exists RetryTest.timeoutError. split; reflexivity.
Defined.

(** X21. Whatever the wrapped operation does and whatever [Math.random]
    draws, [withRetry] of src/utils/retry.ts never waits a negative time
    and computes no back-off above [maxRetryDelayMs]; when
    [retryDelayMs] and [maxRetryDelayMs] are not negative, no back-off is
    negative either. These are the bounds [Math.max] and [Math.min] give;
    how far the jitter moves a delay from its back-off is not stated. *)
Theorem withRetry_delays_never_negative (T : Type)
  (fn : nat -> outcome Js.Thrown T) random options :
  Forall (fun delay => (0 <= delay)%Q)
         (Retry.delays (Retry.withRetry fn random options)) /\
  Forall (fun backoff => (backoff <= Retry.maxRetryDelayMs options)%Q)
         (Retry.backoffs (Retry.withRetry fn random options)) /\
  ((0 <= Retry.retryDelayMs options)%Q ->
   (0 <= Retry.maxRetryDelayMs options)%Q ->
   Forall (fun backoff => (0 <= backoff)%Q)
          (Retry.backoffs (Retry.withRetry fn random options))).
Proof.
  assert (Hshape :
    exists n,
      Retry.backoffs (Retry.withRetry fn random options)
      = (fun i => Retry.backoffAt options (Z.of_nat i)) <$> seq 0 n /\
      Retry.delays (Retry.withRetry fn random options)
      = (fun i => Retry.jittered (Retry.backoffAt options (Z.of_nat i))
                                 (random i)) <$> seq 0 n).
  { unfold Retry.withRetry.
    destruct (Z.le_gt_cases 0 (Retry.maxRetries options + 1)) as [Hpos|Hneg].
    - destruct (retryFrom_shape fn random options
                  (Z.to_nat (Retry.maxRetries options + 1)) 0%Z 0
                  Js.Nullish [] [])
        as (n & _ & _ & _ & Hback & Hdel); [lia|].
      exists (n - 1). by rewrite Hback, Hdel.
    - exists 0. by replace (Z.to_nat (Retry.maxRetries options + 1))
                  with 0 by lia. }
  destruct Hshape as (n & -> & ->).
  split; [|split].
  - apply Forall_fmap, Forall_forall. intros i _. cbn.
    unfold Retry.jittered. apply Q.le_max_l.
  - apply Forall_fmap, Forall_forall. intros i _. cbn.
    unfold Retry.backoffAt. apply Q.le_min_l.
  - intros Hdelay Hmax. apply Forall_fmap, Forall_forall. intros i _. cbn.
    unfold Retry.backoffAt. apply Q.min_glb; [done|].
    apply Qmult_le_0_compat; [done|]. by apply Qpower_0_le.
Qed.

(** X22. Whatever the wrapped operation does, [withRetry] of
    src/utils/ledger.ts calls it at most [maxRetries + 1] times and
    sleeps exactly once between two calls: after the failure of attempt
    [i], for [min(maxDelay, baseDelay * multiplier^i)], without jitter, so
    never longer than [maxDelay]. *)
Theorem ledger_withRetry_sleeps_between_calls (T : Type)
  (fn : nat -> outcome Js.Thrown T) options :
  let run := LedgerRetry.withRetry fn options in
  Retry.calls run <= Z.to_nat (LedgerRetry.maxRetries options + 1) /\
  Retry.delays run
  = (fun i => LedgerRetry.backoffAt options (Z.of_nat i))
    <$> seq 0 (pred (Retry.calls run)) /\
  Forall (fun delay => (delay <= LedgerRetry.maxDelay options)%Q)
         (Retry.delays run).
Proof.
  cbn zeta. unfold LedgerRetry.withRetry.
  assert (Hshape :
    let run := LedgerRetry.retryFrom fn options
                 (Z.to_nat (LedgerRetry.maxRetries options + 1)) 0 0
                 Js.Nullish [] in
    Retry.calls run <= Z.to_nat (LedgerRetry.maxRetries options + 1) /\
    Retry.delays run
    = (fun i => LedgerRetry.backoffAt options (Z.of_nat i))
      <$> seq 0 (pred (Retry.calls run))).
  { cbn zeta.
    destruct (Z.le_gt_cases 0 (LedgerRetry.maxRetries options + 1))
      as [Hpos|Hneg].
    - destruct (ledger_retryFrom_shape fn options
                  (Z.to_nat (LedgerRetry.maxRetries options + 1)) 0%Z 0
                  Js.Nullish [])
        as (n & Hn & _ & Hcalls & Hdel); [lia|].
      rewrite Hcalls, Hdel. cbn [Nat.add app].
      replace (pred n) with (n - 1) by lia. split; [lia|done].
    - replace (Z.to_nat (LedgerRetry.maxRetries options + 1)) with 0 by lia.
      cbn. split; [lia|done]. }
  cbn zeta in Hshape. destruct Hshape as [Hcalls Hdel].
  split; [done|]. split; [done|].
  rewrite Hdel. apply Forall_fmap, Forall_forall. intros i _. cbn.
  apply Q.le_min_l.
Qed.

(** *** The two classifications *)

Lemma prefix_mapChars (f : ascii -> ascii) (s2 s1 : string) :
  String.prefix s1 s2 = true ->
  String.prefix (Js.mapChars f s1) (Js.mapChars f s2) = true.
Proof.
  revert s1. induction s2 as [|b s2 IH]; intros [|a s1]; cbn; try done.
  destruct (ascii_dec a b) as [->|]; [|done].
  destruct (ascii_dec (f b) (f b)); [apply IH|done].
Qed.

Lemma includes_mapChars (f : ascii -> ascii) (haystack needle : string) :
  Js.includes haystack needle = true ->
  Js.includes (Js.mapChars f haystack) (Js.mapChars f needle) = true.
Proof.
  induction haystack as [|c haystack IH]; cbn [Js.includes Js.mapChars];
    intros [Hprefix|Hrest]%orb_true_iff; apply orb_true_iff.
  - left. by apply (prefix_mapChars f "" needle).
  - done.
  - left. by apply (prefix_mapChars f (String c haystack) needle).
  - right. by apply IH.
Qed.

(** X23. The retry test of src/utils/ledger.ts accepts every error the
    test of src/utils/retry.ts accepts: statuses 429 and 503, the codes
    ECONNABORTED and ETIMEDOUT, and a message that includes "timeout". *)
Theorem ledger_isRetryable_accepts_what_retry_accepts (err : Js.Thrown) :
  Retry.isRetryable err = true -> LedgerRetry.isRetryable err = true.
Proof.
  unfold Retry.isRetryable. destruct err as [|message code status text];
    [done|].
  cbn [Js.statusOf Js.codeOf Js.messageOf LedgerRetry.isRetryable].
  intros H. rewrite !orb_true_iff, !bool_decide_eq_true in H.
  destruct H as [[[[->| ->]| ->]| ->]|Hmessage].
  - reflexivity.
  - reflexivity.
  - by destruct (bool_decide _), (bool_decide _).
  - by destruct (bool_decide _), (bool_decide _).
  - destruct message as [m|]; [|done].
    assert (Js.orElse (Some m) text = m) as ->.
    { cbn. destruct (String.eqb_spec m ""); [by subst|done]. }
    apply (includes_mapChars Js.lowerChar) in Hmessage.
    change (Js.mapChars Js.lowerChar "timeout") with "timeout"%string
      in Hmessage.
    unfold Js.toLowerCase. rewrite Hmessage, orb_true_r. reflexivity.
Qed.

Lemma ledger_isRetryable_accepts_what_retry_accepts_witness :
  LedgerRetry.isRetryable RetryTest.timeoutError = true.
Proof.
  apply (ledger_isRetryable_accepts_what_retry_accepts
           RetryTest.timeoutError).
  reflexivity.
Defined.

(** ** Error classification *)

Section ErrorFacts.

Import Errors.






(** The cases of tests/error-parser.test.ts, and a message whose wording
    would match a substring rule but for the contract code in it. *)
Lemma mapError_test_cases :
  mapError (Plain (StringValue "Error(Contract, #101)"))
  = ValidationError "Zero address provided"
      (Some [("contractErrorCode"%string, DNumber 101)]) /\
  (let e := mapError (Plain (StringValue "Error(Contract, #106)")) in
   name e = "InsufficientLiquidityError"%string /\
   message e = "Insufficient liquidity in pool"%string) /\
  (let e := mapError (Plain (StringValue "Error(Contract, #105)")) in
   name e = "SlippageError"%string /\
   message e = "Insufficient output amount"%string) /\
  name (mapError (Plain (StringValue "Error(Contract, #111)")))
  = "DeadlineError"%string /\
  ErrorParser.extractErrorCode "HostError: Error(Contract, #102)"
  = Some 102%Z /\
  ErrorParser.extractErrorCode "Error(Contract, 101)" = Some 101%Z /\
  ErrorParser.extractErrorCode "Some other error" = None /\
  code (mapError
          (Plain (ErrorObject
                    "transaction missed its deadline: Error(Contract, #106)"
                    None None)))
  = "INSUFFICIENT_LIQUIDITY"%string /\
  code (mapError
          (Plain (ErrorObject "transaction missed its deadline" None None)))
  = "DEADLINE_EXCEEDED"%string.
Proof. repeat split; by vm_compute. Qed.



End ErrorFacts.

(** ** Contract error codes in error texts *)

Section ErrorParserFacts.

Import Js Math ErrorParser.

Local Open Scope Z_scope.

Lemma afterLiteral_app (lit s : string) :
  afterLiteral lit (lit ++ s) = Some s.
Proof.
  induction lit as [|a lit IH]; [done|].
  change (afterLiteral (String a lit) (String a (lit +:+ s)) = Some s).
  cbn [afterLiteral]. by rewrite Ascii.eqb_refl.
Qed.

Lemma search_here {A : Type} (pattern : string -> option A) s a :
  pattern s = Some a -> search pattern s = Some a.
Proof. intros H. destruct s; cbn [search]; by rewrite H. Qed.

Lemma digit_not_space_nor_hash (c : ascii) :
  isDigit c = true ->
  isSpace c = false /\ Ascii.eqb (lowerChar "#") (lowerChar c) = false.
Proof. destruct c as [[] [] [] [] [] [] [] []]; by vm_compute. Qed.

Lemma digitsAt_toString (n : Z) (c : ascii) (rest : string) :
  0 <= n -> isDigit c = false ->
  digitsAt (toString n ++ String c rest) = Some n /\
  skipWhile isDigit (toString n ++ String c rest) = String c rest.
Proof.
  intros Hn Hc. unfold digitsAt.
  rewrite takeWhile_run, skipWhile_run
    by (done || by apply every_isDigit_toString).
  split; [|done].
  destruct (toString_nonneg n Hn) as (a & s & Heq & _ & _ & Hvalue).
  rewrite Hvalue, Heq. done.
Qed.

(** The pattern of [extractErrorCode] on the text of a contract error,
    with and without the [#]. *)
Lemma contractErrorAt_code (n : Z) (rest : string) :
  0 <= n ->
  contractErrorAt
    ("Error(Contract," ++ String " " (String "#" (toString n
                                                   ++ String ")" rest)))
  = Some n /\
  contractErrorAt
    ("Error(Contract," ++ String " " (toString n ++ String ")" rest))
  = Some n.
Proof.
  intros Hn.
  destruct (digitsAt_toString n ")" rest Hn eq_refl) as [Hdigits Hskip].
  destruct (toString_nonneg n Hn) as (c & s & Heq & Hc & _ & _).
  destruct (digit_not_space_nor_hash c Hc) as [Hspace Hhash].
  unfold contractErrorAt. rewrite !afterLiteral_app.
  cbn [mbind option_bind skipWhile].
  change (isSpace " ") with true. change (isSpace "#") with false.
  split.
  - cbn [afterLiteral].
    change (lowerChar "#" =? lowerChar "#")%char with true.
    cbv beta iota. rewrite Hdigits, Hskip.
    cbn [mbind option_bind afterLiteral].
    by change (lowerChar ")" =? lowerChar ")")%char with true.
  - assert (skipWhile isSpace (toString n ++ String ")" rest)
            = (toString n ++ String ")" rest)%string) as ->.
    { rewrite Heq.
      change (String c s ++ String ")" rest)%string
        with (String c (s ++ String ")" rest)).
      cbn [skipWhile]. by rewrite Hspace. }
    assert (afterLiteral "#" (toString n ++ String ")" rest) = None) as ->.
    { rewrite Heq.
      change (String c s ++ String ")" rest)%string
        with (String c (s ++ String ")" rest)).
      cbn [afterLiteral]. by rewrite Hhash. }
    rewrite Hdigits, Hskip. cbn [mbind option_bind afterLiteral].
    by change (lowerChar ")" =? lowerChar ")")%char with true.
Qed.

(** The cases of tests/error-parser.test.ts for [toHumanMessage]. *)
Lemma toHumanMessage_test_cases :
  toHumanMessage (Text "Error(Contract, #101)")
  = "Contract Error (101): Zero address provided"%string /\
  toHumanMessage (Text "Error(Contract, #999)")
  = "Contract Error (999)"%string /\
  toHumanMessage (Object (Some "Network timeout"%string))
  = "Network timeout"%string /\
  toHumanMessage (Object None) = "Unknown error"%string.
Proof. repeat split; by vm_compute. Qed.

(** X24. The code of a Soroban contract error is read back from its
    text: for a code [n] within the range of exact JavaScript integers,
    [extractErrorCode] finds [n] in "Error(Contract, #n)", with or without
    the [#] and whatever follows the closing parenthesis, and
    [toHumanMessage] renders it as "Contract Error (n)", followed by the
    table's description when the code has one. *)
Theorem extractErrorCode_reads_back_code (n : Z) (rest : string) :
  0 <= n <= 9007199254740991 ->
  extractErrorCode ("Error(Contract, #" ++ toString n ++ ")" ++ rest)
  = Some n /\
  extractErrorCode ("Error(Contract, " ++ toString n ++ ")" ++ rest)
  = Some n /\
  toHumanMessage (Text ("Error(Contract, #" ++ toString n ++ ")" ++ rest))
  = ("Contract Error (" ++ toString n ++ ")"
     ++ match parseContractError n with
        | Some description => ": " ++ description
        | None => ""
        end)%string.
Proof.
  intros [Hn _].
  destruct (contractErrorAt_code n rest Hn) as [Hhash Hplain].
  assert (Hcoded :
    extractErrorCode ("Error(Contract, #" ++ toString n ++ ")" ++ rest)
    = Some n).
  { unfold extractErrorCode.
    change ("Error(Contract, #" ++ toString n ++ ")" ++ rest)%string
      with ("Error(Contract," ++ String " " (String "#" (toString n
                                                   ++ String ")" rest)))%string.
    by rewrite (search_here _ _ _ Hhash). }
  split; [done|]. split.
  - unfold extractErrorCode.
    change ("Error(Contract, " ++ toString n ++ ")" ++ rest)%string
      with ("Error(Contract," ++ String " " (toString n
                                             ++ String ")" rest))%string.
    by rewrite (search_here _ _ _ Hplain).
  - unfold toHumanMessage. cbn [messageOf]. rewrite Hcoded.
    destruct (parseContractError n); [|by rewrite append_empty_r].
    reflexivity.
Qed.

Lemma extractErrorCode_reads_back_code_witness :
  extractErrorCode ("Error(Contract, #" ++ toString 106 ++ ")" ++ "")
  = Some 106.
Proof.
  apply (extractErrorCode_reads_back_code 106 ""). lia.
Defined.

End ErrorParserFacts.

(** ** Addresses, the pair cache and the borrowable amount *)

Section AddressFacts.

Import Math Addresses.

Local Open Scope Z_scope.

(** X25. [sortTokens] refuses two identical tokens and otherwise
    returns the two tokens given, the smaller first, whichever order they
    were given in. *)
Theorem sortTokens_orders_the_pair (tokenA tokenB : string) :
  (tokenA = tokenB ->
   sortTokens tokenA tokenB = Throw (Error "Identical tokens")) /\
  (tokenA <> tokenB ->
   exists token0 token1,
     sortTokens tokenA tokenB = Return (token0, token1) /\
     sortTokens tokenB tokenA = Return (token0, token1) /\
     String.ltb token0 token1 = true /\
     ((token0, token1) = (tokenA, tokenB) \/
      (token0, token1) = (tokenB, tokenA))).
Proof.
  unfold sortTokens. split.
  - intros ->. by rewrite String.eqb_refl.
  - intros Hne.
    destruct (String.eqb_spec tokenA tokenB) as [|_]; [done|].
    destruct (String.eqb_spec tokenB tokenA) as [|_]; [by subst|].
    unfold String.ltb.
    pose proof (String.compare_antisym tokenA tokenB) as Hanti.
    rewrite Hanti.
    destruct (String.compare tokenB tokenA) eqn:Hba; cbn [CompOpp] in *.
    + apply String.compare_eq_iff in Hba. by subst.
    + exists tokenB, tokenA. rewrite Hba. auto.
    + exists tokenA, tokenB. rewrite Hanti. auto.
Qed.

(** X26. With at least one character kept at each end, [truncateAddress]
    never lengthens an address: an address of more than [2 * chars + 3]
    characters becomes its first [chars] characters, three dots and its
    last [chars] characters, and a shorter one is returned as it is. *)
Theorem truncateAddress_length (address : string) (chars : Z) :
  1 <= chars ->
  len (truncateAddress address chars)
  = Z.min (len address) (2 * chars + 3) /\
  (len address <= 2 * chars + 3 -> truncateAddress address chars = address) /\
  (2 * chars + 3 < len address ->
   exists first middle last,
     address = (first ++ middle ++ last)%string /\
     truncateAddress address chars = (first ++ "..." ++ last)%string /\
     len first = chars /\ len last = chars).
Proof.
  intros Hchars. unfold truncateAddress.
  destruct (Z.leb_spec (len address) (chars * 2 + 3)) as [Hshort|Hlong].
  - split; [lia|]. split; [done|lia].
  - rewrite slice_prefix by lia.
    assert (Hlast : sliceFrom address (- chars)
                    = substring (Z.to_nat (len address - chars))
                                (String.length address
                                 - Z.to_nat (len address - chars)) address).
    { unfold sliceFrom, slice.
      destruct (Z.ltb_spec (- chars) 0); [|lia].
      destruct (Z.ltb_spec (len address) 0); [unfold len in *; lia|].
      rewrite Z.max_l, Z.min_id by lia. f_equal; unfold len in *; lia. }
    rewrite Hlast.
    set (n := Z.to_nat (len address - chars)).
    assert (Hn : (n <= String.length address)%nat)
      by (unfold n, len in *; lia).
    assert (Hc : (Z.to_nat chars <= n)%nat) by (unfold n, len in *; lia).
    pose proof (substring_split address n Hn) as Hsplit.
    set (prefix := substring 0 n address) in *.
    set (last := substring n (String.length address - n) address) in *.
    assert (Hprefix : String.length prefix = n)
      by (by apply length_substring_prefix).
    assert (Hlastlen : String.length last = (String.length address - n)%nat)
      by (by apply length_substring_suffix).
    pose proof (substring_split prefix (Z.to_nat chars) ltac:(lia))
      as Hsplit'.
    assert (Hfirst : substring 0 (Z.to_nat chars) address
                     = substring 0 (Z.to_nat chars) prefix).
    { rewrite <- Hsplit at 1. apply substring_prefix_app. lia. }
    rewrite Hfirst.
    set (first := substring 0 (Z.to_nat chars) prefix) in *.
    set (middle := substring (Z.to_nat chars)
                             (String.length prefix - Z.to_nat chars)
                             prefix) in *.
    assert (Hfirstlen : String.length first = Z.to_nat chars)
      by (apply length_substring_prefix; lia).
    split; [|split; [lia|]].
    + unfold len. rewrite !length_append, Hfirstlen, Hlastlen.
      cbn [String.length]. unfold n, len in *. lia.
    + intros _. exists first, middle, last.
      split; [|split; [done|split]].
      * by rewrite append_assoc, Hsplit', Hsplit.
      * unfold len. lia.
      * unfold len. rewrite Hlastlen. unfold n, len in *. lia.
Qed.

Lemma truncateAddress_length_witness :
  len (truncateAddress
         "GBRPYHIL2CI3FNQ4BXLFMNDLFJUNPU2HY3ZMFSHONUCEOASW7QC7OX2H" 4)
  = Z.min (len "GBRPYHIL2CI3FNQ4BXLFMNDLFJUNPU2HY3ZMFSHONUCEOASW7QC7OX2H")
          (2 * 4 + 3).
Proof.
  apply (truncateAddress_length
           "GBRPYHIL2CI3FNQ4BXLFMNDLFJUNPU2HY3ZMFSHONUCEOASW7QC7OX2H" 4).
  lia.
Defined.

(** The examples of the documentation of [truncateAddress], and what it
    does when asked to keep no character. *)
Lemma truncateAddress_examples :
  truncateAddress
    "GBRPYHIL2CI3FNQ4BXLFMNDLFJUNPU2HY3ZMFSHONUCEOASW7QC7OX2H" 4
  = "GBRP...OX2H"%string /\
  truncateAddress
    "GBRPYHIL2CI3FNQ4BXLFMNDLFJUNPU2HY3ZMFSHONUCEOASW7QC7OX2H" 6
  = "GBRPYH...C7OX2H"%string /\
  truncateAddress "SHORT" 4 = "SHORT"%string /\
  truncateAddress "GBRPYHIL" 0 = "...GBRPYHIL"%string.
Proof. repeat split; by vm_compute. Qed.

End AddressFacts.

Section FactoryFacts.

Import Addresses Factory.

Variable getPair : nat -> string -> string -> outcome JsError (option string).

Lemma sortTokens_comm (tokenA tokenB : string) :
  sortTokens tokenA tokenB = sortTokens tokenB tokenA.
Proof.
  unfold sortTokens. rewrite (String.eqb_sym tokenB tokenA).
  destruct (String.eqb_spec tokenA tokenB) as [|Hne]; [done|].
  unfold String.ltb. rewrite (String.compare_antisym tokenB tokenA).
  destruct (String.compare tokenA tokenB) eqn:Hab; cbn [CompOpp]; try done.
  by apply String.compare_eq_iff in Hab.
Qed.

Lemma pairKey_comm (tokenA tokenB : string) :
  pairKey tokenA tokenB = pairKey tokenB tokenA.
Proof. unfold pairKey. by rewrite sortTokens_comm. Qed.

(** A lookup that is not told to bypass the cache and finds an entry
    answers with it and leaves the state as it is. *)
Lemma getPairAddress_hit tokenA tokenB options st key r :
  pairKey tokenA tokenB = Some key -> cache st !! key = Some r ->
  default false (bypassCache options) = false ->
  getPairAddress getPair tokenA tokenB options st = (Return r, st).
Proof.
  unfold pairKey, getPairAddress. intros Hkey Hcache ->.
  destruct (sortTokens tokenA tokenB) as [[t0 t1]|]; [|done].
  injection Hkey as <-. rewrite Hcache. cbn [negb andb default].
  by rewrite bool_decide_eq_true_2.
Qed.

(** A lookup that answers leaves its answer in the cache. *)
Lemma getPairAddress_cached tokenA tokenB options st r st' :
  getPairAddress getPair tokenA tokenB options st = (Return r, st') ->
  exists key, pairKey tokenA tokenB = Some key /\ cache st' !! key = Some r.
Proof.
  unfold pairKey, getPairAddress.
  destruct (sortTokens tokenA tokenB) as [[t0 t1]|]; [|done].
  intros H. exists (cacheKey t0 t1). split; [done|].
  destruct (negb _ && bool_decide _) eqn:Hhit.
  - apply andb_true_iff in Hhit as [_ Hsome].
    apply bool_decide_eq_true in Hsome as [v Hv].
    injection H as <- <-. by rewrite Hv.
  - destruct (getPair _ _ _) as [pairAddress|]; [|done].
    injection H as <- <-. cbn [cache]. by rewrite lookup_insert_eq.
Qed.

(** X27. Once a lookup has answered, every later lookup of the same two
    tokens, in either order, that is not told to bypass the cache repeats
    that answer without asking the factory again (the state, with its
    count of factory calls, is unchanged), whatever the factory would
    answer by then; that holds for the answer "no such pair" too. *)
Theorem getPairAddress_answers_from_cache tokenA tokenB options options'
  st r st' :
  getPairAddress getPair tokenA tokenB options st = (Return r, st') ->
  default false (bypassCache options') = false ->
  getPairAddress getPair tokenA tokenB options' st' = (Return r, st') /\
  getPairAddress getPair tokenB tokenA options' st' = (Return r, st').
Proof.
  intros H Hbypass.
  destruct (getPairAddress_cached _ _ _ _ _ _ H) as (key & Hkey & Hcache).
  split; eapply getPairAddress_hit; eauto.
  by rewrite pairKey_comm.
Qed.

Lemma preLoadPairs_app front back st :
  preLoadPairs (front ++ back) st
  = match preLoadPairs front st with
    | (Return _, st') => preLoadPairs back st'
    | (Throw e, st') => (Throw e, st')
    end.
Proof.
  revert st. induction front as [|[[a b] addr] front IH]; intros st;
    [done|].
  cbn [app preLoadPairs].
  destruct (sortTokens a b) as [[t0 t1]|]; [apply IH|done].
Qed.

Lemma preLoadPairs_preserves back :
  forall st st' key,
    preLoadPairs back st = (Return tt, st') ->
    (forall c d addr, (c, d, addr) ∈ back -> pairKey c d <> Some key) ->
    cache st' !! key = cache st !! key /\ queries st' = queries st.
Proof.
  induction back as [|[[c d] addr] back IH]; intros st st' key Hload Hother.
  - by injection Hload as <-.
  - cbn [preLoadPairs] in Hload.
    pose proof (Hother c d addr ltac:(left)) as Hkey. unfold pairKey in Hkey.
    destruct (sortTokens c d) as [[t0 t1]|]; [|done].
    destruct (IH _ _ key Hload) as [Hcache Hqueries].
    { intros c' d' addr' Hin. apply (Hother c' d' addr'). by right. }
    rewrite Hcache, Hqueries. cbn [cache queries].
    rewrite lookup_insert_ne by congruence. done.
Qed.

Lemma preLoadPairs_queries pairs :
  forall st r st', preLoadPairs pairs st = (r, st') -> queries st' = queries st.
Proof.
  induction pairs as [|[[a b] addr] pairs IH]; intros st r st' Hload.
  - by injection Hload as _ <-.
  - cbn [preLoadPairs] in Hload.
    destruct (sortTokens a b) as [[t0 t1]|]; [|by injection Hload as _ <-].
    by rewrite (IH _ _ _ Hload).
Qed.

(** X28. A pair pre-loaded into the cache is found there: after
    [preLoadPairs], a lookup of the two tokens of an entry that no later
    entry of the list overwrites answers with the entry's address, in
    either order of the tokens, without asking the factory. *)
Theorem preLoadPairs_then_lookup front back tokenA tokenB addr options
  st st' :
  preLoadPairs (front ++ (tokenA, tokenB, addr) :: back) st
  = (Return tt, st') ->
  (forall c d addr',
     (c, d, addr') ∈ back -> pairKey c d <> pairKey tokenA tokenB) ->
  default false (bypassCache options) = false ->
  queries st' = queries st /\
  getPairAddress getPair tokenA tokenB options st'
  = (Return (Some addr), st') /\
  getPairAddress getPair tokenB tokenA options st'
  = (Return (Some addr), st').
Proof.
  intros Hload Hother Hbypass.
  split; [by apply (preLoadPairs_queries _ _ _ _ Hload)|].
  rewrite preLoadPairs_app in Hload.
  destruct (preLoadPairs front st) as [[[]|] st1]; [|done].
  cbn [preLoadPairs] in Hload.
  destruct (sortTokens tokenA tokenB) as [[t0 t1]|] eqn:Hsort; [|done].
  assert (Hkey : pairKey tokenA tokenB = Some (cacheKey t0 t1))
    by (unfold pairKey; by rewrite Hsort).
  rewrite Hkey in Hother.
  destruct (preLoadPairs_preserves back _ _ _ Hload Hother) as [Hcache _].
  cbn [cache] in Hcache. rewrite lookup_insert_eq in Hcache.
  split; eapply getPairAddress_hit; eauto.
  by rewrite pairKey_comm.
Qed.

(** *** Cache keys *)

Lemma includes_colon_cons (c : ascii) (s : string) :
  Js.includes (String c s) ":" = false ->
  c <> ":"%char /\ Js.includes s ":" = false.
Proof.
  cbn [Js.includes String.prefix].
  destruct (ascii_dec ":" c) as [<-|Hne].
  - by destruct s.
  - cbn [orb]. intros H. split; [congruence|done].
Qed.

Lemma cacheKey_inj (t0 t1 u0 u1 : string) :
  Js.includes t0 ":" = false -> Js.includes u0 ":" = false ->
  cacheKey t0 t1 = cacheKey u0 u1 -> t0 = u0 /\ t1 = u1.
Proof.
  unfold cacheKey. revert u0.
  induction t0 as [|c t0 IH]; intros [|d u0] Ht Hu Heq;
    rewrite ?append_cons, ?append_nil_l in Heq.
  - by injection Heq as ->.
  - apply includes_colon_cons in Hu as [Hd _].
    by injection Heq as <-.
  - apply includes_colon_cons in Ht as [Hc _].
    by injection Heq as ->.
  - apply includes_colon_cons in Ht as [_ Ht].
    apply includes_colon_cons in Hu as [_ Hu].
    injection Heq as -> Heq.
    destruct (IH _ Ht Hu) as [-> ->]; [|done].
    by rewrite ?append_cons, ?append_nil_l.
Qed.

(** X29. The cache cannot take one pair for another: when no token
    contains a colon, as no Stellar address does, two lookups share a
    cache key only if they name the same two tokens, in either order. *)
Theorem pairKey_separates_pairs (tokenA tokenB tokenC tokenD : string) :
  Js.includes tokenA ":" = false -> Js.includes tokenB ":" = false ->
  Js.includes tokenC ":" = false -> Js.includes tokenD ":" = false ->
  is_Some (pairKey tokenA tokenB) ->
  pairKey tokenA tokenB = pairKey tokenC tokenD ->
  (tokenA = tokenC /\ tokenB = tokenD) \/
  (tokenA = tokenD /\ tokenB = tokenC).
Proof.
  unfold pairKey, sortTokens. intros Ha Hb Hc Hd [key Hkey] Heq.
  rewrite Hkey in Heq. symmetry in Heq.
  destruct (String.eqb tokenA tokenB); [done|].
  destruct (String.eqb tokenC tokenD); [done|].
  destruct (String.ltb tokenA tokenB), (String.ltb tokenC tokenD);
    injection Hkey as <-; injection Heq as Heq;
    apply cacheKey_inj in Heq as [-> ->]; auto.
Qed.

End FactoryFacts.

Lemma getPairAddress_answers_from_cache_witness :
  let getPair := fun (call : nat) (_ _ : string) =>
                   match call with
                   | 0 => Return (None : option string)
                   | S _ => Return (Some "CPAIR"%string)
                   end : outcome JsError (option string) in
  let st' := {| Factory.cache :=
                  <[Factory.cacheKey "CA" "CB" := None]> ∅;
                Factory.queries := 1 |} in
  Factory.getPairAddress getPair "CB" "CA"
    {| Factory.bypassCache := None |} st'
  = (Return None, st').
Proof.
  cbn zeta.
  apply (getPairAddress_answers_from_cache
           (fun (call : nat) (_ _ : string) =>
              match call with
              | 0 => Return (None : option string)
              | S _ => Return (Some "CPAIR"%string)
              end)
           "CA" "CB" {| Factory.bypassCache := None |}
           {| Factory.bypassCache := None |}
           {| Factory.cache := ∅; Factory.queries := 0 |});
    reflexivity.
Defined.

Lemma preLoadPairs_then_lookup_witness :
  Factory.getPairAddress (fun _ _ _ => Throw (Error "offline")) "CB" "CA"
    {| Factory.bypassCache := None |}
    {| Factory.cache := <[Factory.cacheKey "CA" "CB" := Some "CPAIR"]> ∅;
       Factory.queries := 0 |}
  = (Return (Some "CPAIR"%string),
     {| Factory.cache := <[Factory.cacheKey "CA" "CB" := Some "CPAIR"]> ∅;
        Factory.queries := 0 |}).
Proof.
  apply (preLoadPairs_then_lookup (fun _ _ _ => Throw (Error "offline"))
           [] [] "CA" "CB" "CPAIR" {| Factory.bypassCache := None |}
           {| Factory.cache := ∅; Factory.queries := 0 |}).
  - reflexivity.
  - intros c d addr' Hin. by apply elem_of_nil in Hin.
  - reflexivity.
Defined.

Lemma pairKey_separates_pairs_witness :
  ("CA"%string = "CB"%string /\ "CB"%string = "CA"%string) \/
  ("CA"%string = "CA"%string /\ "CB"%string = "CB"%string).
Proof.
  apply (pairKey_separates_pairs "CA" "CB" "CB" "CA");
    try reflexivity.
  by eexists.
Defined.

Section FlashLoanFacts.

Local Open Scope Z_scope.

(** X30. For a pool whose reserves are not negative, [getMaxBorrowable]
    answers with the reserve of the token less a hundredth of it, rounded
    down: at most the reserve, at least 99 % of it, and all of it when it
    is below 100 units. The reserve taken is [reserve0] when the token is
    the pool's [token0], and [reserve1] for any other token. *)
Theorem getMaxBorrowable_keeps_a_margin client pairAddress token
  reserve0 reserve1 tokens :
  getReserves (pair client pairAddress) = Return (reserve0, reserve1) ->
  getTokens (pair client pairAddress) = Return tokens ->
  0 <= reserve0 -> 0 <= reserve1 ->
  let reserve := if String.eqb (fst tokens) token then reserve0
                 else reserve1 in
  exists amount,
    FlashLoan.getMaxBorrowable client pairAddress token = Return amount /\
    0 <= amount <= reserve /\ 99 * reserve <= 100 * amount /\
    (reserve < 100 -> amount = reserve).
Proof.
  intros Hreserves Htokens H0 H1. cbn zeta.
  unfold FlashLoan.getMaxBorrowable. rewrite Hreserves, Htokens.
  cbn [mbind outcome_bind mret outcome_ret].
  set (reserve := if String.eqb _ _ then _ else _).
  assert (0 <= reserve) by (unfold reserve; by destruct (String.eqb _ _)).
  eexists. split; [done|].
  rewrite Z.quot_div_nonneg by lia.
  pose proof (Z.mul_div_le reserve 100 ltac:(lia)).
  assert (0 <= reserve / 100) by (apply Z.div_pos; lia).
  repeat split; lia.
Qed.

Lemma getMaxBorrowable_keeps_a_margin_witness :
  exists amount,
    FlashLoan.getMaxBorrowable
      (RouterTest.buildMockClient RouterTest.pools_direct_only)
      "P_AB" RouterTest.T_A
    = Return amount /\
    0 <= amount <= 1000000.
Proof.
  destruct (getMaxBorrowable_keeps_a_margin
              (RouterTest.buildMockClient RouterTest.pools_direct_only)
              "P_AB" RouterTest.T_A 1000000 1000000
              (RouterTest.T_A, RouterTest.T_B))
    as (amount & Heq & Hrange & _); [reflexivity|reflexivity|lia|lia|].
  exists amount. split; [exact Heq|exact Hrange].
Defined.

End FlashLoanFacts.
